(** * Anonymous voting: the session engine of [main.py]

    A shallow embedding of the in-memory storage, the four state-changing
    request handlers ([create_session], [start_voting], [end_voting],
    [submit_vote]), the timer task [auto_end_voting], the read-only handlers
    ([get_vote_page], [vote_page], [get_session_status]), the token hashing
    helper [hash_token] and the connection manager, followed by their
    properties.

    Conventions.
    - A Python [str] is a Rocq [string] holding its UTF-8 bytes, so that
      [token.encode()] is the underlying byte sequence and equality of
      strings is equality of [str] values.
    - A Python [float], such as a reading of [time.time()], is a binary64
      floating-point number ([Float.t]), with the rounding and the overflow
      of its arithmetic; Python integers are [Z], counters and lengths are
      [nat].
    - The dictionaries of [InMemoryStorage] are [gmap]s keyed by [string].
    - The sources of randomness and the clock belong to the environment:
      the k-th value they deliver is given by a function of k, and the
      world state records how many values were drawn so far. *)

From Stdlib Require Import NArith ZArith List Ascii String Permutation Lia SpecFloat.
From stdpp Require Import base gmap strings list fin_maps.

(** ** SHA-256 ([hashlib.sha256], FIPS 180-4) *)

Module SHA256.
Local Open Scope N_scope.

Definition word_size : N := 32.
Definition trunc32 (x : N) : N := x mod 2 ^ word_size.
Definition add32 (x y : N) : N := trunc32 (x + y).
Definition rotr (n x : N) : N :=
  N.lor (N.shiftr x n) (trunc32 (N.shiftl x (word_size - n))).
Definition not32 (x : N) : N := N.lxor x (2 ^ word_size - 1).

Definition Ch (x y z : N) : N := N.lxor (N.land x y) (N.land (not32 x) z).
Definition Maj (x y z : N) : N :=
  N.lxor (N.lxor (N.land x y) (N.land x z)) (N.land y z).
Definition big_sigma0 (x : N) : N :=
  N.lxor (N.lxor (rotr 2 x) (rotr 13 x)) (rotr 22 x).
Definition big_sigma1 (x : N) : N :=
  N.lxor (N.lxor (rotr 6 x) (rotr 11 x)) (rotr 25 x).
Definition small_sigma0 (x : N) : N :=
  N.lxor (N.lxor (rotr 7 x) (rotr 18 x)) (N.shiftr x 3).
Definition small_sigma1 (x : N) : N :=
  N.lxor (N.lxor (rotr 17 x) (rotr 19 x)) (N.shiftr x 10).

(** The round constants and the initial hash value are the leading 32 bits
    of the fractional parts of the cube roots, respectively square roots, of
    the first primes; they are computed from that description. *)

Definition primes : list N :=
  [2; 3; 5; 7; 11; 13; 17; 19; 23; 29; 31; 37; 41; 43; 47; 53; 59; 61; 67;
   71; 73; 79; 83; 89; 97; 101; 103; 107; 109; 113; 127; 131; 137; 139; 149;
   151; 157; 163; 167; 173; 179; 181; 191; 193; 197; 199; 211; 223; 227; 229;
   233; 239; 241; 251; 257; 263; 269; 271; 277; 281; 283; 293; 307; 311].

(** Integer cube root, one bit at a time from bit [b - 1] down. *)
Fixpoint cube_root_bits (b : nat) (x r : N) : N :=
  match b with
  | O => r
  | S b' =>
      let r' := r + 2 ^ N.of_nat b' in
      cube_root_bits b' x (if r' * r' * r' <=? x then r' else r)
  end.

Definition cube_root_frac32 (p : N) : N :=
  trunc32 (cube_root_bits 36 (p * 2 ^ 96) 0).
Definition square_root_frac32 (p : N) : N :=
  trunc32 (N.sqrt (p * 2 ^ 64)).

Definition K : list N := Eval vm_compute in List.map cube_root_frac32 primes.
Definition H_init : list N :=
  Eval vm_compute in List.map square_root_frac32 (firstn 8 primes).

(** Padding: a one bit, zero bits up to 56 modulo 64 bytes, and the length
    of the message in bits as a 64-bit big-endian integer. *)

Fixpoint be_bytes (n : nat) (x : N) : list N :=
  match n with
  | O => []
  | S n' => be_bytes n' (N.shiftr x 8) ++ [x mod 256]
  end.

Definition pad (msg : list N) : list N :=
  let len := N.of_nat (length msg) in
  let zeros := N.to_nat ((64 + 55 - len mod 64) mod 64) in
  msg ++ [128] ++ repeat 0 zeros ++ be_bytes 8 (8 * len).

Fixpoint be_words (fuel : nat) (bs : list N) : list N :=
  match fuel, bs with
  | S fuel', b0 :: b1 :: b2 :: b3 :: rest =>
      (N.shiftl b0 24 + N.shiftl b1 16 + N.shiftl b2 8 + b3)
        :: be_words fuel' rest
  | _, _ => []
  end.

Fixpoint blocks (fuel : nat) (ws : list N) : list (list N) :=
  match fuel, ws with
  | S fuel', _ :: _ => firstn 16 ws :: blocks fuel' (skipn 16 ws)
  | _, _ => []
  end.

(** The message schedule, most recent word first. *)
Fixpoint extend (n : nat) (rev_w : list N) : list N :=
  match n with
  | O => rev_w
  | S n' =>
      let w := add32 (add32 (small_sigma1 (nth 1 rev_w 0)) (nth 6 rev_w 0))
                     (add32 (small_sigma0 (nth 14 rev_w 0)) (nth 15 rev_w 0)) in
      extend n' (w :: rev_w)
  end.

Definition schedule (block : list N) : list N := rev (extend 48 (rev block)).

Record regs := Regs { ra : N; rb : N; rc : N; rd : N;
                      re : N; rf : N; rg : N; rh : N }.

Definition round (s : regs) (kw : N * N) : regs :=
  let t1 := add32 (add32 (add32 (rh s) (big_sigma1 (re s)))
                         (add32 (Ch (re s) (rf s) (rg s)) (fst kw))) (snd kw) in
  let t2 := add32 (big_sigma0 (ra s)) (Maj (ra s) (rb s) (rc s)) in
  Regs (add32 t1 t2) (ra s) (rb s) (rc s) (add32 (rd s) t1) (re s) (rf s) (rg s).

Definition compress (h : regs) (block : list N) : regs :=
  let s := fold_left round (combine K (schedule block)) h in
  Regs (add32 (ra h) (ra s)) (add32 (rb h) (rb s)) (add32 (rc h) (rc s))
       (add32 (rd h) (rd s)) (add32 (re h) (re s)) (add32 (rf h) (rf s))
       (add32 (rg h) (rg s)) (add32 (rh h) (rh s)).

Definition initial : regs :=
  Regs (nth 0 H_init 0) (nth 1 H_init 0) (nth 2 H_init 0) (nth 3 H_init 0)
       (nth 4 H_init 0) (nth 5 H_init 0) (nth 6 H_init 0) (nth 7 H_init 0).

Definition digest (msg : list N) : regs :=
  let padded := pad msg in
  let ws := be_words (length padded) padded in
  fold_left compress (blocks (length ws) ws) initial.

Definition hex_digit (x : N) : ascii :=
  if x <? 10 then ascii_of_N (48 + x) else ascii_of_N (87 + x).

Definition hex_word (w : N) (k : string) : string :=
  String (hex_digit (N.shiftr w 28 mod 16))
  (String (hex_digit (N.shiftr w 24 mod 16))
  (String (hex_digit (N.shiftr w 20 mod 16))
  (String (hex_digit (N.shiftr w 16 mod 16))
  (String (hex_digit (N.shiftr w 12 mod 16))
  (String (hex_digit (N.shiftr w 8 mod 16))
  (String (hex_digit (N.shiftr w 4 mod 16))
  (String (hex_digit (w mod 16)) k))))))).

Definition hex_regs (s : regs) : string :=
  hex_word (ra s) (hex_word (rb s) (hex_word (rc s) (hex_word (rd s)
  (hex_word (re s) (hex_word (rf s) (hex_word (rg s) (hex_word (rh s)
  EmptyString))))))).

Definition bytes_of_string (s : string) : list N :=
  List.map N_of_ascii (list_ascii_of_string s).

Definition hexdigest (s : string) : string := hex_regs (digest (bytes_of_string s)).

End SHA256.

Local Open Scope string_scope.
Local Open Scope Z_scope.

(** [hash_token(token)]: the hexadecimal SHA-256 digest of the token. *)
Definition hash_token (token : string) : string := SHA256.hexdigest token.

(** ** Python floats *)

(** A [float] is an IEEE 754 binary64 number; the operations round to
    nearest, ties to even. *)
Module Float.

Definition t : Type := spec_float.
Definition prec : Z := 53.
Definition emax : Z := 1024.

(** The float nearest to an integer; an infinity when it is out of range. *)
Definition of_Z (n : Z) : t := binary_normalize prec emax n 0 false.

(** The conversion of an [int] operand of a float operation: [None] when
    Python raises [OverflowError] ("int too large to convert to float"). *)
Definition of_int (n : Z) : option t :=
  match of_Z n with
  | S754_infinity _ => None
  | x => Some x
  end.

(** [x + y] on floats; it never raises. *)
Definition add (x y : t) : t := SFadd prec emax x y.

(** [x > y] on floats; false when one of them is not a number. *)
Definition gt (x y : t) : Prop := SFltb y x = true.

#[global] Instance gt_dec x y : Decision (gt x y).
Proof. unfold gt. apply _. Defined.

End Float.

Arguments Float.of_Z : simpl never.
Arguments Float.of_int : simpl never.
Arguments Float.add : simpl never.

(** ** Data model *)

(** The pydantic request models. *)
Module Member.
Record t := mk { name : string; contact : string }.
End Member.

Module Session.
Record t := mk { title : string; description : string; members : list Member.t }.
End Session.

Module VotingSession.
Record t := mk { presenter_name : string; topic_title : string;
                   topic_description : string; duration_minutes : Z }.
End VotingSession.

(** The dictionary stored under [storage.sessions[session_id]]. *)
Module SessionData.
Record t := mk { id : string; title : string; description : string;
                   created_at : string; status : string }.
Definition set_status (s : string) (d : t) : t :=
  mk (id d) (title d) (description d) (created_at d) s.
End SessionData.

(** The dictionary stored under [storage.tokens[token]]; the key [voted_at]
    is absent until the token is redeemed. *)
Module TokenData.
Record t := mk { session_id : string; member_name : string; used : bool;
                   expires_at : Float.t; created_at : Float.t;
                   voted_at : option Float.t }.
Definition set_used (b : bool) (d : t) : t :=
  mk (session_id d) (member_name d) b (expires_at d) (created_at d) (voted_at d).
Definition set_voted_at (z : Float.t) (d : t) : t :=
  mk (session_id d) (member_name d) (used d) (expires_at d) (created_at d) (Some z).
End TokenData.

(** A record of the ledger [storage.votes[session_id]]. *)
Module VoteRecord.
Record t := mk { session_id : string; choice : string; timestamp : Float.t;
                   token_hash : string }.
End VoteRecord.

(** The counting dictionary with the three fixed keys "за" ([za], for),
    "против" ([protiv], against) and "воздержался" ([vozderzhalsya],
    abstain). *)
Module VotesCount.
Record t := mk { za : nat; protiv : nat; vozderzhalsya : nat }.
Definition zero : t := mk 0 0 0.
Definition total (c : t) : nat := (za c + protiv c + vozderzhalsya c)%nat.
End VotesCount.

(** The dictionary stored under [storage.active_voting[session_id]]; the key
    [results] is absent until the voting is ended. *)
Module VotingInfo.
Record t := mk { presenter_name : string; topic_title : string;
                   topic_description : string; start_time : Float.t;
                   end_time : Float.t; duration_minutes : Z; status : string;
                   results : option VotesCount.t }.
Definition set_status (s : string) (d : t) : t :=
  mk (presenter_name d) (topic_title d) (topic_description d) (start_time d)
       (end_time d) (duration_minutes d) s (results d).
Definition set_results (r : VotesCount.t) (d : t) : t :=
  mk (presenter_name d) (topic_title d) (topic_description d) (start_time d)
       (end_time d) (duration_minutes d) (status d) (Some r).
End VotingInfo.

(** [class InMemoryStorage]. *)
Record InMemoryStorage := mkStorage {
  sessions : gmap string SessionData.t;
  tokens : gmap string TokenData.t;
  votes : gmap string (list VoteRecord.t);
  members : gmap string (list Member.t);
  active_voting : gmap string VotingInfo.t }.

Definition empty_storage : InMemoryStorage := mkStorage ∅ ∅ ∅ ∅ ∅.

Definition set_sessions (f : gmap string SessionData.t → gmap string SessionData.t)
    (st : InMemoryStorage) : InMemoryStorage :=
  mkStorage (f (sessions st)) (tokens st) (votes st) (members st) (active_voting st).
Definition set_tokens (f : gmap string TokenData.t → gmap string TokenData.t)
    (st : InMemoryStorage) : InMemoryStorage :=
  mkStorage (sessions st) (f (tokens st)) (votes st) (members st) (active_voting st).
Definition set_votes (f : gmap string (list VoteRecord.t) → gmap string (list VoteRecord.t))
    (st : InMemoryStorage) : InMemoryStorage :=
  mkStorage (sessions st) (tokens st) (f (votes st)) (members st) (active_voting st).
Definition set_members (f : gmap string (list Member.t) → gmap string (list Member.t))
    (st : InMemoryStorage) : InMemoryStorage :=
  mkStorage (sessions st) (tokens st) (votes st) (f (members st)) (active_voting st).
Definition set_active_voting (f : gmap string VotingInfo.t → gmap string VotingInfo.t)
    (st : InMemoryStorage) : InMemoryStorage :=
  mkStorage (sessions st) (tokens st) (votes st) (members st) (f (active_voting st)).

(** The entry of the [tokens] list returned by [start_voting]. *)
Module IssuedToken.
Record t := mk { member : string; contact : string; token : string;
                   voting_url : string }.
End IssuedToken.

(** The JSON bodies returned by the handlers. *)
Inductive response :=
| CreateSessionResponse (session_id status : string)
| StartVotingResponse (status : string) (tokens : list IssuedToken.t)
    (voting_ends_at : Float.t)
| EndVotingResponse (status : string) (results : VotesCount.t)
| SubmitVoteResponse (status message : string).

(** The messages handed to [manager.broadcast_to_type]. *)
Inductive message :=
| voting_started_projector (session_id presenter_name topic_title topic_description : string)
    (end_time : Float.t) (duration_minutes : Z)
| voting_started_admin (session_id : string) (tokens_generated : nat)
| voting_ended (session_id : string) (results : VotesCount.t) (total_votes : nat)
| vote_received (session_id : string) (current_votes : VotesCount.t) (total_members : nat).

(** Exceptions: the [HTTPException]s raised by the handlers, the [KeyError]
    of a failed dictionary subscript, and the [OverflowError] of an [int]
    operand too large for a float operation. *)
Inductive exn :=
| HTTPException (status_code : Z) (detail : string)
| KeyError (key : string)
| OverflowError (detail : string).

Inductive outcome (A : Type) :=
| Return (a : A)
| Raise (e : exn).
Arguments Return {A} a.
Arguments Raise {A} e.

(** ** The environment and the world *)

(** What the process obtains from outside: the successive readings of
    [time.time()], the successive results of [secrets.token_urlsafe(32)] and
    of [str(uuid.uuid4())], and of [datetime.now().isoformat()]. *)
Record Env := mkEnv {
  env_time : nat → Float.t;
  env_token_urlsafe : nat → string;
  env_uuid4 : nat → string;
  env_now_isoformat : nat → string }.

(** The state of the process: the storage, how many values were drawn from
    each source of the environment, the messages broadcast so far (most
    recent last) and the auto-end timers created so far. *)
Record World := mkWorld {
  storage : InMemoryStorage;
  n_time : nat;
  n_token : nat;
  n_uuid : nat;
  n_now : nat;
  broadcasts : list (message * string);
  tasks : list (string * Z) }.

Definition initial_world : World := mkWorld empty_storage 0 0 0 0 [] [].

(** ** A state and exception monad *)

Definition M (A : Type) : Type := World → outcome A * World.

Definition ret {A} (a : A) : M A := λ w, (Return a, w).
Definition raise {A} (e : exn) : M A := λ w, (Raise e, w).
Definition bind {A B} (m : M A) (k : A → M B) : M B :=
  λ w, match m w with
       | (Return a, w') => k a w'
       | (Raise e, w') => (Raise e, w')
       end.

Notation "x <- m ;; k" := (bind m (λ x, k))
  (at level 100, m at next level, right associativity).
Notation "m ;;; k" := (bind m (λ _, k))
  (at level 100, right associativity).

Definition get_storage : M InMemoryStorage := λ w, (Return (storage w), w).
Definition update_storage (f : InMemoryStorage → InMemoryStorage) : M unit :=
  λ w, (Return tt, mkWorld (f (storage w)) (n_time w) (n_token w) (n_uuid w)
                           (n_now w) (broadcasts w) (tasks w)).

(** [d[key]] as an expression: [KeyError] when the key is absent. *)
Definition subscript {V} (d : gmap string V) (key : string) : M V :=
  match d !! key with
  | Some v => ret v
  | None => raise (KeyError key)
  end.

(** [for x in l: body(x)]. *)
Fixpoint for_each {A} (l : list A) (body : A → M unit) : M unit :=
  match l with
  | [] => ret tt
  | x :: l' => body x ;;; for_each l' body
  end.

(** The world after one more reading of the clock. *)
Definition tick (w : World) : World :=
  mkWorld (storage w) (S (n_time w)) (n_token w) (n_uuid w) (n_now w)
          (broadcasts w) (tasks w).

(** ** The engine *)

Section Engine.
Context (env : Env).

(** [time.time()]. *)
Definition time_time : M Float.t := λ w, (Return (env_time env (n_time w)), tick w).

(** [generate_token()], that is [secrets.token_urlsafe(32)]. *)
Definition generate_token : M string :=
  λ w, (Return (env_token_urlsafe env (n_token w)),
        mkWorld (storage w) (n_time w) (S (n_token w)) (n_uuid w) (n_now w)
                (broadcasts w) (tasks w)).

(** [generate_session_id()], that is [str(uuid.uuid4())]. *)
Definition generate_session_id : M string :=
  λ w, (Return (env_uuid4 env (n_uuid w)),
        mkWorld (storage w) (n_time w) (n_token w) (S (n_uuid w)) (n_now w)
                (broadcasts w) (tasks w)).

(** [datetime.now().isoformat()]. *)
Definition datetime_now_isoformat : M string :=
  λ w, (Return (env_now_isoformat env (n_now w)),
        mkWorld (storage w) (n_time w) (n_token w) (n_uuid w) (S (n_now w))
                (broadcasts w) (tasks w)).

(** [await manager.broadcast_to_type(message, connection_type)]: the message
    is handed to the connection manager; the storage is not touched. *)
Definition broadcast_to_type (msg : message) (connection_type : string) : M unit :=
  λ w, (Return tt,
        mkWorld (storage w) (n_time w) (n_token w) (n_uuid w) (n_now w)
                (broadcasts w ++ [(msg, connection_type)])%list (tasks w)).

(** [asyncio.create_task(auto_end_voting(session_id, duration_seconds))]. *)
Definition create_task (session_id : string) (duration_seconds : Z) : M unit :=
  λ w, (Return tt,
        mkWorld (storage w) (n_time w) (n_token w) (n_uuid w) (n_now w)
                (broadcasts w) (tasks w ++ [(session_id, duration_seconds)])%list).

(** [votes_count[choice] += 1] on the dictionary with the three fixed keys. *)
Definition increment (choice : string) (c : VotesCount.t) : M VotesCount.t :=
  if decide (choice = "за") then
    ret (VotesCount.mk (S (VotesCount.za c)) (VotesCount.protiv c) (VotesCount.vozderzhalsya c))
  else if decide (choice = "против") then
    ret (VotesCount.mk (VotesCount.za c) (S (VotesCount.protiv c)) (VotesCount.vozderzhalsya c))
  else if decide (choice = "воздержался") then
    ret (VotesCount.mk (VotesCount.za c) (VotesCount.protiv c) (S (VotesCount.vozderzhalsya c)))
  else raise (KeyError choice).

(** [for vote in ledger: votes_count[vote["choice"]] += 1]. *)
Fixpoint count_votes (ledger : list VoteRecord.t) (c : VotesCount.t) : M VotesCount.t :=
  match ledger with
  | [] => ret c
  | vote :: rest =>
      c' <- increment (VoteRecord.choice vote) c ;;
      count_votes rest c'
  end.

(** The loop over [storage.tokens.items()] in [end_voting]: the number of
    tokens of the session that are not used. *)
Definition is_unused_of (session_id : string) (item : string * TokenData.t) : bool :=
  bool_decide (TokenData.session_id item.2 = session_id) && negb (TokenData.used item.2).

Definition count_unused_tokens (session_id : string)
    (toks : gmap string TokenData.t) : nat :=
  foldl (λ unused_tokens item,
           if is_unused_of session_id item then S unused_tokens else unused_tokens)
        0%nat (map_to_list toks).

(** [POST /api/admin/create-session]. *)
Definition create_session (session : Session.t) : M response :=
  session_id <- generate_session_id ;;
  created_at <- datetime_now_isoformat ;;
  update_storage (set_sessions
    <[session_id := SessionData.mk session_id (Session.title session)
                      (Session.description session) created_at "created"]>) ;;;
  update_storage (set_members <[session_id := []]>) ;;;
  for_each (Session.members session) (λ member,
    st <- get_storage ;;
    l <- subscript (members st) session_id ;;
    update_storage (set_members
      <[session_id := (l ++ [Member.mk (Member.name member) (Member.contact member)])%list]>)) ;;;
  update_storage (set_votes <[session_id := []]>) ;;;
  ret (CreateSessionResponse session_id "success").

(** [x + n] for a float [x] and an [int] [n]: the [int] is converted to a
    float first, which raises when it is too large. *)
Definition float_add_int (x : Float.t) (n : Z) : M Float.t :=
  match Float.of_int n with
  | Some y => ret (Float.add x y)
  | None => raise (OverflowError "int too large to convert to float")
  end.

(** The body of the loop over the members in [start_voting]. *)
Definition issue_token (session_id : string) (voting : VotingSession.t)
    (member : Member.t) : M IssuedToken.t :=
  token <- generate_token ;;
  t_expiry <- time_time ;;
  t_window <- float_add_int t_expiry (VotingSession.duration_minutes voting * 60) ;;
  expires_at <- float_add_int t_window 300 ;;
  t_created <- time_time ;;
  update_storage (set_tokens
    <[token := TokenData.mk session_id (Member.name member) false
                 expires_at t_created None]>) ;;;
  ret (IssuedToken.mk (Member.name member) (Member.contact member) token
         ("/vote?token=" +:+ token)).

Fixpoint issue_tokens (session_id : string) (voting : VotingSession.t)
    (ms : list Member.t) (acc : list IssuedToken.t) : M (list IssuedToken.t) :=
  match ms with
  | [] => ret acc
  | member :: rest =>
      issued <- issue_token session_id voting member ;;
      issue_tokens session_id voting rest (acc ++ [issued])%list
  end.

(** [POST /api/admin/start-voting/{session_id}]. *)
Definition start_voting (session_id : string) (voting : VotingSession.t) : M response :=
  st <- get_storage ;;
  if decide (sessions st !! session_id = None) then
    raise (HTTPException 404 "Сессия не найдена")
  else
    ms <- subscript (members st) session_id ;;
    toks <- issue_tokens session_id voting ms [] ;;
    t_end <- time_time ;;
    end_time <- float_add_int t_end (VotingSession.duration_minutes voting * 60) ;;
    t_start <- time_time ;;
    update_storage (set_active_voting
      <[session_id := VotingInfo.mk (VotingSession.presenter_name voting)
                        (VotingSession.topic_title voting)
                        (VotingSession.topic_description voting)
                        t_start end_time (VotingSession.duration_minutes voting)
                        "active" None]>) ;;;
    st <- get_storage ;;
    sd <- subscript (sessions st) session_id ;;
    update_storage (set_sessions <[session_id := SessionData.set_status "voting" sd]>) ;;;
    broadcast_to_type
      (voting_started_projector session_id (VotingSession.presenter_name voting)
         (VotingSession.topic_title voting) (VotingSession.topic_description voting)
         end_time (VotingSession.duration_minutes voting)) "projector" ;;;
    broadcast_to_type (voting_started_admin session_id (length toks)) "admin" ;;;
    create_task session_id (VotingSession.duration_minutes voting * 60) ;;;
    ret (StartVotingResponse "success" toks end_time).

(** [POST /api/admin/end-voting/{session_id}]. *)
Definition end_voting (session_id : string) : M response :=
  st <- get_storage ;;
  if decide (active_voting st !! session_id = None) then
    raise (HTTPException 404 "Активное голосование не найдено")
  else
    counted <- count_votes (default [] (votes st !! session_id)) VotesCount.zero ;;
    let unused_tokens := count_unused_tokens session_id (tokens st) in
    let votes_count :=
      VotesCount.mk (VotesCount.za counted) (VotesCount.protiv counted)
                    (VotesCount.vozderzhalsya counted + unused_tokens) in
    vi <- subscript (active_voting st) session_id ;;
    update_storage (set_active_voting
      <[session_id := VotingInfo.set_status "completed" vi]>) ;;;
    st <- get_storage ;;
    vi <- subscript (active_voting st) session_id ;;
    update_storage (set_active_voting
      <[session_id := VotingInfo.set_results votes_count vi]>) ;;;
    st <- get_storage ;;
    sd <- subscript (sessions st) session_id ;;
    update_storage (set_sessions <[session_id := SessionData.set_status "completed" sd]>) ;;;
    let result_message :=
      voting_ended session_id votes_count (VotesCount.total votes_count) in
    broadcast_to_type result_message "projector" ;;;
    broadcast_to_type result_message "admin" ;;;
    ret (EndVotingResponse "success" votes_count).

(** [auto_end_voting(session_id, duration_seconds)] once its sleep is over. *)
Definition auto_end_voting (session_id : string) : M unit :=
  st <- get_storage ;;
  match active_voting st !! session_id with
  | Some vi =>
      if decide (VotingInfo.status vi = "active") then
        end_voting session_id ;;; ret tt
      else ret tt
  | None => ret tt
  end.

(** [POST /api/vote]. *)
Definition submit_vote (token choice : string) : M response :=
  st <- get_storage ;;
  if decide (tokens st !! token = None) then
    raise (HTTPException 404 "Недействительный токен")
  else
    token_data <- subscript (tokens st) token ;;
    if TokenData.used token_data then
      raise (HTTPException 400 "Токен уже использован")
    else
      now <- time_time ;;
      if decide (Float.gt now (TokenData.expires_at token_data)) then
        raise (HTTPException 400 "Токен истек")
      else
        let session_id := TokenData.session_id token_data in
        if decide (active_voting st !! session_id = None
                   ∨ VotingInfo.status <$> active_voting st !! session_id ≠ Some "active") then
          raise (HTTPException 400 "Голосование не активно")
        else if decide (choice ∉ ["за"; "против"; "воздержался"]) then
          raise (HTTPException 400 "Недопустимый выбор")
        else
          timestamp <- time_time ;;
          let vote_record :=
            VoteRecord.mk session_id choice timestamp (hash_token token) in
          (if decide (votes st !! session_id = None)
           then update_storage (set_votes <[session_id := []]>)
           else ret tt) ;;;
          st <- get_storage ;;
          ledger <- subscript (votes st) session_id ;;
          update_storage (set_votes <[session_id := (ledger ++ [vote_record])%list]>) ;;;
          st <- get_storage ;;
          td <- subscript (tokens st) token ;;
          update_storage (set_tokens <[token := TokenData.set_used true td]>) ;;;
          voted_at <- time_time ;;
          st <- get_storage ;;
          td <- subscript (tokens st) token ;;
          update_storage (set_tokens <[token := TokenData.set_voted_at voted_at td]>) ;;;
          st <- get_storage ;;
          ledger <- subscript (votes st) session_id ;;
          current_votes <- count_votes ledger VotesCount.zero ;;
          broadcast_to_type
            (vote_received session_id current_votes
               (length (default [] (members st !! session_id)))) "admin" ;;;
          ret (SubmitVoteResponse "success" "Голос принят").

(** ** Runs of the engine *)

Inductive call :=
| CreateSession (session : Session.t)
| StartVoting (session_id : string) (voting : VotingSession.t)
| EndVoting (session_id : string)
| AutoEndVoting (session_id : string)
| SubmitVote (token choice : string).

(** A request handler returns its response; the timer task returns nothing. *)
Definition dispatch (c : call) : M (option response) :=
  match c with
  | CreateSession session => r <- create_session session ;; ret (Some r)
  | StartVoting session_id voting => r <- start_voting session_id voting ;; ret (Some r)
  | EndVoting session_id => r <- end_voting session_id ;; ret (Some r)
  | AutoEndVoting session_id => auto_end_voting session_id ;;; ret None
  | SubmitVote token choice => r <- submit_vote token choice ;; ret (Some r)
  end.

End Engine.

(** ** Vocabulary of the properties *)

(** The three choices accepted by [submit_vote]. *)
Definition choices : list string := ["за"; "против"; "воздержался"].

(** The number of records of a ledger with a given choice. *)
Definition count_choice (choice : string) (ledger : list VoteRecord.t) : nat :=
  length (filter (λ vote, VoteRecord.choice vote = choice) ledger).

(** The counts of a ledger, by choice. *)
Definition tally (ledger : list VoteRecord.t) : VotesCount.t :=
  VotesCount.mk (count_choice "за" ledger) (count_choice "против" ledger)
                (count_choice "воздержался" ledger).

(** Componentwise sum of two counts. *)
Definition add_counts (c d : VotesCount.t) : VotesCount.t :=
  VotesCount.mk (VotesCount.za c + VotesCount.za d)
                (VotesCount.protiv c + VotesCount.protiv d)
                (VotesCount.vozderzhalsya c + VotesCount.vozderzhalsya d).

(** The ledger of a session, as read by [storage.votes.get(session_id, [])]. *)
Definition ledger_of (st : InMemoryStorage) (session_id : string) : list VoteRecord.t :=
  default [] (votes st !! session_id).

(** The roster of a session, as read by [storage.members.get(session_id, [])]. *)
Definition roster_of (st : InMemoryStorage) (session_id : string) : list Member.t :=
  default [] (members st !! session_id).

(** The tokens of a session whose [used] flag is [u]. *)
Definition session_tokens (session_id : string) (u : bool)
    (toks : gmap string TokenData.t) : list string :=
  (filter (λ item : string * TokenData.t,
             TokenData.session_id item.2 = session_id ∧ TokenData.used item.2 = u)
          (map_to_list toks)).*1.

(** The number of tokens of a session. *)
Definition total_tokens (st : InMemoryStorage) (sid : string) : nat :=
  (length (session_tokens sid true (tokens st))
   + length (session_tokens sid false (tokens st)))%nat.

(** The window of a session is active. *)
Definition window_active (st : InMemoryStorage) (session_id : string) : Prop :=
  VotingInfo.status <$> active_voting st !! session_id = Some "active".

#[global] Instance window_active_dec st sid : Decision (window_active st sid).
Proof. unfold window_active. apply _. Defined.

(** The window of a session has been closed. *)
Definition window_completed (st : InMemoryStorage) (session_id : string) : Prop :=
  VotingInfo.status <$> active_voting st !! session_id = Some "completed".

(** The typed errors of the specification, as raised by the handlers. *)
Definition NotFound_token : exn := HTTPException 404 "Недействительный токен".
Definition AlreadyUsed : exn := HTTPException 400 "Токен уже использован".
Definition Expired : exn := HTTPException 400 "Токен истек".
Definition InvalidState_vote : exn := HTTPException 400 "Голосование не активно".
Definition InvalidChoice : exn := HTTPException 400 "Недопустимый выбор".
Definition NotFound_session : exn := HTTPException 404 "Сессия не найдена".
Definition NotFound_voting : exn := HTTPException 404 "Активное голосование не найдено".

(** The error of [start_voting] when [duration_minutes * 60] is too large to
    be added to a reading of the clock. *)
Definition Overflow : exn := OverflowError "int too large to convert to float".

(** The storage after the token [token], with data [td], was redeemed for
    [choice]: one record appended to the ledger of its session, and the token
    marked as used. *)
Definition vote_storage (st : InMemoryStorage) (token : string) (td : TokenData.t)
    (choice : string) (timestamp voted_at : Float.t) : InMemoryStorage :=
  mkStorage (sessions st)
    (<[token := TokenData.mk (TokenData.session_id td) (TokenData.member_name td) true
                  (TokenData.expires_at td) (TokenData.created_at td) (Some voted_at)]>
       (tokens st))
    (<[TokenData.session_id td :=
         (ledger_of st (TokenData.session_id td)
          ++ [VoteRecord.mk (TokenData.session_id td) choice timestamp (hash_token token)])%list]>
       (votes st))
    (members st) (active_voting st).

(** The results computed by [end_voting]: the counts of the ledger, and on
    the abstain component the unused tokens of the session as well. *)
Definition final_results (st : InMemoryStorage) (session_id : string) : VotesCount.t :=
  VotesCount.mk (count_choice "за" (ledger_of st session_id))
    (count_choice "против" (ledger_of st session_id))
    (count_choice "воздержался" (ledger_of st session_id)
     + length (session_tokens session_id false (tokens st))).

(** The storage after [end_voting] closed the window [vi] of the session
    with data [sd]. *)
Definition closed_storage (st : InMemoryStorage) (session_id : string)
    (sd : SessionData.t) (vi : VotingInfo.t) (results : VotesCount.t) : InMemoryStorage :=
  mkStorage (<[session_id := SessionData.set_status "completed" sd]> (sessions st))
    (tokens st) (votes st) (members st)
    (<[session_id := VotingInfo.set_results results (VotingInfo.set_status "completed" vi)]>
       (active_voting st)).

(** ** Invariants of the storage *)

(** What holds of the storage in every world the engine reaches: the
    dictionaries agree on the sessions they know, every token belongs to a
    session, the ledger of a session holds one record per used token of the
    session, with a valid choice and the hash of that token, and the results
    recorded for a closed window are those of the current ledger and tokens. *)
Record storage_inv (st : InMemoryStorage) : Prop := mk_storage_inv {
  inv_members : ∀ sid, is_Some (sessions st !! sid) ↔ is_Some (members st !! sid);
  inv_votes : ∀ sid, is_Some (votes st !! sid) → is_Some (sessions st !! sid);
  inv_active : ∀ sid, is_Some (active_voting st !! sid) → is_Some (sessions st !! sid);
  inv_session_id : ∀ sid, is_Some (sessions st !! sid) → String.length sid = 36%nat;
  inv_token : ∀ t td, tokens st !! t = Some td →
    String.length t = 43%nat ∧ is_Some (sessions st !! TokenData.session_id td);
  inv_ledger : ∀ sid v, v ∈ ledger_of st sid →
    VoteRecord.session_id v = sid ∧ VoteRecord.choice v ∈ choices;
  inv_hashes : ∀ sid,
    VoteRecord.token_hash <$> ledger_of st sid
    ≡ₚ hash_token <$> session_tokens sid true (tokens st);
  inv_results : ∀ sid vi, active_voting st !! sid = Some vi →
    VotingInfo.status vi = "active"
    ∨ (VotingInfo.status vi = "completed"
       ∧ VotingInfo.results vi = Some (final_results st sid)) }.

Section Runs.
Context (env : Env).

(** The [n] tokens the environment delivers from the k-th one on, and the
    next [n] tokens it will deliver in the world [w]. *)
Definition drawn_from (k n : nat) : list string :=
  (λ i, env_token_urlsafe env (k + i)) <$> seq 0 n.
Definition drawn_tokens (w : World) (n : nat) : list string :=
  drawn_from (n_token w) n.

(** What is assumed of the generators when a call draws from them:
    [uuid.uuid4()] gives a 36-character identifier that names no session
    yet, and [secrets.token_urlsafe(32)] gives 43-character tokens that are
    pairwise distinct and not in the token store yet. *)
Definition env_ok (c : call) (w : World) : Prop :=
  match c with
  | CreateSession _ =>
      String.length (env_uuid4 env (n_uuid w)) = 36%nat
      ∧ sessions (storage w) !! env_uuid4 env (n_uuid w) = None
  | StartVoting session_id _ =>
      let new := drawn_tokens w (length (roster_of (storage w) session_id)) in
      NoDup new
      ∧ Forall (λ t, String.length t = 43%nat ∧ tokens (storage w) !! t = None) new
  | _ => True
  end.

Definition event : Type := call * outcome (option response).

(** [steps w h w']: the calls of the history [h], handled one after the
    other from the world [w], give the recorded outcomes and lead to [w'].
    A handler reads and writes the storage without suspending: its only
    [await]s are the broadcasts, after its last access to the storage.  A run
    of the server is therefore a sequence of calls, the firing of a timer
    created by [start_voting] being one of them ([AutoEndVoting]). *)
Inductive steps : World → list event → World → Prop :=
| steps_refl w : steps w [] w
| steps_snoc w h w' c :
    steps w h w' → env_ok c w' →
    steps w (h ++ [(c, (dispatch env c w').1)]) (dispatch env c w').2.

Definition reaches (h : list event) (w : World) : Prop := steps initial_world h w.

End Runs.

(** ** The effect of a call on the storage *)

(** [effect st c o st']: handling the call [c] in the storage [st] may give
    the outcome [o] and the storage [st'].  A call that raises leaves the
    storage as it is; the timer task does nothing unless the window is active. *)
Inductive effect (st : InMemoryStorage)
    : call → outcome (option response) → InMemoryStorage → Prop :=
| effect_raise c e :
    effect st c (Raise e) st
| effect_create session sid created_at :
    String.length sid = 36%nat →
    sessions st !! sid = None →
    effect st (CreateSession session)
      (Return (Some (CreateSessionResponse sid "success")))
      (mkStorage
         (<[sid := SessionData.mk sid (Session.title session)
                     (Session.description session) created_at "created"]> (sessions st))
         (tokens st) (<[sid := []]> (votes st))
         (<[sid := Session.members session]> (members st)) (active_voting st))
| effect_start sid voting sd vi drawn toks end_time st' :
    sessions st !! sid = Some sd →
    length drawn = length (roster_of st sid) →
    IssuedToken.token <$> toks = drawn →
    NoDup drawn →
    Forall (λ t, String.length t = 43%nat ∧ tokens st !! t = None) drawn →
    sessions st' = <[sid := SessionData.set_status "voting" sd]> (sessions st) →
    votes st' = votes st →
    members st' = members st →
    active_voting st' = <[sid := vi]> (active_voting st) →
    VotingInfo.status vi = "active" →
    (∀ t, t ∉ drawn → tokens st' !! t = tokens st !! t) →
    (∀ t, t ∈ drawn → ∃ td, tokens st' !! t = Some td
                            ∧ TokenData.session_id td = sid ∧ TokenData.used td = false) →
    (∀ sid' u, session_tokens sid' u (tokens st') ≡ₚ
       (if decide (sid = sid' ∧ false = u) then drawn else [])
       ++ session_tokens sid' u (tokens st)) →
    effect st (StartVoting sid voting)
      (Return (Some (StartVotingResponse "success" toks end_time))) st'
| effect_end sid sd vi :
    sessions st !! sid = Some sd →
    active_voting st !! sid = Some vi →
    effect st (EndVoting sid)
      (Return (Some (EndVotingResponse "success" (final_results st sid))))
      (closed_storage st sid sd vi (final_results st sid))
| effect_auto_end sid sd vi :
    sessions st !! sid = Some sd →
    active_voting st !! sid = Some vi →
    VotingInfo.status vi = "active" →
    effect st (AutoEndVoting sid) (Return None)
      (closed_storage st sid sd vi (final_results st sid))
| effect_auto_skip sid :
    ¬ window_active st sid →
    effect st (AutoEndVoting sid) (Return None) st
| effect_vote token choice td timestamp voted_at :
    tokens st !! token = Some td →
    TokenData.used td = false →
    window_active st (TokenData.session_id td) →
    choice ∈ choices →
    effect st (SubmitVote token choice)
      (Return (Some (SubmitVoteResponse "success" "Голос принят")))
      (vote_storage st token td choice timestamp voted_at).

(** A successful [start_voting] on the session, in a history. *)
Definition opens (session_id : string) (e : event) : bool :=
  match e with
  | (StartVoting sid _, Return _) => bool_decide (sid = session_id)
  | _ => false
  end.

(** The number of voting windows opened on a session in a history. *)
Definition windows_opened (session_id : string) (h : list event) : nat :=
  length (filter (λ e, opens session_id e = true) h).

(** ** A concrete environment for the examples *)

(** Tokens of 43 characters and session identifiers of 36 characters, the
    k-th ones ending with the k-th letter; the clock advances by one second
    at every reading, from [t0]. *)
Definition example_token (k : nat) : string :=
  "AAAAAAAAAAAAAAAAAAAAAAAAAAAAAAAAAAAAAAAAAA" +:+ String (ascii_of_nat (65 + k)) EmptyString.
Definition example_uuid (k : nat) : string :=
  "00000000-0000-4000-8000-00000000000" +:+ String (ascii_of_nat (97 + k)) EmptyString.
Definition example_env (t0 : Z) : Env :=
  mkEnv (λ k, Float.of_Z (t0 + Z.of_nat k)) example_token example_uuid
    (λ _, "2024-01-01T00:00:00").

(** Running a list of calls, keeping the outcomes. *)
Fixpoint run (env : Env) (cs : list call) (w : World)
    : list (outcome (option response)) * World :=
  match cs with
  | [] => ([], w)
  | c :: cs' =>
      let (o, w') := dispatch env c w in
      let (os, w'') := run env cs' w' in
      (o :: os, w'')
  end.

Definition alice : Member.t := Member.mk "alice" "alice@example.org".
Definition bob : Member.t := Member.mk "bob" "bob@example.org".
Definition carol : Member.t := Member.mk "carol" "carol@example.org".
Definition example_session : Session.t :=
  Session.mk "Board" "Quarterly meeting" [alice; bob; carol].
Definition example_voting : VotingSession.t :=
  VotingSession.mk "dave" "Budget" "Approve the budget" 1.

(** The environment assumptions along a run, and the history of the run. *)
Fixpoint run_ok (env : Env) (cs : list call) (w : World) : Prop :=
  match cs with
  | [] => True
  | c :: cs' => env_ok env c w ∧ run_ok env cs' (dispatch env c w).2
  end.

Fixpoint history (env : Env) (cs : list call) (w : World) : list event :=
  match cs with
  | [] => []
  | c :: cs' => (c, (dispatch env c w).1) :: history env cs' (dispatch env c w).2
  end.

(** The example session of three members, its identifier and its tokens, and
    the worlds reached when the window is opened, when alice and bob have
    voted for, and when the window is then closed. *)
Definition example_sid : string := example_uuid 0.
Definition alice_token : string := example_token 0.
Definition bob_token : string := example_token 1.
Definition carol_token : string := example_token 2.

Definition opening_calls : list call :=
  [CreateSession example_session; StartVoting example_sid example_voting].
Definition voting_calls : list call :=
  opening_calls ++ [SubmitVote alice_token "за"; SubmitVote bob_token "за"].
Definition closing_calls : list call := voting_calls ++ [EndVoting example_sid].

Definition t0 : Z := 1700000000.
Definition opened_world : World := (run (example_env t0) opening_calls initial_world).2.
Definition voted_world : World := (run (example_env t0) voting_calls initial_world).2.
Definition closed_world : World := (run (example_env t0) closing_calls initial_world).2.

(** A session without members. *)
Definition empty_session : Session.t := Session.mk "Board" "Nobody invited" [].

#[global] Instance env_ok_dec env c w : Decision (env_ok env c w).
Proof. destruct c; cbn; apply _. Defined.

#[global] Instance run_ok_dec env cs : ∀ w, Decision (run_ok env cs w).
Proof. induction cs as [|c cs IH]; intros w; cbn; apply _. Defined.

(** ** The read-only handlers *)

(** The page returned by [get_vote_page].  The HTML text is fixed by the
    template; a page is given by its template and the values interpolated
    into it: the "already voted or voting finished" page, the "voting not
    active" page, and the voting form with the topic, the presenter, the
    description, the end time of the window and the token. *)
Inductive html_page :=
| already_voted_page
| not_active_page
| voting_form_page (topic_title presenter_name topic_description : string)
    (end_time : Float.t) (token : string).

(** [GET /api/vote-page]. *)
Definition get_vote_page (token : string) : M html_page :=
  st <- get_storage ;;
  if decide (tokens st !! token = None) then
    raise (HTTPException 404 "Недействительный токен")
  else
    token_data <- subscript (tokens st) token ;;
    if TokenData.used token_data then ret already_voted_page
    else
      let session_id := TokenData.session_id token_data in
      match active_voting st !! session_id with
      | None => ret not_active_page
      | Some voting_info =>
          if decide (VotingInfo.status voting_info ≠ "active") then ret not_active_page
          else ret (voting_form_page (VotingInfo.topic_title voting_info)
                      (VotingInfo.presenter_name voting_info)
                      (VotingInfo.topic_description voting_info)
                      (VotingInfo.end_time voting_info) token)
      end.

(** [GET /vote]. *)
Definition vote_page (token : string) : M html_page := get_vote_page token.

(** The body returned by [get_session_status]; [voting] is [None] for the
    empty dictionary given when the session has no window. *)
Module SessionStatus.
Record t := mk { session : SessionData.t; voting : option VotingInfo.t;
                 current_votes : VotesCount.t; total_members : nat }.
End SessionStatus.

(** [GET /api/sessions/{session_id}/status]. *)
Definition get_session_status (session_id : string) : M SessionStatus.t :=
  st <- get_storage ;;
  if decide (sessions st !! session_id = None) then
    raise (HTTPException 404 "Сессия не найдена")
  else
    session_data <- subscript (sessions st) session_id ;;
    let voting_data := active_voting st !! session_id in
    current_votes <- count_votes (default [] (votes st !! session_id)) VotesCount.zero ;;
    ret (SessionStatus.mk session_data voting_data current_votes
           (length (default [] (members st !! session_id)))).

(** ** The connection manager *)

(** [class ConnectionManager].  A WebSocket is named by a number.  Of the
    sockets, the model keeps which ones are closed, so that sending on them
    raises, and what was delivered to each one, in order.  The message handed
    to [send_text] is kept as it is, before [json.dumps].

    [connect] (after its [accept]) and [disconnect] change a list at once.
    [broadcast_to_type] does not: it suspends at every
    [await connection.send_text(...)], and other coroutines may connect or
    disconnect sockets meanwhile, which changes the very list its loop walks
    through.  A broadcast is therefore a task that advances turn by turn
    ([start], [step]), and the operations of other coroutines may take place
    between two turns. *)
Module ConnectionManager.

Record Sockets := mkSockets {
  closed : gset nat;
  delivered : gmap nat (list message) }.

(** [self.active_connections]. *)
Definition t : Type := gmap string (list nat).

(** [ConnectionManager()]. *)
Definition init : t := <["admin" := []]> (<["projector" := []]> ∅).

(** [await connection.send_text(json.dumps(message))]: [None] when it raises. *)
Definition send_text (connection : nat) (msg : message) (net : Sockets) : option Sockets :=
  if decide (connection ∈ closed net) then None
  else Some (mkSockets (closed net)
               (<[connection := (default [] (delivered net !! connection) ++ [msg])%list]>
                  (delivered net))).

(** [connect]: after [websocket.accept()], the socket is appended. *)
Definition connect (websocket : nat) (connection_type : string) (m : t) : exn + t :=
  match m !! connection_type with
  | Some l => inr (<[connection_type := (l ++ [websocket])%list]> m)
  | None => inl (KeyError connection_type)
  end.

(** [list.remove(x)], for an [x] that is in the list: the first occurrence
    is removed. *)
Fixpoint remove (x : nat) (l : list nat) : list nat :=
  match l with
  | [] => []
  | y :: l' => if decide (y = x) then l' else y :: remove x l'
  end.

(** [disconnect]. *)
Definition disconnect (websocket : nat) (connection_type : string) (m : t) : exn + t :=
  match m !! connection_type with
  | Some l =>
      if decide (websocket ∈ l) then inr (<[connection_type := remove websocket l]> m)
      else inr m
  | None => inl (KeyError connection_type)
  end.

(** What a socket has received so far. *)
Definition received (net : Sockets) (connection : nat) : list message :=
  default [] (delivered net !! connection).

(** The number of occurrences of a socket in a list of connections. *)
Definition occurrences (connection : nat) (l : list nat) : nat :=
  length (filter (λ c, c = connection) l).

(** A broadcast in progress.  The [for] statement holds the list object of
    the connection type and an index into it; the dictionary entry of a type
    is never reassigned nor deleted, so that the list object is the one found
    under [task_type].  [task_index] is the position of the connection to
    take next and [task_disconnected] the local list [disconnected]. *)
Record Task := mkTask {
  task_msg : message;
  task_type : string;
  task_index : nat;
  task_disconnected : list nat }.

(** Entering [broadcast_to_type]: [disconnected = []], and the list of the
    connection type is looked up ([KeyError] for an unknown type). *)
Definition start (msg : message) (connection_type : string) (m : t) : exn + Task :=
  match m !! connection_type with
  | Some _ => inr (mkTask msg connection_type 0 [])
  | None => inl (KeyError connection_type)
  end.

(** The removing loop of [broadcast_to_type]. *)
Fixpoint remove_disconnected (disconnected : list nat) (l : list nat) : list nat :=
  match disconnected with
  | [] => l
  | conn :: rest =>
      remove_disconnected rest (if decide (conn ∈ l) then remove conn l else l)
  end.

(** One turn of the loop, up to the return of its [await]: the connection at
    the index of the list as it is now, if there is one, is sent the message,
    and the socket is recorded when [send_text] raises (the bare [except]
    catches every exception).  When the index is past the end of the list,
    the loop is over: the removing loop runs, without suspending, and
    [broadcast_to_type] returns ([None]). *)
Definition step (b : Task) (s : t * Sockets) : option Task * (t * Sockets) :=
  let l := default [] (s.1 !! task_type b) in
  match l !! task_index b with
  | Some connection =>
      match send_text connection (task_msg b) s.2 with
      | Some net' =>
          (Some (mkTask (task_msg b) (task_type b) (S (task_index b))
                   (task_disconnected b)), (s.1, net'))
      | None =>
          (Some (mkTask (task_msg b) (task_type b) (S (task_index b))
                   (task_disconnected b ++ [connection])%list), s)
      end
  | None =>
      (None, (<[task_type b := remove_disconnected (task_disconnected b) l]> s.1, s.2))
  end.

(** The turns of a broadcast one after the other, with nothing in between;
    [n] bounds the number of turns. *)
Fixpoint run_alone (n : nat) (b : Task) (s : t * Sockets) : option (t * Sockets) :=
  match n with
  | O => None
  | S n' =>
      match step b s with
      | (Some b', s') => run_alone n' b' s'
      | (None, s') => Some s'
      end
  end.

(** The sending loop over a list that does not change meanwhile: the sockets
    on which [send_text] raises are collected in [disconnected]. *)
Fixpoint send_all (connections : list nat) (msg : message) (net : Sockets)
    (disconnected : list nat) : Sockets * list nat :=
  match connections with
  | [] => (net, disconnected)
  | connection :: rest =>
      match send_text connection msg net with
      | Some net' => send_all rest msg net' disconnected
      | None => send_all rest msg net (disconnected ++ [connection])%list
      end
  end.

(** What a broadcast comes to when no other coroutine touches the manager or
    the sockets during its awaits: the sending loop over the list, then the
    removing loop.  This is not the general behaviour of the method, which
    [start] and [step] give; it is the result of [start] followed by the
    turns of the loop without interruption ([run_alone]). *)
Definition broadcast_alone (msg : message) (connection_type : string)
    (m : t) (net : Sockets) : exn + (t * Sockets) :=
  match m !! connection_type with
  | Some l =>
      let (net', disconnected) := send_all l msg net [] in
      inr (<[connection_type := remove_disconnected disconnected l]> m, net')
  | None => inl (KeyError connection_type)
  end.

(** The operations on the manager and on the sockets: [connect],
    [disconnect], a broadcast that is not interrupted, one turn of a
    broadcast in progress, whatever its state, and the closing of a socket by
    its peer. *)
Inductive op :=
| Connect (websocket : nat) (connection_type : string)
| Disconnect (websocket : nat) (connection_type : string)
| Broadcast (msg : message) (connection_type : string)
| Turn (b : Task)
| Close (websocket : nat).

Definition apply (o : op) (s : t * Sockets) : exn + (t * Sockets) :=
  match o with
  | Connect ws ct =>
      match connect ws ct s.1 with inr m => inr (m, s.2) | inl e => inl e end
  | Disconnect ws ct =>
      match disconnect ws ct s.1 with inr m => inr (m, s.2) | inl e => inl e end
  | Broadcast msg ct => broadcast_alone msg ct s.1 s.2
  | Turn b => inr (step b s).2
  | Close ws => inr (s.1, mkSockets ({[ws]} ∪ closed s.2) (delivered s.2))
  end.

(** The states reached from the initial manager by operations that return,
    in any order: the turns of any number of broadcasts in progress may
    alternate with one another and with the other operations. *)
Inductive reachable : t * Sockets → Prop :=
| reachable_init net : reachable (init, net)
| reachable_apply o s s' : reachable s → apply o s = inr s' → reachable s'.

(** The two endpoints [websocket_admin] and [websocket_projector] connect the
    socket they are given, which is a new one, and disconnect it when the
    peer goes away: an operation as the endpoints issue it connects only a
    socket that is in no list yet. *)
Definition by_endpoint (o : op) (s : t * Sockets) : Prop :=
  match o with
  | Connect ws _ => map_Forall (λ _ l, ws ∉ l) s.1
  | _ => True
  end.

(** The states reached from the initial manager by such operations. *)
Inductive served : t * Sockets → Prop :=
| served_init net : served (init, net)
| served_apply o s s' : served s → by_endpoint o s → apply o s = inr s' → served s'.

End ConnectionManager.

(** The lowercase hexadecimal digits. *)
Definition is_hex_digit (a : ascii) : Prop :=
  a ∈ list_ascii_of_string "0123456789abcdef".

(** The rows returned by [start_voting] for a roster, when the environment
    delivers its tokens from the k-th one on: one row per member, in the
    order of the roster. *)
Definition issued_rows (env : Env) (k : nat) (ms : list Member.t) : list IssuedToken.t :=
  imap (λ i member,
          IssuedToken.mk (Member.name member) (Member.contact member)
            (env_token_urlsafe env (k + i))
            ("/vote?token=" +:+ env_token_urlsafe env (k + i))) ms.

(** An example for the manager: three admin consoles, the second of which
    has closed its socket, and the result of a broadcast to them. *)
Definition example_manager : ConnectionManager.t :=
  <["admin" := [1; 2; 3]%nat]> ConnectionManager.init.
Definition example_sockets : ConnectionManager.Sockets :=
  ConnectionManager.mkSockets {[2%nat]} ∅.
Definition example_broadcast : ConnectionManager.t * ConnectionManager.Sockets :=
  match ConnectionManager.broadcast_alone (voting_started_admin "s" 3) "admin"
          example_manager example_sockets with
  | inr r => r
  | inl _ => (example_manager, example_sockets)
  end.

(** Sockets that are all open and have received nothing. *)
Definition open_sockets : ConnectionManager.Sockets := ConnectionManager.mkSockets ∅ ∅.

(** The session a call works on: the one it creates, the one it names, or
    the one of the token it redeems ([None] for a token that is not in the
    store). *)
Definition target_session (env : Env) (c : call) (w : World) : option string :=
  match c with
  | CreateSession _ => Some (env_uuid4 env (n_uuid w))
  | StartVoting session_id _ | EndVoting session_id | AutoEndVoting session_id =>
      Some session_id
  | SubmitVote token _ => TokenData.session_id <$> tokens (storage w) !! token
  end.

(** The record of a token after it was redeemed at the time [voted_at]. *)
Definition redeemed (td : TokenData.t) (voted_at : Float.t) : TokenData.t :=
  TokenData.mk (TokenData.session_id td) (TokenData.member_name td) true
    (TokenData.expires_at td) (TokenData.created_at td) (Some voted_at).

(** * Properties *)

(** ** SHA-256 test vectors *)

Example sha256_K_first_last :
  nth 0 SHA256.K 0%N = 0x428a2f98%N /\ nth 63 SHA256.K 0%N = 0xc67178f2%N.
Proof. split; reflexivity. Qed.

Example sha256_empty :
  SHA256.hexdigest EmptyString =
  "e3b0c44298fc1c149afbf4c8996fb92427ae41e4649b934ca495991b7852b855"%string.
Proof. vm_compute. reflexivity. Qed.

Example sha256_abc :
  SHA256.hexdigest "abc" =
  "ba7816bf8f01cfea414140de5dae2223b00361a396177a9cb410ff61f20015ad"%string.
Proof. vm_compute. reflexivity. Qed.

Example sha256_one_full_block :
  SHA256.hexdigest "AAAAAAAAAAAAAAAAAAAAAAAAAAAAAAAAAAAAAAAAAAAAAAAAAAAAAAAAAAAAAAAA" =
  "d53eda7a637c99cc7fb566d96e9fa109bf15c478410a3f5eb4d4c4e26cd081f6"%string.
Proof. vm_compute. reflexivity. Qed.

Example sha256_example_token :
  hash_token (example_token 0) =
  "0f007385b6f9d4b7eeb2748605afe1a984a0a3bfa3f014d09e2a784ce9e5cd1a"%string.
Proof. vm_compute. reflexivity. Qed.

Example sha256_two_blocks :
  SHA256.hexdigest "abcdbcdecdefdefgefghfghighijhijkijkljklmklmnlmnomnopnopq" =
  "248d6a61d20638b8e5c026930c3e6039a33ce45964ff2167f6ecedd419db06c1"%string.
Proof. vm_compute. reflexivity. Qed.


Arguments hash_token : simpl never.

(** ** Stepping through monadic code *)

Lemma bind_ret {A B} (a : A) (k : A → M B) w : bind (ret a) k w = k a w.
Proof. reflexivity. Qed.

Lemma bind_raise {A B} (e : exn) (k : A → M B) w : bind (raise e) k w = (Raise e, w).
Proof. reflexivity. Qed.

Lemma bind_get_storage {B} (k : InMemoryStorage → M B) w :
  bind get_storage k w = k (storage w) w.
Proof. reflexivity. Qed.

Lemma bind_update_storage {B} f (k : unit → M B) w :
  bind (update_storage f) k w =
  k tt (mkWorld (f (storage w)) (n_time w) (n_token w) (n_uuid w) (n_now w)
                (broadcasts w) (tasks w)).
Proof. reflexivity. Qed.

Lemma bind_subscript {V B} (d : gmap string V) key v (k : V → M B) w :
  d !! key = Some v → bind (subscript d key) k w = k v w.
Proof. intros H. unfold bind, subscript. by rewrite H. Qed.

Lemma bind_assoc {A B C} (m : M A) (f : A → M B) (g : B → M C) w :
  bind (bind m f) g w = bind m (λ a, bind (f a) g) w.
Proof. unfold bind. destruct (m w) as [[a|e] w']; reflexivity. Qed.

Section EngineSteps.
Context (env : Env).

Lemma bind_time_time {B} (k : Float.t → M B) w :
  bind (time_time env) k w = k (env_time env (n_time w)) (tick w).
Proof. reflexivity. Qed.

Lemma bind_float_add_int {B} x n y (k : Float.t → M B) w :
  Float.of_int n = Some y → bind (float_add_int x n) k w = k (Float.add x y) w.
Proof. intros H. unfold bind, float_add_int. by rewrite H. Qed.

Lemma bind_float_add_int_overflow {B} x n (k : Float.t → M B) w :
  Float.of_int n = None → bind (float_add_int x n) k w = (Raise Overflow, w).
Proof. intros H. unfold bind, float_add_int. by rewrite H. Qed.

Lemma of_int_300 : Float.of_int 300 = Some (Float.of_Z 300).
Proof. reflexivity. Qed.

Lemma bind_broadcast_to_type {B} msg ct (k : unit → M B) w :
  bind (broadcast_to_type msg ct) k w =
  k tt (mkWorld (storage w) (n_time w) (n_token w) (n_uuid w) (n_now w)
                (broadcasts w ++ [(msg, ct)])%list (tasks w)).
Proof. reflexivity. Qed.

End EngineSteps.

Ltac world_simpl :=
  cbn [storage n_time n_token n_uuid n_now broadcasts tasks tick
       sessions tokens votes members active_voting
       set_sessions set_tokens set_votes set_members set_active_voting] in *.

Ltac msubscript :=
  erewrite bind_subscript by (first [apply lookup_insert_eq | eassumption]).

Ltac mstep :=
  first [ rewrite bind_ret | rewrite bind_raise | rewrite bind_get_storage
        | rewrite bind_update_storage | rewrite bind_time_time
        | rewrite bind_broadcast_to_type ];
  world_simpl.

(** ** Counting the ledger *)

Lemma count_votes_world ledger c w : (count_votes ledger c w).2 = w.
Proof.
  revert c. induction ledger as [|v l IH]; intros c; [done|].
  cbn [count_votes]. unfold increment.
  repeat case_decide; rewrite ?bind_ret, ?bind_raise; auto.
Qed.

Lemma choices_distinct :
  "за" ≠ "против" ∧ "за" ≠ "воздержался" ∧ "против" ≠ "воздержался".
Proof. repeat split; discriminate. Qed.

Lemma count_choice_cons ch v l :
  count_choice ch (v :: l) =
  ((if decide (VoteRecord.choice v = ch) then 1 else 0) + count_choice ch l)%nat.
Proof.
  unfold count_choice. rewrite filter_cons. by case_decide.
Qed.

Lemma count_votes_valid ledger c w :
  Forall (λ v, VoteRecord.choice v ∈ choices) ledger →
  count_votes ledger c w = (Return (add_counts c (tally ledger)), w).
Proof.
  revert c. induction ledger as [|v l IH]; intros c Hv.
  { destruct c. unfold add_counts, tally, count_choice. simpl.
    by rewrite !Nat.add_0_r. }
  inversion Hv as [|? ? Hc Hl]; subst.
  cbn [count_votes]. unfold increment.
  destruct choices_distinct as (H1 & H2 & H3).
  unfold tally. rewrite !count_choice_cons.
  repeat case_decide; try congruence; rewrite ?bind_ret, ?bind_raise.
  all: try (rewrite IH by done; unfold add_counts, tally; cbn [VotesCount.za VotesCount.protiv VotesCount.vozderzhalsya];
            do 2 f_equal; f_equal; lia).
  exfalso. unfold choices in Hc. rewrite !elem_of_cons, elem_of_nil in Hc.
  destruct Hc as [?|[?|[?|[]]]]; congruence.
Qed.

Section Handlers.
Context (env : Env).

(** [submit_vote], case by case. *)
Lemma submit_vote_cases token choice w :
  let r := submit_vote env token choice w in
  match tokens (storage w) !! token with
  | None => r = (Raise NotFound_token, w)
  | Some td =>
      if TokenData.used td then r = (Raise AlreadyUsed, w)
      else if decide (Float.gt (env_time env (n_time w)) (TokenData.expires_at td)) then
        r = (Raise Expired, tick w)
      else if decide (window_active (storage w) (TokenData.session_id td)) then
        if decide (choice ∈ choices) then
          storage r.2 =
            vote_storage (storage w) token td choice
              (env_time env (S (n_time w))) (env_time env (S (S (n_time w))))
          ∧ (Forall (λ v, VoteRecord.choice v ∈ choices)
               (ledger_of (storage w) (TokenData.session_id td)) →
             r.1 = Return (SubmitVoteResponse "success" "Голос принят"))
          ∧ (∀ e, r.1 = Raise e → ∃ key, e = KeyError key)
        else r = (Raise InvalidChoice, tick w)
      else r = (Raise InvalidState_vote, tick w)
  end.
Proof.
  cbv zeta. unfold submit_vote. mstep.
  destruct (tokens (storage w) !! token) as [td|] eqn:Htd.
  2:{ rewrite decide_True by done. reflexivity. }
  rewrite decide_False by done.
  rewrite (bind_subscript _ _ td) by done.
  destruct (TokenData.used td) eqn:Hused; [reflexivity|].
  mstep. destruct (decide (Float.gt _ _)); [reflexivity|].
  set (sid := TokenData.session_id td).
  destruct (decide (_ ∨ _)) as [Hd|Hd].
  { rewrite decide_False; [reflexivity|].
    unfold window_active. fold sid. intros Hact.
    destruct Hd as [Hd|Hd]; [by rewrite Hd in Hact|by apply Hd]. }
  rewrite decide_True.
  2:{ unfold window_active. fold sid.
      destruct (active_voting (storage w) !! sid) as [vi|] eqn:Hvi; [|by destruct Hd; left].
      simpl. destruct (decide (VotingInfo.status vi = "active")) as [->|Hne]; [done|].
      destruct Hd. right. simpl. congruence. }
  fold choices.
  destruct (decide (choice ∉ choices)) as [Hch|Hch].
  { rewrite decide_False by done. reflexivity. }
  rewrite decide_True by (by apply dec_stable).
  mstep.
  enough (Hsucc : ∀ ledger w0,
    storage w0 = mkStorage (sessions (storage w))
      (<[token := TokenData.set_voted_at (env_time env (S (S (n_time w))))
                    (TokenData.set_used true td)]>
         (<[token := TokenData.set_used true td]> (tokens (storage w))))
      (<[sid := ledger]> (votes (storage w))) (members (storage w))
      (active_voting (storage w)) →
    ledger = (ledger_of (storage w) sid
              ++ [VoteRecord.mk sid choice (env_time env (S (n_time w))) (hash_token token)])%list →
    let r := bind (count_votes ledger VotesCount.zero) (λ current_votes,
               bind (broadcast_to_type
                       (vote_received sid current_votes
                          (length (default [] (members (storage w) !! sid)))) "admin")
                    (λ _, ret (SubmitVoteResponse "success" "Голос принят"))) w0 in
    storage r.2 = vote_storage (storage w) token td choice
                    (env_time env (S (n_time w))) (env_time env (S (S (n_time w))))
    ∧ (Forall (λ v, VoteRecord.choice v ∈ choices) (ledger_of (storage w) sid) →
       r.1 = Return (SubmitVoteResponse "success" "Голос принят"))
    ∧ (∀ e, r.1 = Raise e → ∃ key, e = KeyError key)).
  { unfold ledger_of in *.
    destruct (votes (storage w) !! sid) as [ledger|] eqn:Hl.
    - rewrite decide_False by done. repeat (mstep || msubscript).
      apply Hsucc; [|done]. unfold set_tokens, set_votes. reflexivity.
    - rewrite decide_True by done. repeat (mstep || msubscript).
      apply Hsucc; [|done]. unfold set_tokens, set_votes. cbn.
      f_equal. apply insert_insert_eq. }
  intros ledger w0 Hw0 Hledger r. subst r. unfold bind.
  pose proof (count_votes_world ledger VotesCount.zero w0) as Hw.
  assert (Hst : vote_storage (storage w) token td choice
                  (env_time env (S (n_time w))) (env_time env (S (S (n_time w))))
                = storage w0).
  { rewrite Hw0. unfold vote_storage. rewrite insert_insert_eq. fold sid. by subst ledger. }
  destruct (count_votes ledger VotesCount.zero w0) as [[cv|e] w1] eqn:Hcv;
    simpl in Hw; subst w1; unfold broadcast_to_type, ret; cbn [fst snd storage].
  - split; [done|]. split; [done|]. by intros ? [=].
  - split; [done|]. split.
    + intros Hvalid. exfalso.
      rewrite count_votes_valid in Hcv; [done|].
      subst ledger. apply Forall_app. split; [done|].
      apply Forall_singleton. cbn. by apply dec_stable.
    + intros e' [= <-]. clear -Hcv.
      revert Hcv. generalize VotesCount.zero. induction ledger as [|v l IH]; intros c.
      { done. }
      cbn [count_votes]. unfold increment.
      repeat case_decide; rewrite ?bind_ret, ?bind_raise; eauto.
      intros [= <-]. eauto.
Qed.

End Handlers.

(** ** The tokens of a session *)

Lemma session_tokens_insert_fresh sid u (toks : gmap string TokenData.t) t td :
  toks !! t = None →
  session_tokens sid u (<[t := td]> toks) ≡ₚ
  (if decide (TokenData.session_id td = sid ∧ TokenData.used td = u) then [t] else [])
    ++ session_tokens sid u toks.
Proof.
  intros Hfresh. unfold session_tokens.
  rewrite (map_to_list_insert toks t td Hfresh), filter_cons. cbn [snd].
  case_decide; reflexivity.
Qed.

Lemma session_tokens_delete sid u (toks : gmap string TokenData.t) t td :
  toks !! t = Some td →
  session_tokens sid u toks ≡ₚ
  (if decide (TokenData.session_id td = sid ∧ TokenData.used td = u) then [t] else [])
    ++ session_tokens sid u (delete t toks).
Proof.
  intros Hin. unfold session_tokens.
  rewrite <- (map_to_list_delete toks t td Hin), filter_cons. cbn [snd].
  case_decide; reflexivity.
Qed.

Lemma session_tokens_update sid u (toks : gmap string TokenData.t) t td td' :
  toks !! t = Some td →
  (if decide (TokenData.session_id td = sid ∧ TokenData.used td = u) then [t] else [])
    ++ session_tokens sid u (<[t := td']> toks) ≡ₚ
  (if decide (TokenData.session_id td' = sid ∧ TokenData.used td' = u) then [t] else [])
    ++ session_tokens sid u toks.
Proof.
  intros Hin.
  rewrite <- (insert_delete_eq toks t td').
  rewrite session_tokens_insert_fresh by apply lookup_delete_eq.
  rewrite (session_tokens_delete sid u toks t td Hin).
  rewrite !(assoc (++)). apply Permutation_app_tail, Permutation_app_comm.
Qed.

Lemma elem_of_session_tokens sid u (toks : gmap string TokenData.t) t :
  t ∈ session_tokens sid u toks ↔
  ∃ td, toks !! t = Some td ∧ TokenData.session_id td = sid ∧ TokenData.used td = u.
Proof.
  unfold session_tokens. rewrite list_elem_of_fmap. split.
  - intros ([t' td] & -> & Hin). apply list_elem_of_filter in Hin as [[H1 H2] Hin].
    apply elem_of_map_to_list in Hin. eauto.
  - intros (td & Hin & H1 & H2). exists (t, td). split; [done|].
    apply list_elem_of_filter. split; [done|]. by apply elem_of_map_to_list.
Qed.

Lemma NoDup_session_tokens sid u (toks : gmap string TokenData.t) :
  NoDup (session_tokens sid u toks).
Proof.
  unfold session_tokens.
  eapply sublist_NoDup; [apply (NoDup_fst_map_to_list toks)|].
  apply fmap_sublist, sublist_filter.
Qed.

Lemma count_unused_tokens_length sid (toks : gmap string TokenData.t) :
  count_unused_tokens sid toks = length (session_tokens sid false toks).
Proof.
  unfold count_unused_tokens, session_tokens. rewrite length_fmap.
  generalize (map_to_list toks). intros l.
  enough (∀ n, foldl (λ k item, if is_unused_of sid item then S k else k) n l
               = (n + length (filter (λ item : string * TokenData.t,
                      TokenData.session_id item.2 = sid ∧ TokenData.used item.2 = false) l))%nat)
    as H by apply (H 0%nat).
  induction l as [|[t td] l IH]; intros n; [simpl; lia|].
  cbn [foldl]. rewrite IH, filter_cons. unfold is_unused_of. cbn [snd].
  destruct (TokenData.used td); case_bool_decide; case_decide; simpl; try lia;
    exfalso; intuition congruence.
Qed.

Lemma count_votes_raise ledger c w e :
  (count_votes ledger c w).1 = Raise e → ∃ key, e = KeyError key.
Proof.
  revert c. induction ledger as [|v l IH]; intros c; [done|].
  cbn [count_votes]. unfold increment.
  repeat case_decide; rewrite ?bind_ret, ?bind_raise; eauto.
  intros [= <-]. eauto.
Qed.

Lemma count_votes_zero_valid ledger w :
  Forall (λ v, VoteRecord.choice v ∈ choices) ledger →
  count_votes ledger VotesCount.zero w = (Return (tally ledger), w).
Proof.
  intros Hv. by rewrite count_votes_valid.
Qed.

Lemma total_tally ledger :
  Forall (λ v, VoteRecord.choice v ∈ choices) ledger →
  VotesCount.total (tally ledger) = length ledger.
Proof.
  unfold VotesCount.total, tally. cbn.
  induction 1 as [|v l Hc Hl IH]; [done|].
  rewrite !count_choice_cons. cbn [length]. rewrite <- IH.
  destruct choices_distinct as (H1 & H2 & H3).
  unfold choices in Hc. rewrite !elem_of_cons, elem_of_nil in Hc.
  destruct Hc as [Hc|[Hc|[Hc|[]]]]; rewrite Hc;
    repeat case_decide; try congruence; lia.
Qed.

Section HandlerSpecs.
Context (env : Env).

(** [end_voting], case by case. *)
Lemma end_voting_cases session_id w :
  let r := end_voting session_id w in
  match active_voting (storage w) !! session_id with
  | None => r = (Raise NotFound_voting, w)
  | Some vi =>
      match (count_votes (ledger_of (storage w) session_id) VotesCount.zero w).1 with
      | Raise e => r = (Raise e, w)
      | Return counted =>
          let results :=
            VotesCount.mk (VotesCount.za counted) (VotesCount.protiv counted)
              (VotesCount.vozderzhalsya counted
               + count_unused_tokens session_id (tokens (storage w))) in
          match sessions (storage w) !! session_id with
          | None => r.1 = Raise (KeyError session_id)
          | Some sd =>
              r.1 = Return (EndVotingResponse "success" results)
              ∧ storage r.2 = closed_storage (storage w) session_id sd vi results
          end
      end
  end.
Proof.
  cbv zeta. destruct (end_voting session_id w) as [o w'] eqn:Hr. revert Hr.
  unfold end_voting. mstep.
  destruct (active_voting (storage w) !! session_id) as [vi|] eqn:Hvi.
  2:{ rewrite decide_True by done. by intros [= <- <-]. }
  rewrite decide_False by done. fold (ledger_of (storage w) session_id).
  pose proof (count_votes_world (ledger_of (storage w) session_id) VotesCount.zero w) as Hw.
  unfold bind at 1.
  destruct (count_votes _ _ w) as [[counted|e] w1]; simpl in Hw; subst w1; cbn [fst].
  2:{ by intros [= <- <-]. }
  repeat (mstep || msubscript).
  destruct (sessions (storage w) !! session_id) as [sd|] eqn:Hsd.
  - repeat (mstep || msubscript). intros [= <- <-]. split; [done|].
    unfold closed_storage, set_sessions, set_active_voting.
    cbn [snd storage sessions tokens votes members active_voting].
    f_equal. apply insert_insert_eq.
  - unfold bind, subscript. rewrite Hsd. by intros [= <- <-].
Qed.

(** [auto_end_voting] ends an active voting and does nothing otherwise. *)
Lemma auto_end_voting_cases session_id w :
  if decide (window_active (storage w) session_id) then
    (auto_end_voting session_id w).2 = (end_voting session_id w).2
  else auto_end_voting session_id w = (Return tt, w).
Proof.
  destruct (decide (window_active (storage w) session_id)) as [Hact|Hact];
    unfold auto_end_voting, window_active in *; mstep;
    destruct (active_voting (storage w) !! session_id) as [vi|] eqn:Hvi;
    cbn in Hact; try done.
  - rewrite decide_True by congruence. unfold bind.
    by destruct (end_voting session_id w) as [[r|e] w1].
  - rewrite decide_False by congruence. done.
Qed.

(** The loop of [create_session] over the members appends them to the
    roster of the session. *)
Lemma create_session_loop session_id (ms : list Member.t) : ∀ l w,
  members (storage w) !! session_id = Some l →
  for_each ms (λ member,
    bind get_storage (λ st,
    bind (subscript (members st) session_id) (λ l,
    update_storage (set_members
      <[session_id := (l ++ [Member.mk (Member.name member) (Member.contact member)])%list]>)))) w
  = (Return tt,
     mkWorld (set_members <[session_id := (l ++ ms)%list]> (storage w))
             (n_time w) (n_token w) (n_uuid w) (n_now w) (broadcasts w) (tasks w)).
Proof.
  induction ms as [|m ms IH]; intros l w Hl.
  - cbn [for_each]. unfold ret. rewrite app_nil_r. destruct w as [[] ?]. 
    unfold set_members. cbn in *. by rewrite insert_id.
  - cbn [for_each]. rewrite bind_assoc. mstep. rewrite bind_assoc.
    rewrite (bind_subscript _ _ l) by done.
    unfold bind at 1. unfold update_storage at 1.
    rewrite (IH (l ++ [m])%list).
    2:{ world_simpl. destruct m. apply lookup_insert_eq. }
    world_simpl. unfold set_members. cbn. rewrite insert_insert_eq, <- (assoc (++)). done.
Qed.

(** [create_session] accepts any request. *)
Lemma create_session_spec session w :
  let sid := env_uuid4 env (n_uuid w) in
  let r := create_session env session w in
  r.1 = Return (CreateSessionResponse sid "success")
  ∧ storage r.2 =
      mkStorage
        (<[sid := SessionData.mk sid (Session.title session) (Session.description session)
                    (env_now_isoformat env (n_now w)) "created"]> (sessions (storage w)))
        (tokens (storage w))
        (<[sid := []]> (votes (storage w)))
        (<[sid := Session.members session]> (members (storage w)))
        (active_voting (storage w))
  ∧ n_token r.2 = n_token w.
Proof.
  cbv zeta. destruct (create_session env session w) as [o w'] eqn:Hr. revert Hr.
  unfold create_session.
  unfold bind at 1, generate_session_id at 1.
  unfold bind at 1, datetime_now_isoformat at 1. cbn [n_uuid n_now].
  repeat mstep.
  unfold bind at 1. rewrite (create_session_loop _ _ []); [|apply lookup_insert_eq].
  world_simpl. repeat mstep. intros [= <- <-].
  unfold set_votes, set_members, set_sessions.
  cbn [fst snd storage n_token sessions tokens votes members active_voting app].
  split; [done|]. split; [|done].
  f_equal. apply insert_insert_eq.
Qed.

Lemma bind_generate_token {B} (k : string → M B) w :
  bind (generate_token env) k w =
  k (env_token_urlsafe env (n_token w))
    (mkWorld (storage w) (n_time w) (S (n_token w)) (n_uuid w) (n_now w)
             (broadcasts w) (tasks w)).
Proof. reflexivity. Qed.

Lemma drawn_from_S k n :
  drawn_from env k (S n) = env_token_urlsafe env k :: drawn_from env (S k) n.
Proof.
  unfold drawn_from. cbn [seq fmap list_fmap].
  rewrite Nat.add_0_r. f_equal. rewrite <- fmap_S_seq, <- list_fmap_compose.
  apply list_fmap_ext. intros _ i _. cbn. f_equal. lia.
Qed.

(** One iteration of the loop of [start_voting], when the duration in
    seconds converts to the float [d]. *)
Lemma issue_token_spec session_id voting member w d :
  Float.of_int (VotingSession.duration_minutes voting * 60) = Some d →
  issue_token env session_id voting member w =
  (Return (IssuedToken.mk (Member.name member) (Member.contact member)
             (env_token_urlsafe env (n_token w))
             ("/vote?token=" +:+ env_token_urlsafe env (n_token w))),
   mkWorld (set_tokens
              <[env_token_urlsafe env (n_token w) :=
                  TokenData.mk session_id (Member.name member) false
                    (Float.add (Float.add (env_time env (n_time w)) d) (Float.of_Z 300))
                    (env_time env (S (n_time w))) None]> (storage w))
           (S (S (n_time w))) (S (n_token w)) (n_uuid w) (n_now w)
           (broadcasts w) (tasks w)).
Proof.
  intros Hd. unfold issue_token. rewrite bind_generate_token, bind_time_time.
  rewrite (bind_float_add_int _ _ d) by done.
  rewrite (bind_float_add_int _ _ (Float.of_Z 300)) by apply of_int_300.
  reflexivity.
Qed.

(** One iteration of the loop, when the duration in seconds is too large
    for a float: a token and a reading of the clock are consumed, nothing is
    stored. *)
Lemma issue_token_overflow session_id voting member w :
  Float.of_int (VotingSession.duration_minutes voting * 60) = None →
  issue_token env session_id voting member w =
  (Raise Overflow,
   mkWorld (storage w) (S (n_time w)) (S (n_token w)) (n_uuid w) (n_now w)
           (broadcasts w) (tasks w)).
Proof.
  intros Hd. unfold issue_token. rewrite bind_generate_token, bind_time_time.
  by rewrite bind_float_add_int_overflow.
Qed.

(** The loop of [start_voting]: with fresh tokens from the environment, one
    unused token of the session is added per member. *)
Lemma issue_tokens_spec session_id voting ms d : ∀ acc w,
  Float.of_int (VotingSession.duration_minutes voting * 60) = Some d →
  NoDup (drawn_tokens env w (length ms)) →
  Forall (λ t, tokens (storage w) !! t = None) (drawn_tokens env w (length ms)) →
  ∃ out w',
    issue_tokens env session_id voting ms acc w = (Return out, w')
    ∧ IssuedToken.token <$> out
      = ((IssuedToken.token <$> acc) ++ drawn_tokens env w (length ms))%list
    ∧ sessions (storage w') = sessions (storage w)
    ∧ votes (storage w') = votes (storage w)
    ∧ members (storage w') = members (storage w)
    ∧ active_voting (storage w') = active_voting (storage w)
    ∧ n_uuid w' = n_uuid w
    ∧ (∀ t, t ∉ drawn_tokens env w (length ms) →
         tokens (storage w') !! t = tokens (storage w) !! t)
    ∧ (∀ t, t ∈ drawn_tokens env w (length ms) →
         ∃ td, tokens (storage w') !! t = Some td
               ∧ TokenData.session_id td = session_id ∧ TokenData.used td = false)
    ∧ (∀ sid u, session_tokens sid u (tokens (storage w')) ≡ₚ
         (if decide (session_id = sid ∧ false = u)
          then drawn_tokens env w (length ms) else [])
         ++ session_tokens sid u (tokens (storage w))).
Proof.
  induction ms as [|m ms IH]; intros acc w Hd Hnd Hfresh.
  { exists acc, w. cbn. rewrite app_nil_r. repeat split; try done.
    - intros t Ht. by apply elem_of_nil in Ht.
    - intros sid u. by case_decide. }
  cbn [issue_tokens length]. unfold bind at 1. rewrite (issue_token_spec _ _ _ _ d Hd).
  unfold drawn_tokens in *. cbn [length] in Hnd, Hfresh.
  rewrite drawn_from_S in Hnd, Hfresh |- *.
  set (tok := env_token_urlsafe env (n_token w)) in *.
  set (td := TokenData.mk _ _ _ _ _ _).
  set (w1 := mkWorld _ _ _ _ _ _ _).
  apply NoDup_cons in Hnd as [Hnotin Hnd].
  apply Forall_cons in Hfresh as [Htok Hfresh].
  assert (Hfresh1 : Forall (λ t, tokens (storage w1) !! t = None)
                      (drawn_from env (S (n_token w)) (length ms))).
  { apply Forall_forall. intros t Ht. subst w1. unfold set_tokens. cbn.
    rewrite lookup_insert_ne by (by intros ->).
    by apply (proj1 (Forall_forall _ _) Hfresh). }
  destruct (IH (acc ++ [IssuedToken.mk (Member.name m) (Member.contact m) tok
                          ("/vote?token=" +:+ tok)])%list w1 Hd Hnd Hfresh1)
    as (out & w' & Hrun & Hout & Hs & Hv & Hm & Ha & Hu & Hold & Hnew & Hperm).
  change (n_token w1) with (S (n_token w)) in *.
  exists out, w'. split; [exact Hrun|].
  split. { rewrite Hout, fmap_app. cbn. by rewrite <- (assoc (++)). }
  do 5 (split; [done|]).
  split; [|split].
  - intros t Ht. apply not_elem_of_cons in Ht as [Hne Ht].
    rewrite Hold by done. subst w1. unfold set_tokens. cbn.
    by rewrite lookup_insert_ne.
  - intros t Ht. apply elem_of_cons in Ht as [->|Ht]; [|by apply Hnew].
    rewrite Hold by done. subst w1. unfold set_tokens. cbn.
    rewrite lookup_insert_eq. by exists td.
  - intros sid u. rewrite Hperm. subst w1. unfold set_tokens. cbn [storage tokens].
    rewrite session_tokens_insert_fresh by done. subst td. cbn [TokenData.session_id TokenData.used].
    case_decide; [|done]. cbn [app]. symmetry. apply Permutation_middle.
Qed.

(** [start_voting], case by case; with fresh tokens from the environment it
    opens a window on every existing session, whatever its state. *)
Lemma start_voting_cases session_id voting w :
  match sessions (storage w) !! session_id with
  | None => start_voting env session_id voting w = (Raise NotFound_session, w)
  | Some sd =>
      match members (storage w) !! session_id with
      | None => start_voting env session_id voting w = (Raise (KeyError session_id), w)
      | Some ms =>
          match Float.of_int (VotingSession.duration_minutes voting * 60) with
          | None =>
              start_voting env session_id voting w
              = (Raise Overflow,
                 mkWorld (storage w) (S (n_time w))
                   (match ms with [] => n_token w | _ :: _ => S (n_token w) end)
                   (n_uuid w) (n_now w) (broadcasts w) (tasks w))
          | Some d =>
          env_ok env (StartVoting session_id voting) w →
          ∃ toks end_time vi w',
            start_voting env session_id voting w
            = (Return (StartVotingResponse "success" toks end_time), w')
            ∧ IssuedToken.token <$> toks = drawn_tokens env w (length ms)
            ∧ sessions (storage w')
              = <[session_id := SessionData.set_status "voting" sd]> (sessions (storage w))
            ∧ votes (storage w') = votes (storage w)
            ∧ members (storage w') = members (storage w)
            ∧ active_voting (storage w') = <[session_id := vi]> (active_voting (storage w))
            ∧ VotingInfo.status vi = "active"
            ∧ n_uuid w' = n_uuid w
            ∧ (∀ t, t ∉ drawn_tokens env w (length ms) →
                 tokens (storage w') !! t = tokens (storage w) !! t)
            ∧ (∀ t, t ∈ drawn_tokens env w (length ms) →
                 ∃ td, tokens (storage w') !! t = Some td
                       ∧ TokenData.session_id td = session_id
                       ∧ TokenData.used td = false)
            ∧ (∀ sid u, session_tokens sid u (tokens (storage w')) ≡ₚ
                 (if decide (session_id = sid ∧ false = u)
                  then drawn_tokens env w (length ms) else [])
                 ++ session_tokens sid u (tokens (storage w)))
          end
      end
  end.
Proof.
  unfold start_voting. mstep.
  destruct (sessions (storage w) !! session_id) as [sd|] eqn:Hsd.
  2:{ by rewrite decide_True. }
  rewrite decide_False by done.
  destruct (members (storage w) !! session_id) as [ms|] eqn:Hms.
  2:{ unfold bind, subscript. by rewrite Hms. }
  destruct (Float.of_int (VotingSession.duration_minutes voting * 60)) as [d|] eqn:Hd.
  2:{ msubscript. destruct ms as [|member ms].
      - cbn [issue_tokens]. mstep. mstep. by rewrite bind_float_add_int_overflow.
      - cbn [issue_tokens]. unfold bind at 1, bind at 1.
        by rewrite issue_token_overflow. }
  intros [Hnd Hfresh]. unfold roster_of in Hnd, Hfresh. rewrite Hms in Hnd, Hfresh.
  cbn [default] in Hnd, Hfresh.
  apply Forall_and in Hfresh as [_ Hfresh].
  destruct (issue_tokens_spec session_id voting ms d [] w Hd Hnd Hfresh)
    as (toks & w1 & Hrun & Hout & Hs & Hv & Hm & Ha & Hu & Hold & Hnew & Hperm).
  msubscript.
  unfold bind at 1. rewrite Hrun.
  mstep. rewrite (bind_float_add_int _ _ d) by done.
  repeat mstep. rewrite (bind_subscript _ _ sd) by (by rewrite Hs).
  repeat mstep. unfold create_task, bind, ret.
  eexists toks, _, _, _. split; [reflexivity|].
  unfold set_sessions, set_active_voting.
  cbn [storage n_uuid sessions tokens votes members active_voting VotingInfo.status].
  rewrite Hs, Ha. repeat split; done.
Qed.

End HandlerSpecs.

(** ** Preservation of the invariant *)

Lemma session_tokens_empty sid u : session_tokens sid u ∅ = [].
Proof. unfold session_tokens. by rewrite map_to_list_empty. Qed.

Lemma final_results_ext st st' sid :
  ledger_of st' sid = ledger_of st sid →
  session_tokens sid false (tokens st') ≡ₚ session_tokens sid false (tokens st) →
  final_results st' sid = final_results st sid.
Proof. intros Hl Hp. unfold final_results. by rewrite Hl, Hp. Qed.

Lemma storage_inv_empty : storage_inv empty_storage.
Proof.
  split; cbn; intros *.
  - by rewrite !lookup_empty.
  - rewrite lookup_empty. by intros [? [=]].
  - rewrite lookup_empty. by intros [? [=]].
  - rewrite lookup_empty. by intros [? [=]].
  - by rewrite lookup_empty.
  - unfold ledger_of. cbn. rewrite lookup_empty. cbn. by intros ?%elem_of_nil.
  - unfold ledger_of. cbn. by rewrite lookup_empty, session_tokens_empty.
  - by rewrite lookup_empty.
Qed.

Lemma storage_inv_create st sid sd ms :
  storage_inv st →
  String.length sid = 36%nat →
  sessions st !! sid = None →
  storage_inv (mkStorage (<[sid := sd]> (sessions st)) (tokens st)
                 (<[sid := []]> (votes st)) (<[sid := ms]> (members st))
                 (active_voting st)).
Proof.
  intros [Hm Hv Ha Hid Ht Hl Hh Hr] Hlen Hfresh.
  assert (Hledger : ∀ sid', ledger_of (mkStorage (<[sid := sd]> (sessions st)) (tokens st)
                 (<[sid := []]> (votes st)) (<[sid := ms]> (members st))
                 (active_voting st)) sid' = ledger_of st sid').
  { intros sid'. unfold ledger_of. cbn. destruct (decide (sid = sid')) as [<-|Hne].
    - rewrite lookup_insert_eq. destruct (votes st !! sid) eqn:Hvs; [|done].
      destruct (Hv sid) as [? Hs]; [by eauto|congruence].
    - by rewrite lookup_insert_ne. }
  split; cbn [sessions tokens votes members active_voting].
  - intros sid'. destruct (decide (sid = sid')) as [<-|Hne].
    + rewrite !lookup_insert_eq. split; eauto.
    + rewrite !lookup_insert_ne by done. apply Hm.
  - intros sid'. destruct (decide (sid = sid')) as [<-|Hne].
    + rewrite !lookup_insert_eq. eauto.
    + rewrite !lookup_insert_ne by done. apply Hv.
  - intros sid' Hs. destruct (decide (sid = sid')) as [<-|Hne].
    + rewrite lookup_insert_eq. eauto.
    + rewrite lookup_insert_ne by done. by apply Ha.
  - intros sid'. destruct (decide (sid = sid')) as [<-|Hne]; [done|].
    rewrite lookup_insert_ne by done. apply Hid.
  - intros t td Htd. destruct (Ht t td Htd) as [H43 Hs]. split; [done|].
    rewrite lookup_insert_ne; [done|]. intros Heq. destruct Hs. congruence.
  - intros sid' v. rewrite Hledger. apply Hl.
  - intros sid'. rewrite Hledger. apply Hh.
  - intros sid' vi Hvi. destruct (Hr sid' vi Hvi) as [?|[? Hres]]; [by left|right].
    split; [done|]. rewrite Hres. f_equal. symmetry. by apply final_results_ext.
Qed.

Lemma storage_inv_start st st' sid sd vi (drawn : list string) :
  storage_inv st →
  sessions st !! sid = Some sd →
  sessions st' = <[sid := SessionData.set_status "voting" sd]> (sessions st) →
  votes st' = votes st →
  members st' = members st →
  active_voting st' = <[sid := vi]> (active_voting st) →
  VotingInfo.status vi = "active" →
  Forall (λ t, String.length t = 43%nat) drawn →
  (∀ t, t ∉ drawn → tokens st' !! t = tokens st !! t) →
  (∀ t, t ∈ drawn → ∃ td, tokens st' !! t = Some td
                          ∧ TokenData.session_id td = sid ∧ TokenData.used td = false) →
  (∀ sid' u, session_tokens sid' u (tokens st') ≡ₚ
     (if decide (sid = sid' ∧ false = u) then drawn else [])
     ++ session_tokens sid' u (tokens st)) →
  storage_inv st'.
Proof.
  intros [Hm Hv Ha Hid Ht Hl Hh Hr] Hsd Hs' Hv' Hm' Ha' Hvi H43 Hold Hnew Hperm.
  assert (Hsess : ∀ sid', is_Some (sessions st' !! sid') ↔ is_Some (sessions st !! sid')).
  { intros sid'. rewrite Hs'. destruct (decide (sid = sid')) as [<-|Hne].
    - rewrite lookup_insert_eq, Hsd. split; eauto.
    - by rewrite lookup_insert_ne. }
  assert (Hledger : ∀ sid', ledger_of st' sid' = ledger_of st sid').
  { intros sid'. unfold ledger_of. by rewrite Hv'. }
  split.
  - intros sid'. rewrite Hsess, Hm'. apply Hm.
  - intros sid'. rewrite Hsess, Hv'. apply Hv.
  - intros sid'. rewrite Hsess, Ha'. destruct (decide (sid = sid')) as [<-|Hne].
    + rewrite Hsd. eauto.
    + rewrite lookup_insert_ne by done. apply Ha.
  - intros sid'. rewrite Hsess. apply Hid.
  - intros t td Htd. rewrite Hsess. destruct (decide (t ∈ drawn)) as [Hin|Hnotin].
    + split; [by apply (proj1 (Forall_forall _ _) H43)|].
      destruct (Hnew t Hin) as (td' & Htd' & Hsid & _).
      rewrite Htd in Htd'. injection Htd' as <-. rewrite Hsid, Hsd. eauto.
    + rewrite Hold in Htd by done. by apply Ht.
  - intros sid' v. rewrite Hledger. apply Hl.
  - intros sid'. rewrite Hledger, Hperm. rewrite decide_False by (by intros [_ [=]]).
    apply Hh.
  - intros sid' vi'. rewrite Ha'. destruct (decide (sid = sid')) as [<-|Hne].
    + rewrite lookup_insert_eq. intros [= <-]. by left.
    + rewrite lookup_insert_ne by done. intros Hvi'.
      destruct (Hr sid' vi' Hvi') as [?|[? Hres]]; [by left|right].
      split; [done|]. rewrite Hres. f_equal. symmetry.
      apply final_results_ext; [done|]. rewrite Hperm.
      by rewrite decide_False by (by intros [? _]).
Qed.

Lemma storage_inv_close st sid sd vi :
  storage_inv st →
  sessions st !! sid = Some sd →
  active_voting st !! sid = Some vi →
  storage_inv (closed_storage st sid sd vi (final_results st sid)).
Proof.
  intros [Hm Hv Ha Hid Ht Hl Hh Hr] Hsd Hvi.
  assert (Hsess : ∀ sid', is_Some (sessions (closed_storage st sid sd vi (final_results st sid)) !! sid')
                          ↔ is_Some (sessions st !! sid')).
  { intros sid'. cbn. destruct (decide (sid = sid')) as [<-|Hne].
    - rewrite lookup_insert_eq, Hsd. split; eauto.
    - by rewrite lookup_insert_ne. }
  split; try (intros sid'; rewrite Hsess); cbn [closed_storage sessions tokens votes members active_voting].
  - apply Hm.
  - apply Hv.
  - destruct (decide (sid = sid')) as [<-|Hne].
    + rewrite Hsd. eauto.
    + rewrite lookup_insert_ne by done. apply Ha.
  - apply Hid.
  - intros t td Htd. rewrite Hsess. by apply Ht.
  - apply Hl.
  - apply Hh.
  - intros sid' vi'. destruct (decide (sid = sid')) as [<-|Hne].
    + rewrite lookup_insert_eq. intros [= <-]. right. done.
    + rewrite lookup_insert_ne by done. apply Hr.
Qed.

(** Redeeming a token moves it from the unused to the used tokens of its
    session. *)
Lemma session_tokens_redeem (toks : gmap string TokenData.t) t td td' sid u :
  toks !! t = Some td →
  TokenData.used td = false →
  TokenData.session_id td' = TokenData.session_id td →
  TokenData.used td' = true →
  (if decide (TokenData.session_id td = sid ∧ u = false) then [t] else [])
    ++ session_tokens sid u (<[t := td']> toks)
  ≡ₚ (if decide (TokenData.session_id td = sid ∧ u = true) then [t] else [])
    ++ session_tokens sid u toks.
Proof.
  intros Htd Hu Hsid Hu'.
  pose proof (session_tokens_update sid u toks t td td' Htd) as Hp.
  rewrite Hsid, Hu, Hu' in Hp.
  destruct u; repeat case_decide; try done; exfalso; intuition congruence.
Qed.

Lemma storage_inv_vote st token td choice timestamp voted_at :
  storage_inv st →
  tokens st !! token = Some td →
  TokenData.used td = false →
  window_active st (TokenData.session_id td) →
  choice ∈ choices →
  storage_inv (vote_storage st token td choice timestamp voted_at).
Proof.
  intros [Hm Hv Ha Hid Ht Hl Hh Hr] Htd Hused Hact Hch.
  set (sid := TokenData.session_id td) in *.
  set (td' := TokenData.mk sid (TokenData.member_name td) true
                (TokenData.expires_at td) (TokenData.created_at td) (Some voted_at)).
  set (v := VoteRecord.mk sid choice timestamp (hash_token token)).
  set (st' := vote_storage st token td choice timestamp voted_at).
  destruct (Ht token td Htd) as [H43 Hsd]. fold sid in Hsd.
  assert (Hledger : ∀ sid', ledger_of st' sid'
            = if decide (sid = sid') then (ledger_of st sid ++ [v])%list
              else ledger_of st sid').
  { intros sid'. unfold ledger_of at 1. cbn. fold sid. case_decide as Hd.
    - subst sid'. by rewrite lookup_insert_eq.
    - by rewrite lookup_insert_ne. }
  assert (Htoks : ∀ sid' u,
    (if decide (sid = sid' ∧ u = false) then [token] else [])
      ++ session_tokens sid' u (tokens st')
    ≡ₚ (if decide (sid = sid' ∧ u = true) then [token] else [])
      ++ session_tokens sid' u (tokens st)).
  { intros sid' u. cbn. by apply (session_tokens_redeem (tokens st) token td td'). }
  split.
  - apply Hm.
  - intros sid'. cbn. fold sid. destruct (decide (sid = sid')) as [<-|Hne].
    + by intros _.
    + rewrite lookup_insert_ne by done. apply Hv.
  - apply Ha.
  - apply Hid.
  - intros t td0. cbn. fold sid. destruct (decide (token = t)) as [<-|Hne].
    + rewrite lookup_insert_eq. intros [= <-]. done.
    + rewrite lookup_insert_ne by done. apply Ht.
  - intros sid' v0. rewrite Hledger.
    destruct (decide (sid = sid')) as [<-|Hne]; [|apply Hl].
    rewrite elem_of_app, list_elem_of_singleton.
    intros [Hin| ->]; [by apply Hl|done].
  - intros sid'. rewrite Hledger.
    specialize (Htoks sid' true).
    destruct (decide (sid = sid')) as [<-|Hne].
    + rewrite decide_False in Htoks by (by intros [_ [=]]).
      rewrite decide_True in Htoks by done.
      cbn [app] in Htoks. rewrite Htoks, fmap_app, fmap_cons. cbn.
      rewrite <- (Hh sid). symmetry. apply Permutation_cons_append.
    + rewrite !decide_False in Htoks by (by intros [? _]).
      cbn [app] in Htoks. rewrite Htoks. apply Hh.
  - intros sid' vi Hvi. change (active_voting st !! sid' = Some vi) in Hvi.
    destruct (Hr sid' vi Hvi) as [?|[Hcompl Hres]]; [by left|right].
    split; [done|]. rewrite Hres. f_equal. symmetry.
    assert (Hne : sid ≠ sid').
    { intros <-. unfold window_active in Hact. rewrite Hvi in Hact. cbn in Hact. congruence. }
    apply final_results_ext.
    + rewrite Hledger. by rewrite decide_False.
    + specialize (Htoks sid' false). rewrite !decide_False in Htoks by (by intros [? _]).
      exact Htoks.
Qed.

(** ** From the code to its effect on the storage *)

Lemma ledger_valid st sid :
  storage_inv st → Forall (λ v, VoteRecord.choice v ∈ choices) (ledger_of st sid).
Proof.
  intros Hinv. apply Forall_forall. intros v Hv.
  by destruct (inv_ledger st Hinv sid v Hv).
Qed.

Lemma bind_ret_fst {A B} (m : M A) (f : A → B) w :
  (bind m (λ a, ret (f a)) w).1
  = match (m w).1 with Return a => Return (f a) | Raise e => Raise e end.
Proof. unfold bind, ret. by destruct (m w) as [[a|e] w']. Qed.

Lemma bind_ret_snd {A B} (m : M A) (f : A → B) w :
  (bind m (λ a, ret (f a)) w).2 = (m w).2.
Proof. unfold bind, ret. by destruct (m w) as [[a|e] w']. Qed.

(** With the invariant, [end_voting] on a session that has a window records
    and returns the final results, whatever the status of the window. *)
Lemma end_voting_with_window st_w session_id vi :
  storage_inv (storage st_w) →
  active_voting (storage st_w) !! session_id = Some vi →
  ∃ sd, sessions (storage st_w) !! session_id = Some sd
    ∧ (end_voting session_id st_w).1
      = Return (EndVotingResponse "success" (final_results (storage st_w) session_id))
    ∧ storage (end_voting session_id st_w).2
      = closed_storage (storage st_w) session_id sd vi
          (final_results (storage st_w) session_id).
Proof.
  intros Hinv Hvi.
  destruct (inv_active _ Hinv session_id) as [sd Hsd]; [by eauto|].
  exists sd. split; [done|].
  pose proof (end_voting_cases session_id st_w) as Hc. cbv zeta in Hc.
  rewrite Hvi, count_votes_zero_valid, Hsd in Hc by (by apply ledger_valid).
  cbn [fst tally VotesCount.za VotesCount.protiv VotesCount.vozderzhalsya] in Hc.
  rewrite count_unused_tokens_length in Hc. exact Hc.
Qed.

Section Effects.
Context (env : Env).

Lemma dispatch_effect c w :
  storage_inv (storage w) →
  env_ok env c w →
  effect (storage w) c (dispatch env c w).1 (storage (dispatch env c w).2).
Proof.
  intros Hinv Hok. destruct c as [session|sid voting|sid|sid|token choice];
    cbn [dispatch].
  - rewrite bind_ret_fst, bind_ret_snd.
    destruct (create_session_spec env session w) as (Hr & Hst & _).
    rewrite Hr, Hst. destruct Hok as [H36 Hfresh]. by constructor.
  - rewrite bind_ret_fst, bind_ret_snd.
    pose proof (start_voting_cases env sid voting w) as Hc.
    destruct (sessions (storage w) !! sid) as [sd|] eqn:Hsd.
    2:{ rewrite Hc. constructor. }
    destruct (inv_members _ Hinv sid) as [[ms Hms] _]; [by eauto|].
    rewrite Hms in Hc.
    destruct (Float.of_int (VotingSession.duration_minutes voting * 60)) as [d|].
    2:{ rewrite Hc. constructor. }
    destruct (Hc Hok) as (toks & end_time & vi & w' & Hrun & Htoks & Hs & Hv & Hm & Ha
                          & Hvi & _ & Hold & Hnew & Hperm).
    rewrite Hrun. cbn [fst snd].
    destruct Hok as [Hnd Hfresh]. unfold roster_of in Hnd, Hfresh.
    rewrite Hms in Hnd, Hfresh. cbn [default] in Hnd, Hfresh.
    eapply (effect_start _ sid voting sd vi (drawn_tokens env w (length ms))); try done.
    unfold roster_of. rewrite Hms. cbn. unfold drawn_tokens, drawn_from.
    by rewrite length_fmap, length_seq.
  - rewrite bind_ret_fst, bind_ret_snd.
    destruct (active_voting (storage w) !! sid) as [vi|] eqn:Hvi.
    + destruct (end_voting_with_window w sid vi Hinv Hvi) as (sd & Hsd & Hr & Hst).
      rewrite Hr, Hst. by constructor.
    + pose proof (end_voting_cases sid w) as Hc. cbv zeta in Hc. rewrite Hvi in Hc.
      rewrite Hc. constructor.
  - rewrite bind_ret_fst, bind_ret_snd.
    pose proof (auto_end_voting_cases sid w) as Hc.
    destruct (decide (window_active (storage w) sid)) as [Hact|Hact].
    + rewrite Hc. unfold window_active in Hact.
      destruct (active_voting (storage w) !! sid) as [vi|] eqn:Hvi; [|done].
      destruct (end_voting_with_window w sid vi Hinv Hvi) as (sd & Hsd & Hr & Hst).
      rewrite Hst.
      assert (Ho : (auto_end_voting sid w).1 = Return tt).
      { unfold auto_end_voting. rewrite bind_get_storage, Hvi.
        cbn in Hact. rewrite decide_True by congruence.
        rewrite bind_ret_fst. by rewrite Hr. }
      rewrite Ho. apply effect_auto_end; try done. cbn in Hact. congruence.
    + rewrite Hc. cbn. by constructor.
  - rewrite bind_ret_fst, bind_ret_snd.
    pose proof (submit_vote_cases env token choice w) as Hc. cbv zeta in Hc.
    destruct (tokens (storage w) !! token) as [td|] eqn:Htd.
    2:{ rewrite Hc. constructor. }
    destruct (TokenData.used td) eqn:Hused.
    { rewrite Hc. constructor. }
    destruct (decide (Float.gt _ _)).
    { rewrite Hc. constructor. }
    destruct (decide (window_active _ _)) as [Hact|Hact].
    2:{ rewrite Hc. constructor. }
    destruct (decide (choice ∈ choices)) as [Hch|Hch].
    2:{ rewrite Hc. constructor. }
    destruct Hc as (Hst & Hr & _).
    rewrite Hst, Hr by (by apply ledger_valid). by constructor.
Qed.

End Effects.

Lemma effect_inv st c o st' : storage_inv st → effect st c o st' → storage_inv st'.
Proof.
  intros Hinv Heff.
  destruct Heff as [| | ? ? sd vi drawn ? ? st' ? ? ? ? Hfresh | | | |].
  - done.
  - by apply storage_inv_create.
  - eapply (storage_inv_start st st' _ sd vi drawn); try done.
    apply Forall_forall. intros t Ht.
    by destruct (proj1 (Forall_forall _ _) Hfresh t Ht).
  - by apply storage_inv_close.
  - by apply storage_inv_close.
  - done.
  - by apply storage_inv_vote.
Qed.

Section Reachable.
Context (env : Env).

Lemma steps_inv w h w' :
  steps env w h w' → storage_inv (storage w) → storage_inv (storage w').
Proof.
  induction 1 as [|w h w' c Hsteps IH Hok]; intros Hinv; [done|].
  eapply effect_inv; [by apply IH|]. by apply dispatch_effect; [apply IH|].
Qed.

Lemma reaches_inv h w : reaches env h w → storage_inv (storage w).
Proof. intros Hr. eapply steps_inv; [done|]. apply storage_inv_empty. Qed.

Lemma steps_trans w1 h1 w2 h2 w3 :
  steps env w1 h1 w2 → steps env w2 h2 w3 → steps env w1 (h1 ++ h2) w3.
Proof.
  intros H1 H2. induction H2 as [|w h w' c Hsteps IH Hok].
  - by rewrite app_nil_r.
  - rewrite (assoc (++)). constructor; [by apply IH|done].
Qed.

Lemma steps_one w c :
  env_ok env c w → steps env w [(c, (dispatch env c w).1)] (dispatch env c w).2.
Proof. intros Hok. apply (steps_snoc env w [] w c); [constructor|done]. Qed.

Lemma steps_run cs : ∀ w,
  run_ok env cs w → steps env w (history env cs w) (run env cs w).2.
Proof.
  induction cs as [|c cs IH]; intros w Hok; [constructor|].
  destruct Hok as [Hc Hcs]. cbn [history run].
  destruct (dispatch env c w) as [o w1] eqn:Hd.
  cbn [fst snd] in *.
  specialize (IH w1 Hcs). destruct (run env cs w1) as [os w2].
  cbn [fst snd] in *.
  change ((c, o) :: history env cs w1) with ([(c, o)] ++ history env cs w1)%list.
  eapply steps_trans; [|exact IH].
  pose proof (steps_one w c Hc) as H1. by rewrite Hd in H1.
Qed.

End Reachable.

(** ** Tokens along a run *)

(** A used token stays used, with the same session. *)
Lemma effect_used st c o st' t td :
  effect st c o st' →
  tokens st !! t = Some td → TokenData.used td = true →
  ∃ td', tokens st' !! t = Some td' ∧ TokenData.used td' = true
         ∧ TokenData.session_id td' = TokenData.session_id td.
Proof.
  intros Heff Htd Hused.
  destruct Heff as [| | ? ? ? ? drawn ? ? st' ? ? ? ? Hfresh ? ? ? ? ? Hold | | | |
                    token ? td0 ? ? Htd0 Hused0]; eauto.
  - rewrite Hold; [by eauto|]. intros Hin.
    destruct (proj1 (Forall_forall _ _) Hfresh t Hin) as [_ Hnone]. congruence.
  - cbn. rewrite lookup_insert_ne; [by eauto|]. intros ->. congruence.
Qed.

(** The ledger of a session only grows, and a record of it stays. *)
Lemma effect_ledger st c o st' sid :
  storage_inv st → effect st c o st' →
  ∃ new, ledger_of st' sid = (ledger_of st sid ++ new)%list.
Proof.
  intros Hinv Heff.
  destruct Heff as [|? sid0 ? ? Hfresh| ? ? ? ? ? ? ? st' ? ? ? ? ? ? Hv | | | |
                    token choice td0 ts ?].
  - exists []. by rewrite app_nil_r.
  - exists []. rewrite app_nil_r. unfold ledger_of. cbn.
    destruct (decide (sid0 = sid)) as [<-|Hne]; [|by rewrite lookup_insert_ne].
    rewrite lookup_insert_eq. destruct (votes st !! sid0) eqn:Hvs; [|done].
    destruct (inv_votes _ Hinv sid0) as [? Hs]; [by eauto|congruence].
  - exists []. rewrite app_nil_r. unfold ledger_of. by rewrite Hv.
  - exists []. by rewrite app_nil_r.
  - exists []. by rewrite app_nil_r.
  - exists []. by rewrite app_nil_r.
  - unfold ledger_of at 1. cbn.
    destruct (decide (TokenData.session_id td0 = sid)) as [<-|Hne].
    + rewrite lookup_insert_eq. cbn. eauto.
    + rewrite lookup_insert_ne by done. exists []. by rewrite app_nil_r.
Qed.

Lemma effect_count st c o st' sid :
  storage_inv st → effect st c o st' →
  total_tokens st' sid
  = (total_tokens st sid
     + if opens sid (c, o) then length (roster_of st sid) else 0)%nat
  ∧ (is_Some (sessions st !! sid) →
     roster_of st' sid = roster_of st sid ∧ is_Some (sessions st' !! sid))
  ∧ (opens sid (c, o) = true → is_Some (sessions st !! sid)).
Proof.
  intros Hinv Heff. unfold total_tokens.
  destruct Heff as [c e|session sid0 ? ? Hfresh
                    | sid0 ? sd ? drawn ? ? st' Hsd Hlen ? ? ? Hs ? Hm ? ? ? ? Hperm
                    | sid0 sd ? Hsd | sid0 sd ? Hsd | |
                    token choice td0 ts va Htd0 Hused0].
  - split; [|split]; [|done|].
    + destruct c; cbn; lia.
    + by destruct c.
  - cbn [opens tokens]. split; [lia|]. split; [|done].
    intros Hs. assert (Hne : sid0 ≠ sid) by (intros ->; destruct Hs; congruence).
    unfold roster_of. cbn. by rewrite !lookup_insert_ne.
  - cbn [opens]. rewrite !Hperm. split; [|split].
    + rewrite decide_False by (by intros [_ [=]]).
      case_bool_decide as Hd.
      * subst sid0. rewrite decide_True by done. rewrite !length_app, Hlen.
        cbn [length]. lia.
      * rewrite decide_False by (by intros [? _]). rewrite !length_app.
        cbn [length]. lia.
    + intros Hsome. unfold roster_of. rewrite Hm, Hs. split; [done|].
      destruct (decide (sid0 = sid)) as [<-|Hne].
      * rewrite lookup_insert_eq. eauto.
      * by rewrite lookup_insert_ne.
    + case_bool_decide; [|done]. subst sid0. eauto.
  - cbn [opens closed_storage tokens sessions]. split; [lia|]. split; [|done].
    intros Hsome. split; [done|]. destruct (decide (sid0 = sid)) as [<-|Hne].
    + rewrite lookup_insert_eq. eauto.
    + by rewrite lookup_insert_ne.
  - cbn [opens closed_storage tokens sessions]. split; [lia|]. split; [|done].
    intros Hsome. split; [done|]. destruct (decide (sid0 = sid)) as [<-|Hne].
    + rewrite lookup_insert_eq. eauto.
    + by rewrite lookup_insert_ne.
  - cbn [opens]. split; [lia|]. done.
  - cbn [opens]. split; [|done].
    set (td' := TokenData.mk (TokenData.session_id td0) (TokenData.member_name td0) true
                  (TokenData.expires_at td0) (TokenData.created_at td0) (Some va)).
    pose proof (session_tokens_redeem (tokens st) token td0 td' sid true Htd0 Hused0
                  eq_refl eq_refl) as Ht.
    pose proof (session_tokens_redeem (tokens st) token td0 td' sid false Htd0 Hused0
                  eq_refl eq_refl) as Hf.
    cbn [vote_storage tokens]. fold td'.
    apply Permutation_length in Ht, Hf. rewrite !length_app in Ht, Hf.
    repeat case_decide; cbn [length] in Ht, Hf; try lia; exfalso; intuition congruence.
Qed.

Lemma effect_window st c o st' sid :
  effect st c o st' →
  opens sid (c, o) = true ∨ is_Some (active_voting st !! sid) →
  is_Some (active_voting st' !! sid).
Proof.
  intros Heff Hor.
  destruct Heff as [c e| | sid0 ? ? vi ? ? ? st' ? ? ? ? ? ? ? ? Ha | sid0 | sid0 | |].
  - destruct Hor as [Hop|]; [by destruct c|done].
  - by destruct Hor.
  - rewrite Ha. destruct (decide (sid0 = sid)) as [<-|Hne].
    + rewrite lookup_insert_eq. eauto.
    + rewrite lookup_insert_ne by done. destruct Hor as [Hop|]; [|done].
      cbn in Hop. by case_bool_decide.
  - cbn. destruct Hor as [|Hs]; [done|]. destruct (decide (sid0 = sid)) as [<-|Hne].
    + rewrite lookup_insert_eq. eauto.
    + by rewrite lookup_insert_ne.
  - cbn. destruct Hor as [|Hs]; [done|]. destruct (decide (sid0 = sid)) as [<-|Hne].
    + rewrite lookup_insert_eq. eauto.
    + by rewrite lookup_insert_ne.
  - by destruct Hor.
  - by destruct Hor.
Qed.

Lemma windows_opened_snoc sid h e :
  windows_opened sid (h ++ [e]) = (windows_opened sid h + if opens sid e then 1 else 0)%nat.
Proof.
  unfold windows_opened. rewrite filter_app, length_app. f_equal.
  rewrite filter_cons, filter_nil. destruct (opens sid e); by case_decide.
Qed.

Lemma total_final_results st sid :
  storage_inv st → VotesCount.total (final_results st sid) = total_tokens st sid.
Proof.
  intros Hinv. unfold final_results, VotesCount.total, total_tokens. cbn.
  pose proof (total_tally _ (ledger_valid st sid Hinv)) as Ht.
  unfold VotesCount.total, tally in Ht. cbn in Ht.
  pose proof (Permutation_length (inv_hashes st Hinv sid)) as Hl.
  rewrite !length_fmap in Hl. lia.
Qed.

Section RunLemmas.
Context (env : Env).

Lemma steps_used w1 h w2 t td :
  steps env w1 h w2 → storage_inv (storage w1) →
  tokens (storage w1) !! t = Some td → TokenData.used td = true →
  ∃ td', tokens (storage w2) !! t = Some td' ∧ TokenData.used td' = true
         ∧ TokenData.session_id td' = TokenData.session_id td.
Proof.
  intros Hsteps Hinv Htd Hused.
  induction Hsteps as [|w h w' c Hsteps IH Hok]; [by eauto|].
  destruct (IH Hinv Htd) as (td1 & Htd1 & Hused1 & Hsid1).
  pose proof (steps_inv env _ _ _ Hsteps Hinv) as Hinv'.
  destruct (effect_used _ _ _ _ t td1 (dispatch_effect env c w' Hinv' Hok) Htd1 Hused1)
    as (td2 & ? & ? & ?).
  exists td2. repeat split; try done. congruence.
Qed.

(** The tokens of a session are those issued by the windows opened on it:
    one per member of the roster and per window. *)
Lemma reaches_count h w sid :
  reaches env h w →
  (sessions (storage w) !! sid = None → windows_opened sid h = 0%nat)
  ∧ (windows_opened sid h ≠ 0%nat → is_Some (active_voting (storage w) !! sid))
  ∧ total_tokens (storage w) sid
    = (windows_opened sid h * length (roster_of (storage w) sid))%nat.
Proof.
  unfold reaches. intros Hsteps.
  remember initial_world as w0 eqn:Hw0.
  induction Hsteps as [w|w h w' c Hsteps IH Hok]; subst.
  { cbn. split; [done|]. split; [done|].
    unfold total_tokens. cbn. by rewrite !session_tokens_empty. }
  destruct (IH eq_refl) as (Hnone & Hwin & Htotal).
  pose proof (reaches_inv env _ _ Hsteps) as Hinv.
  pose proof (dispatch_effect env c w' Hinv Hok) as Heff.
  destruct (effect_count _ _ _ _ sid Hinv Heff) as (Hcount & Hroster & Hopens).
  rewrite windows_opened_snoc.
  set (e := (c, (dispatch env c w').1)) in *.
  split; [|split].
  - intros Hs'. destruct (sessions (storage w') !! sid) eqn:Hs.
    + destruct Hroster as [_ [? ?]]; [by eauto|]. congruence.
    + rewrite Hnone by done. destruct (opens sid e) eqn:Hop; [|done].
      destruct Hopens as [? ?]; [done|congruence].
  - intros Hne. apply (effect_window _ _ _ _ sid Heff).
    destruct (opens sid e) eqn:Hop; [by left|right].
    apply Hwin. lia.
  - rewrite Hcount, Htotal. destruct (sessions (storage w') !! sid) eqn:Hs.
    + destruct Hroster as [-> _]; [by eauto|]. destruct (opens sid e); lia.
    + rewrite Hnone by done. destruct (opens sid e) eqn:Hop; [|lia].
      destruct Hopens as [? ?]; [done|congruence].
Qed.

End RunLemmas.

Lemma filter_image_nil {A B} `{EqDecision B} (f : A → B) (l : list A) (b : B) :
  (∀ y, y ∈ l → f y ≠ b) → filter (λ b', b' = b) (f <$> l) = [].
Proof.
  induction l as [|a l IH]; intros Hne; [done|].
  rewrite fmap_cons, filter_cons, decide_False by (apply Hne; left).
  apply IH. intros y Hy. apply Hne. by right.
Qed.

(** In a duplicate-free list, the image of an element that shares it with no
    other element occurs once among the images. *)
Lemma count_image_once {A B} `{EqDecision B} (f : A → B) (l : list A) (x : A) :
  NoDup l → x ∈ l → (∀ y, y ∈ l → f y = f x → y = x) →
  length (filter (λ b, b = f x) (f <$> l)) = 1%nat.
Proof.
  intros Hnd. revert x. induction Hnd as [|a l Hnotin Hnd IH]; intros x Hin Hinj.
  { by apply elem_of_nil in Hin. }
  rewrite fmap_cons, filter_cons.
  apply elem_of_cons in Hin as [->|Hin].
  - rewrite decide_True by done. cbn [length]. f_equal.
    rewrite filter_image_nil; [done|].
    intros y Hy Heq. assert (y = a) as -> by (apply Hinj; [by right|done]). done.
  - rewrite decide_False.
    + apply IH; [done|]. intros y Hy. apply Hinj. by right.
    + intros Heq. assert (a = x) as -> by (apply Hinj; [by left|done]). done.
Qed.

(** * The voting session engine *)

(** The example worlds are reached by the engine. *)
Lemma closing_calls_ok : run_ok (example_env t0) closing_calls initial_world.
Proof. apply (bool_decide_unpack _). vm_compute. exact I. Defined.

Lemma voting_calls_ok : run_ok (example_env t0) voting_calls initial_world.
Proof. apply (bool_decide_unpack _). vm_compute. exact I. Defined.

Lemma opening_calls_ok : run_ok (example_env t0) opening_calls initial_world.
Proof. apply (bool_decide_unpack _). vm_compute. exact I. Defined.

Lemma closed_world_reached :
  reaches (example_env t0) (history (example_env t0) closing_calls initial_world) closed_world.
Proof. apply steps_run, closing_calls_ok. Defined.

Lemma voted_world_reached :
  reaches (example_env t0) (history (example_env t0) voting_calls initial_world) voted_world.
Proof. apply steps_run, voting_calls_ok. Defined.

Lemma opened_world_reached :
  reaches (example_env t0) (history (example_env t0) opening_calls initial_world) opened_world.
Proof. apply steps_run, opening_calls_ok. Defined.

(** ** Failed submissions *)

(** C7. When [submit_vote] fails in a world the engine reaches, it raises one
    of its five typed errors, each under its own condition (unknown token,
    used token, expired token, window not active, invalid choice), and the
    storage is left as it was: neither the ledger nor the [used] flag of any
    token changes. *)
Theorem submit_vote_failure_mutates_nothing env h w token choice e w' :
  reaches env h w →
  submit_vote env token choice w = (Raise e, w') →
  storage w' = storage w
  ∧ ((e = NotFound_token ∧ tokens (storage w) !! token = None)
     ∨ ∃ td, tokens (storage w) !! token = Some td
         ∧ ((e = AlreadyUsed ∧ TokenData.used td = true)
            ∨ (TokenData.used td = false
               ∧ ((e = Expired
                   ∧ Float.gt (env_time env (n_time w)) (TokenData.expires_at td))
                  ∨ (¬ Float.gt (env_time env (n_time w)) (TokenData.expires_at td)
                     ∧ ((e = InvalidState_vote
                         ∧ ¬ window_active (storage w) (TokenData.session_id td))
                        ∨ (e = InvalidChoice
                           ∧ window_active (storage w) (TokenData.session_id td)
                           ∧ choice ∉ choices))))))).
Proof.
  intros Hreach Hrun. pose proof (reaches_inv env h w Hreach) as Hinv.
  pose proof (submit_vote_cases env token choice w) as Hc. cbv zeta in Hc.
  rewrite Hrun in Hc.
  destruct (tokens (storage w) !! token) as [td|] eqn:Htd.
  2:{ injection Hc as -> ->. split; [done|]. by left. }
  destruct (TokenData.used td) eqn:Hused.
  { injection Hc as -> ->. split; [done|]. right. exists td. split; [done|]. by left. }
  destruct (decide (Float.gt _ _)) as [Hexp|Hexp].
  { injection Hc as -> ->. split; [done|]. right. exists td. split; [done|]. right.
    split; [done|]. by left. }
  destruct (decide (window_active _ _)) as [Hact|Hact].
  2:{ injection Hc as -> ->. split; [done|]. right. exists td. split; [done|]. right.
      split; [done|]. right. split; [done|]. by left. }
  destruct (decide (choice ∈ choices)) as [Hch|Hch].
  2:{ injection Hc as -> ->. split; [done|]. right. exists td. split; [done|]. right.
      split; [done|]. right. split; [done|]. by right. }
  destruct Hc as (_ & Hr & _). cbn [fst] in Hr.
  by specialize (Hr (ledger_valid _ _ Hinv)).
Qed.

Lemma submit_vote_failure_mutates_nothing_witness :
  storage (submit_vote (example_env t0) alice_token "против" voted_world).2
  = storage voted_world.
Proof.
  eapply (submit_vote_failure_mutates_nothing (example_env t0) _ voted_world
            alice_token "против" AlreadyUsed).
  - exact voted_world_reached.
  - vm_compute. reflexivity.
Defined.


(** ** Submissions after the window was closed *)

(** C5, as stated, fails: for a token that was already used, a submission
    after the window was closed is rejected with "token already used", not
    with "voting not active". *)
Lemma submit_vote_after_close_counterexample :
  reaches (example_env t0) (history (example_env t0) closing_calls initial_world) closed_world
  ∧ (TokenData.session_id <$> tokens (storage closed_world) !! alice_token) = Some example_sid
  ∧ window_completed (storage closed_world) example_sid
  ∧ (submit_vote (example_env t0) alice_token "против" closed_world).1 = Raise AlreadyUsed
  ∧ (submit_vote (example_env t0) alice_token "против" closed_world).1
    ≠ Raise InvalidState_vote.
Proof.
  split; [exact closed_world_reached|].
  split; [vm_compute; reflexivity|]. split; [vm_compute; reflexivity|].
  split; [vm_compute; reflexivity|]. vm_compute. discriminate.
Qed.

(** C5, amended. For every token of a session, whenever the window of the
    session is closed (status "completed"), [submit_vote] fails and leaves
    the storage, hence the ledger, as it was.  The error is that of the first
    check that fails: "token already used" for a used token, else "token
    expired" when the clock is past the expiry time, else "voting not
    active".  The condition is on the state in which the vote is submitted:
    a closed window is not closed for ever, since [start_voting] opens a new
    one on the session. *)
Theorem submit_vote_after_close_fails env w token choice td :
  tokens (storage w) !! token = Some td →
  window_completed (storage w) (TokenData.session_id td) →
  ∃ w', submit_vote env token choice w
        = (Raise (if TokenData.used td then AlreadyUsed
                  else if decide (Float.gt (env_time env (n_time w)) (TokenData.expires_at td))
                       then Expired else InvalidState_vote), w')
        ∧ storage w' = storage w.
Proof.
  intros Htd Hclosed.
  pose proof (submit_vote_cases env token choice w) as Hc. cbv zeta in Hc.
  rewrite Htd in Hc.
  destruct (TokenData.used td); [by eauto|].
  destruct (decide (Float.gt _ _)); [by eauto|].
  rewrite decide_False in Hc; [by eauto|].
  unfold window_active, window_completed in *. rewrite Hclosed. by intros [=].
Qed.

Lemma submit_vote_after_close_fails_witness :
  ∃ w', submit_vote (example_env t0) carol_token "за" closed_world
        = (Raise InvalidState_vote, w')
        ∧ storage w' = storage closed_world.
Proof.
  apply (submit_vote_after_close_fails (example_env t0) closed_world carol_token "за"
           (TokenData.mk example_sid "carol" false (Float.of_Z (t0 + 4 + 60 + 300))
              (Float.of_Z (t0 + 5)) None)).
  - vm_compute. reflexivity.
  - vm_compute. reflexivity.
Defined.

(** ** Counting *)

(** C9. The fold of [end_voting] and [submit_vote] over a ledger does not
    depend on the order of the records: a ledger and any permutation of it
    give the same counts. *)
Theorem tally_order_independent (ledger ledger' : list VoteRecord.t) c w :
  ledger ≡ₚ ledger' →
  Forall (λ v, VoteRecord.choice v ∈ choices) ledger →
  ∃ counts, count_votes ledger c w = (Return counts, w)
            ∧ count_votes ledger' c w = (Return counts, w).
Proof.
  intros Hperm Hvalid. exists (add_counts c (tally ledger)).
  split; [by apply count_votes_valid|].
  rewrite count_votes_valid by (by rewrite <- Hperm).
  unfold tally, count_choice. by rewrite Hperm.
Qed.

Lemma tally_order_independent_witness :
  ∃ counts,
    count_votes [VoteRecord.mk example_sid "за" (Float.of_Z 1) "aa"; VoteRecord.mk example_sid "против" (Float.of_Z 2) "bb";
                 VoteRecord.mk example_sid "за" (Float.of_Z 3) "cc"] VotesCount.zero initial_world
    = (Return counts, initial_world)
    ∧ count_votes [VoteRecord.mk example_sid "за" (Float.of_Z 3) "cc"; VoteRecord.mk example_sid "за" (Float.of_Z 1) "aa";
                   VoteRecord.mk example_sid "против" (Float.of_Z 2) "bb"] VotesCount.zero initial_world
      = (Return counts, initial_world).
Proof.
  apply tally_order_independent.
  - symmetry.
    exact (Permutation_cons_append
             [VoteRecord.mk example_sid "за" (Float.of_Z 1) "aa"; VoteRecord.mk example_sid "против" (Float.of_Z 2) "bb"]
             (VoteRecord.mk example_sid "за" (Float.of_Z 3) "cc")).
  - apply (bool_decide_unpack _). vm_compute. exact I.
Defined.

(** ** Creating a session *)

(** C8, as stated, fails: [create_session] accepts an empty list of members
    and creates the session. *)
Lemma create_session_empty_roster_counterexample :
  Session.members empty_session = []
  ∧ (create_session (example_env t0) empty_session initial_world).1
    = Return (CreateSessionResponse example_sid "success")
  ∧ is_Some (sessions (storage (create_session (example_env t0) empty_session
                                  initial_world).2) !! example_sid).
Proof.
  split; [reflexivity|]. split; [vm_compute; reflexivity|].
  vm_compute. eauto.
Qed.

(** C8, amended. [create_session] succeeds for every list of members, empty
    or not: it takes the identifier delivered by the generator, registers the
    session under it with the status "created", stores the members as its
    roster and initializes its ledger to the empty list; it touches neither
    the tokens nor the windows, nor the entries of other identifiers. *)
Theorem create_session_any_roster env session w :
  let sid := env_uuid4 env (n_uuid w) in
  let r := create_session env session w in
  r.1 = Return (CreateSessionResponse sid "success")
  ∧ sessions (storage r.2) !! sid
    = Some (SessionData.mk sid (Session.title session) (Session.description session)
              (env_now_isoformat env (n_now w)) "created")
  ∧ members (storage r.2) !! sid = Some (Session.members session)
  ∧ votes (storage r.2) !! sid = Some []
  ∧ tokens (storage r.2) = tokens (storage w)
  ∧ active_voting (storage r.2) = active_voting (storage w)
  ∧ (∀ sid', sid' ≠ sid →
       sessions (storage r.2) !! sid' = sessions (storage w) !! sid'
       ∧ members (storage r.2) !! sid' = members (storage w) !! sid'
       ∧ votes (storage r.2) !! sid' = votes (storage w) !! sid').
Proof.
  cbv zeta. destruct (create_session_spec env session w) as (Hr & Hst & _).
  rewrite Hr, Hst. cbn [sessions tokens votes members active_voting].
  rewrite !lookup_insert_eq. repeat split; try done.
  all: by rewrite lookup_insert_ne.
Qed.


(** ** Closing the window *)

(** C6. In a world the engine reaches, [end_voting] on a session that has a
    window returns and records the fold of the ledger of the session, with
    one more abstention per token of the session that is not used when the
    window is closed: "за" and "против" are the counts of the ledger alone,
    "воздержался" is the count of the ledger plus the number of unused
    tokens. *)
Theorem end_voting_final_tally env h w session_id :
  reaches env h w →
  is_Some (active_voting (storage w) !! session_id) →
  ∃ counted results w',
    count_votes (ledger_of (storage w) session_id) VotesCount.zero w = (Return counted, w)
    ∧ counted = tally (ledger_of (storage w) session_id)
    ∧ end_voting session_id w = (Return (EndVotingResponse "success" results), w')
    ∧ VotesCount.za results = VotesCount.za counted
    ∧ VotesCount.protiv results = VotesCount.protiv counted
    ∧ VotesCount.vozderzhalsya results
      = (VotesCount.vozderzhalsya counted
         + length (session_tokens session_id false (tokens (storage w))))%nat
    ∧ length (session_tokens session_id false (tokens (storage w)))
      = count_unused_tokens session_id (tokens (storage w))
    ∧ (VotingInfo.results <$> active_voting (storage w') !! session_id) = Some (Some results).
Proof.
  intros Hreach [vi Hvi]. pose proof (reaches_inv env h w Hreach) as Hinv.
  destruct (end_voting_with_window w session_id vi Hinv Hvi) as (sd & Hsd & Hr & Hst).
  destruct (end_voting session_id w) as [o w'] eqn:Hrun. cbn [fst snd] in Hr, Hst. subst o.
  exists (tally (ledger_of (storage w) session_id)),
         (final_results (storage w) session_id), w'.
  split; [by apply count_votes_zero_valid, ledger_valid|].
  do 5 (split; [done|]).
  split; [by rewrite count_unused_tokens_length|].
  rewrite Hst. cbn. by rewrite lookup_insert_eq.
Qed.

Lemma end_voting_final_tally_witness :
  ∃ counted results w',
    count_votes (ledger_of (storage voted_world) example_sid) VotesCount.zero voted_world
    = (Return counted, voted_world)
    ∧ counted = tally (ledger_of (storage voted_world) example_sid)
    ∧ end_voting example_sid voted_world
      = (Return (EndVotingResponse "success" results), w')
    ∧ VotesCount.za results = VotesCount.za counted
    ∧ VotesCount.protiv results = VotesCount.protiv counted
    ∧ VotesCount.vozderzhalsya results
      = (VotesCount.vozderzhalsya counted
         + length (session_tokens example_sid false (tokens (storage voted_world))))%nat
    ∧ length (session_tokens example_sid false (tokens (storage voted_world)))
      = count_unused_tokens example_sid (tokens (storage voted_world))
    ∧ (VotingInfo.results <$> active_voting (storage w') !! example_sid)
      = Some (Some results).
Proof.
  apply (end_voting_final_tally (example_env t0) _ voted_world example_sid
           voted_world_reached).
  vm_compute. eauto.
Defined.

(** The scenario of the specification: three members, two vote "за", one
    never votes; closing the window gives the results 2, 0, 1. *)
Example end_voting_scenario :
  (end_voting example_sid voted_world).1
  = Return (EndVotingResponse "success" (VotesCount.mk 2 0 1)).
Proof. vm_compute. reflexivity. Qed.

(** In a world the engine reaches, the results of a session add up to the
    number of its tokens. *)
Lemma total_final_results_reached env h w session_id :
  reaches env h w →
  VotesCount.total (final_results (storage w) session_id)
  = (windows_opened session_id h * length (roster_of (storage w) session_id))%nat.
Proof.
  intros Hreach. rewrite total_final_results by (by eapply reaches_inv).
  by destruct (reaches_count env h w session_id Hreach) as (_ & _ & ->).
Qed.

(** C4. When exactly one voting window was opened on a session, whatever
    votes were submitted, closing the window returns and records results
    whose three counts add up to the size of the roster of the session. *)
Theorem results_total_is_roster_size env h w session_id :
  reaches env h w →
  windows_opened session_id h = 1%nat →
  ∃ results w',
    end_voting session_id w = (Return (EndVotingResponse "success" results), w')
    ∧ (VotingInfo.results <$> active_voting (storage w') !! session_id) = Some (Some results)
    ∧ (VotesCount.za results + VotesCount.protiv results
       + VotesCount.vozderzhalsya results)%nat
      = length (roster_of (storage w) session_id).
Proof.
  intros Hreach Hone. pose proof (reaches_inv env h w Hreach) as Hinv.
  destruct (reaches_count env h w session_id Hreach) as (_ & Hwin & _).
  destruct Hwin as [vi Hvi]; [lia|].
  destruct (end_voting_with_window w session_id vi Hinv Hvi) as (sd & Hsd & Hr & Hst).
  destruct (end_voting session_id w) as [o w'] eqn:Hrun. cbn [fst snd] in Hr, Hst. subst o.
  exists (final_results (storage w) session_id), w'.
  split; [done|]. split.
  - rewrite Hst. cbn. by rewrite lookup_insert_eq.
  - pose proof (total_final_results_reached env h w session_id Hreach) as Ht.
    unfold VotesCount.total in Ht. rewrite Ht, Hone. lia.
Qed.

Lemma results_total_is_roster_size_witness :
  ∃ results w',
    end_voting example_sid voted_world
    = (Return (EndVotingResponse "success" results), w')
    ∧ (VotingInfo.results <$> active_voting (storage w') !! example_sid)
      = Some (Some results)
    ∧ (VotesCount.za results + VotesCount.protiv results
       + VotesCount.vozderzhalsya results)%nat
      = length (roster_of (storage voted_world) example_sid).
Proof.
  apply (results_total_is_roster_size (example_env t0) _ voted_world example_sid
           voted_world_reached).
  vm_compute. reflexivity.
Defined.

(** The results recorded for a closed window add up to the size of the roster
    when one window was opened on the session. *)
Lemma recorded_results_total env h w session_id vi :
  reaches env h w →
  windows_opened session_id h = 1%nat →
  active_voting (storage w) !! session_id = Some vi →
  VotingInfo.status vi = "completed" →
  ∃ results, VotingInfo.results vi = Some results
    ∧ VotesCount.total results = length (roster_of (storage w) session_id).
Proof.
  intros Hreach Hone Hvi Hstatus. pose proof (reaches_inv env h w Hreach) as Hinv.
  destruct (inv_results _ Hinv session_id vi Hvi) as [Hact|[_ Hres]]; [congruence|].
  exists (final_results (storage w) session_id). split; [done|].
  rewrite (total_final_results_reached env h w session_id Hreach), Hone. lia.
Qed.

(** On a window that was already closed, [end_voting] does not fail: it
    succeeds again, with the results already recorded, and changes neither
    the window nor the ledger nor the tokens. *)
Lemma end_voting_completed_again env h w session_id :
  reaches env h w →
  window_completed (storage w) session_id →
  ∃ results w',
    end_voting session_id w = (Return (EndVotingResponse "success" results), w')
    ∧ (VotingInfo.results <$> active_voting (storage w) !! session_id) = Some (Some results)
    ∧ active_voting (storage w') = active_voting (storage w)
    ∧ votes (storage w') = votes (storage w)
    ∧ tokens (storage w') = tokens (storage w).
Proof.
  intros Hreach Hclosed. pose proof (reaches_inv env h w Hreach) as Hinv.
  unfold window_completed in Hclosed.
  destruct (active_voting (storage w) !! session_id) as [vi|] eqn:Hvi; [|done].
  cbn in Hclosed. injection Hclosed as Hstatus.
  destruct (inv_results _ Hinv session_id vi Hvi) as [Hact|[_ Hres]]; [congruence|].
  destruct (end_voting_with_window w session_id vi Hinv Hvi) as (sd & Hsd & Hr & Hst).
  destruct (end_voting session_id w) as [o w'] eqn:Hrun. cbn [fst snd] in Hr, Hst. subst o.
  exists (final_results (storage w) session_id), w'.
  split; [done|]. split; [by rewrite <- Hres|].
  rewrite Hst. cbn. repeat split.
  apply insert_id. rewrite Hvi. f_equal. destruct vi. cbn in *. by subst.
Qed.

(** C3. Closing twice in a row: the second [end_voting] on the example
    session does not fail with an error; it returns "success" with the same
    results, and leaves the recorded results as they were. *)
Theorem end_voting_twice_succeeds :
  window_completed (storage closed_world) example_sid
  ∧ (VotingInfo.results <$> active_voting (storage closed_world) !! example_sid)
    = Some (Some (VotesCount.mk 2 0 1))
  ∧ (end_voting example_sid closed_world).1
    = Return (EndVotingResponse "success" (VotesCount.mk 2 0 1))
  ∧ active_voting (storage (end_voting example_sid closed_world).2)
    = active_voting (storage closed_world).
Proof.
  split; [vm_compute; reflexivity|]. split; [vm_compute; reflexivity|].
  split; vm_compute; reflexivity.
Qed.


(** ** Opening a window *)

(** C2, as stated, fails: on the example session, whose window is active,
    [start_voting] does not fail; it returns "success" and the token store
    grows from three to six tokens. *)
Lemma start_voting_active_window_counterexample :
  window_active (storage opened_world) example_sid
  ∧ (∃ toks end_time,
       (start_voting (example_env t0) example_sid example_voting opened_world).1
       = Return (StartVotingResponse "success" toks end_time))
  ∧ size (tokens (storage opened_world)) = 3%nat
  ∧ size (tokens (storage (start_voting (example_env t0) example_sid example_voting
                             opened_world).2)) = 6%nat.
Proof.
  split; [vm_compute; reflexivity|].
  split; [eexists _, _; vm_compute; reflexivity|].
  split; vm_compute; reflexivity.
Qed.


(** ** Redeeming a token *)

(** A successful [submit_vote] redeems an unused token of a session with an
    active window, for a valid choice. *)
Lemma submit_vote_success env token choice w r w' :
  submit_vote env token choice w = (Return r, w') →
  ∃ td, tokens (storage w) !! token = Some td
    ∧ TokenData.used td = false
    ∧ window_active (storage w) (TokenData.session_id td)
    ∧ choice ∈ choices
    ∧ storage w' = vote_storage (storage w) token td choice
                     (env_time env (S (n_time w))) (env_time env (S (S (n_time w)))).
Proof.
  intros Hrun. pose proof (submit_vote_cases env token choice w) as Hc. cbv zeta in Hc.
  rewrite Hrun in Hc.
  destruct (tokens (storage w) !! token) as [td|]; [|done].
  destruct (TokenData.used td) eqn:Hused; [done|].
  destruct (decide (Float.gt _ _)); [done|].
  destruct (decide (window_active _ _)); [|done].
  destruct (decide (choice ∈ choices)); [|done].
  destruct Hc as (Hst & _). by exists td.
Qed.

Lemma length_filter_image {A B} `{EqDecision B} (f : A → B) (l : list A) (b : B) :
  length (filter (λ a, f a = b) l) = length (filter (λ b', b' = b) (f <$> l)).
Proof.
  induction l as [|a l IH]; [done|].
  rewrite fmap_cons, !filter_cons. case_decide; cbn [length]; by rewrite IH.
Qed.

(** C1. A token is redeemed at most once. After a successful [submit_vote]
    with a token, in every world the engine reaches later the token is still
    marked as used, every [submit_vote] with it is rejected with "token
    already used" and changes nothing, and, when no other issued token has
    the same SHA-256 digest, the ledger of its session holds exactly one
    record with the hash of the token. *)
Theorem submit_vote_at_most_once env h w token choice r w1 h' w2 :
  reaches env h w →
  submit_vote env token choice w = (Return r, w1) →
  steps env w1 h' w2 →
  map_Forall (λ t' _, hash_token t' = hash_token token → t' = token)
    (tokens (storage w2)) →
  ∃ td, tokens (storage w2) !! token = Some td
    ∧ TokenData.used td = true
    ∧ (∀ choice', submit_vote env token choice' w2 = (Raise AlreadyUsed, w2))
    ∧ length (filter (λ v, VoteRecord.token_hash v = hash_token token)
                (ledger_of (storage w2) (TokenData.session_id td))) = 1%nat.
Proof.
  intros Hreach Hrun Hsteps Hinj. pose proof (reaches_inv env h w Hreach) as Hinv.
  destruct (submit_vote_success env token choice w r w1 Hrun)
    as (td0 & Htd0 & Hused0 & Hact & Hch & Hst).
  assert (Hinv1 : storage_inv (storage w1)).
  { rewrite Hst. by apply storage_inv_vote. }
  assert (Htd1 : ∃ td1, tokens (storage w1) !! token = Some td1
                        ∧ TokenData.used td1 = true).
  { rewrite Hst. cbn. rewrite lookup_insert_eq. eauto. }
  destruct Htd1 as (td1 & Htd1 & Hused1).
  destruct (steps_used env w1 h' w2 token td1 Hsteps Hinv1 Htd1 Hused1)
    as (td & Htd & Hused & _).
  pose proof (steps_inv env w1 h' w2 Hsteps Hinv1) as Hinv2.
  exists td. split; [done|]. split; [done|]. split.
  - intros choice'.
    pose proof (submit_vote_cases env token choice' w2) as Hc. cbv zeta in Hc.
    by rewrite Htd, Hused in Hc.
  - set (sid := TokenData.session_id td).
    transitivity (length (filter (λ b, b = hash_token token)
                            (VoteRecord.token_hash <$> ledger_of (storage w2) sid))).
    { apply (length_filter_image VoteRecord.token_hash). }
    rewrite (inv_hashes _ Hinv2 sid).
    apply count_image_once.
    + apply NoDup_session_tokens.
    + apply elem_of_session_tokens. by exists td.
    + intros t' Ht' Heq. apply elem_of_session_tokens in Ht' as (td' & Htd' & _).
      by apply (Hinj t' td' Htd').
Qed.

Lemma submit_vote_at_most_once_witness :
  let env := example_env t0 in
  let w1 := (submit_vote env alice_token "за" opened_world).2 in
  let later := [SubmitVote bob_token "за"; SubmitVote alice_token "против";
                EndVoting example_sid] in
  let w2 := (run env later w1).2 in
  ∃ td, tokens (storage w2) !! alice_token = Some td
    ∧ TokenData.used td = true
    ∧ (∀ choice', submit_vote env alice_token choice' w2 = (Raise AlreadyUsed, w2))
    ∧ length (filter (λ v, VoteRecord.token_hash v = hash_token alice_token)
                (ledger_of (storage w2) (TokenData.session_id td))) = 1%nat.
Proof.
  intros env w1 later w2.
  apply (submit_vote_at_most_once env _ opened_world alice_token "за"
           (SubmitVoteResponse "success" "Голос принят") w1
           (history env later w1) w2 opened_world_reached).
  - vm_compute. reflexivity.
  - apply steps_run. apply (bool_decide_unpack _). vm_compute. exact I.
  - apply (bool_decide_unpack _). vm_compute. exact I.
Defined.

(** ** The ledger and the tokens *)

Lemma hash_token_length token : String.length (hash_token token) = 64%nat.
Proof.
  unfold hash_token, SHA256.hexdigest.
  by destruct (SHA256.digest (SHA256.bytes_of_string token)).
Qed.

Lemma choices_length choice :
  choice ∈ choices → String.length choice ≠ 43%nat.
Proof.
  unfold choices. rewrite !elem_of_cons, elem_of_nil.
  intros [->|[->|[->|[]]]]; cbn; lia.
Qed.

(** C10. In every world the engine reaches, every record of the ledger of a
    session carries the identifier of the session, one of the three choices
    and, as its [token_hash], the SHA-256 digest of a used token of the
    session; none of these fields is equal to a token of the store (a token
    has 43 characters, a digest 64 and a session identifier 36); and the
    ledger of a session has as many records as the session has used tokens.
    A successful [submit_vote] appends exactly one such record, for the token
    it was given, and marks exactly that token as used. *)
Theorem ledger_holds_hashes_only env h w :
  reaches env h w →
  (∀ sid v, v ∈ ledger_of (storage w) sid →
     VoteRecord.session_id v = sid
     ∧ VoteRecord.choice v ∈ choices
     ∧ (∃ t td, tokens (storage w) !! t = Some td
                ∧ TokenData.session_id td = sid ∧ TokenData.used td = true
                ∧ VoteRecord.token_hash v = hash_token t)
     ∧ (∀ t, is_Some (tokens (storage w) !! t) →
          VoteRecord.session_id v ≠ t ∧ VoteRecord.choice v ≠ t
          ∧ VoteRecord.token_hash v ≠ t))
  ∧ (∀ sid, length (ledger_of (storage w) sid)
            = length (session_tokens sid true (tokens (storage w))))
  ∧ (∀ token choice r w', submit_vote env token choice w = (Return r, w') →
       ∃ td timestamp voted_at,
         tokens (storage w) !! token = Some td
         ∧ TokenData.used td = false
         ∧ sessions (storage w') = sessions (storage w)
         ∧ members (storage w') = members (storage w)
         ∧ active_voting (storage w') = active_voting (storage w)
         ∧ votes (storage w')
           = <[TokenData.session_id td :=
                 (ledger_of (storage w) (TokenData.session_id td)
                  ++ [VoteRecord.mk (TokenData.session_id td) choice timestamp
                        (hash_token token)])%list]> (votes (storage w))
         ∧ tokens (storage w')
           = <[token := TokenData.mk (TokenData.session_id td) (TokenData.member_name td)
                          true (TokenData.expires_at td) (TokenData.created_at td)
                          (Some voted_at)]> (tokens (storage w))).
Proof.
  intros Hreach. pose proof (reaches_inv env h w Hreach) as Hinv.
  split; [|split].
  - intros sid v Hv. destruct (inv_ledger _ Hinv sid v Hv) as [Hsid Hch].
    assert (Hhash : VoteRecord.token_hash v
                    ∈ hash_token <$> session_tokens sid true (tokens (storage w))).
    { rewrite <- (inv_hashes _ Hinv sid). by apply list_elem_of_fmap_2. }
    apply list_elem_of_fmap in Hhash as (t0' & Hv0 & Ht0).
    apply elem_of_session_tokens in Ht0 as (td0 & Htd0 & Hsid0 & Hused0).
    split; [done|]. split; [done|]. split; [by exists t0', td0|].
    intros t [td Htd]. destruct (inv_token _ Hinv t td Htd) as [H43 _].
    assert (H36 : String.length sid = 36%nat).
    { apply (inv_session_id _ Hinv), (inv_votes _ Hinv).
      unfold ledger_of in Hv. destruct (votes (storage w) !! sid); [by eauto|].
      by apply elem_of_nil in Hv. }
    split; [|split].
    + intros Heq. rewrite Hsid in Heq. subst t. lia.
    + intros Heq. subst t. by apply (choices_length _ Hch).
    + intros Heq. rewrite Hv0 in Heq. subst t.
      rewrite hash_token_length in H43. lia.
  - intros sid. pose proof (Permutation_length (inv_hashes _ Hinv sid)) as Hl.
    by rewrite !length_fmap in Hl.
  - intros token choice r w' Hrun.
    destruct (submit_vote_success env token choice w r w' Hrun)
      as (td & Htd & Hused & _ & _ & Hst).
    exists td, (env_time env (S (n_time w))), (env_time env (S (S (n_time w)))).
    rewrite Hst. by repeat split.
Qed.

Lemma ledger_holds_hashes_only_witness :
  length (ledger_of (storage voted_world) example_sid)
  = length (session_tokens example_sid true (tokens (storage voted_world))).
Proof.
  apply (ledger_holds_hashes_only (example_env t0) _ voted_world voted_world_reached).
Defined.


(** * The connection manager *)

Module ConnectionManagerFacts.
Import ConnectionManager.

Lemma remove_not_in x l : x ∉ l → remove x l = l.
Proof.
  induction l as [|y l IH]; [done|]. intros Hx. apply not_elem_of_cons in Hx as [Hne Hx].
  cbn. rewrite decide_False by done. by rewrite IH.
Qed.

Lemma remove_disconnected_cons ds x l :
  x ∉ ds → remove_disconnected ds (x :: l) = x :: remove_disconnected ds l.
Proof.
  revert l. induction ds as [|d ds IH]; intros l Hx; [done|].
  apply not_elem_of_cons in Hx as [Hne Hx]. cbn [remove_disconnected].
  destruct (decide (d ∈ l)) as [Hin|Hnotin].
  - rewrite decide_True by (by right). cbn [remove].
    rewrite decide_False by done. by apply IH.
  - rewrite decide_False by (rewrite elem_of_cons; intros [?|?]; congruence).
    by apply IH.
Qed.

(** Removing, one occurrence at a time, the members of a list that satisfy
    [P] leaves those that do not, in their order. *)
Lemma remove_disconnected_filter (P : nat → Prop) `{∀ x, Decision (P x)} l :
  remove_disconnected (filter P l) l = filter (λ x, ¬ P x) l.
Proof.
  induction l as [|x l IH]; [done|].
  rewrite !filter_cons. destruct (decide (P x)) as [HP|HP].
  - rewrite decide_False by (by intros Hn). cbn [remove_disconnected].
    rewrite decide_True by left. cbn [remove]. by rewrite decide_True.
  - rewrite decide_True by done. rewrite remove_disconnected_cons; [by rewrite IH|].
    intros Hin. by apply list_elem_of_filter in Hin as [? _].
Qed.

Lemma received_send_text c msg net net' c' :
  send_text c msg net = Some net' →
  closed net' = closed net ∧ (c ∉ closed net)
  ∧ received net' c' = (received net c' ++ (if decide (c' = c) then [msg] else []))%list.
Proof.
  unfold send_text. case_decide as Hc; [done|]. intros [= <-]. cbn.
  split; [done|]. split; [done|]. unfold received. cbn.
  destruct (decide (c' = c)) as [->|Hne].
  - by rewrite lookup_insert_eq.
  - rewrite lookup_insert_ne by done. by rewrite app_nil_r.
Qed.

(** The sending loop: every open socket receives the message once per
    occurrence in the list, the closed sockets are collected in their order. *)
Lemma send_all_spec l msg : ∀ net disconnected,
  ∃ net', send_all l msg net disconnected
          = (net', (disconnected ++ filter (λ c, c ∈ closed net) l)%list)
    ∧ closed net' = closed net
    ∧ ∀ c, received net' c
           = (received net c
              ++ replicate (if decide (c ∈ closed net) then 0 else occurrences c l) msg)%list.
Proof.
  induction l as [|x l IH]; intros net disconnected.
  { exists net. cbn. rewrite !app_nil_r. split; [done|]. split; [done|].
    intros c. case_decide; cbn; by rewrite app_nil_r. }
  cbn [send_all]. destruct (send_text x msg net) as [net1|] eqn:Hsend.
  - destruct (received_send_text x msg net net1 x Hsend) as (Hcl & Hopen & _).
    destruct (IH net1 disconnected) as (net' & Hrun & Hcl' & Hrec).
    exists net'. rewrite Hrun, Hcl. rewrite filter_cons, decide_False by done.
    split; [done|]. split; [congruence|].
    intros c. rewrite Hrec, Hcl.
    destruct (received_send_text x msg net net1 c Hsend) as (_ & _ & ->).
    unfold occurrences. rewrite filter_cons.
    destruct (decide (c ∈ closed net)) as [Hc|Hc].
    + rewrite decide_False by (intros ->; done). by rewrite app_nil_r.
    + destruct (decide (c = x)) as [->|Hne].
      * rewrite decide_True by done. cbn. by rewrite <- (assoc (++)).
      * rewrite decide_False by congruence. by rewrite app_nil_r.
  - assert (Hx : x ∈ closed net).
    { unfold send_text in Hsend. by case_decide. }
    destruct (IH net (disconnected ++ [x])%list) as (net' & Hrun & Hcl' & Hrec).
    exists net'. rewrite Hrun. rewrite filter_cons, decide_True by done.
    split; [by rewrite <- (assoc (++))|]. split; [done|].
    intros c. rewrite Hrec. unfold occurrences. rewrite filter_cons.
    destruct (decide (c ∈ closed net)) as [Hc|Hc]; [done|].
    rewrite decide_False; [done|]. intros ->. done.
Qed.

(** A socket occurs once in a list without duplicates that has it. *)
Lemma occurrences_NoDup c l :
  NoDup l → occurrences c l = if decide (c ∈ l) then 1%nat else 0%nat.
Proof.
  unfold occurrences. induction 1 as [|x l Hx Hnd IH]; [done|].
  rewrite filter_cons. destruct (decide (x = c)) as [->|Hne].
  - rewrite decide_True by left. rewrite decide_False in IH by done.
    cbn [length]. by rewrite IH.
  - rewrite IH. destruct (decide (c ∈ l)) as [Hin|Hnotin].
    + by rewrite decide_True by (by right).
    + rewrite decide_False; [done|]. rewrite elem_of_cons. intros [?|?]; congruence.
Qed.

(** A broadcast that nothing interrupts, on a known connection type, for any
    list of connections: the connections kept, and what every socket has
    received. *)
Lemma broadcast_run msg connection_type m net l :
  m !! connection_type = Some l →
  ∃ net', broadcast_alone msg connection_type m net
          = inr (<[connection_type := filter (λ c, c ∉ closed net) l]> m, net')
    ∧ closed net' = closed net
    ∧ ∀ c, received net' c
           = (received net c
              ++ replicate (if decide (c ∈ closed net) then 0 else occurrences c l) msg)%list.
Proof.
  intros Hl. unfold broadcast_alone. rewrite Hl.
  destruct (send_all_spec l msg net []) as (net' & Hrun & Hcl & Hrec).
  rewrite Hrun. cbn [app]. exists net'.
  by rewrite (remove_disconnected_filter (λ c, c ∈ closed net)).
Qed.

(** One turn of the loop when the list of the type is [l]. *)
Lemma step_known msg connection_type i ds m net l :
  m !! connection_type = Some l →
  step (mkTask msg connection_type i ds) (m, net)
  = match l !! i with
    | Some connection =>
        match send_text connection msg net with
        | Some net' => (Some (mkTask msg connection_type (S i) ds), (m, net'))
        | None =>
            (Some (mkTask msg connection_type (S i) (ds ++ [connection])%list), (m, net))
        end
    | None => (None, (<[connection_type := remove_disconnected ds l]> m, net))
    end.
Proof. intros Hl. unfold step. cbn. by rewrite Hl. Qed.

(** The turns of the loop from the index [i] on, with nothing in between,
    are the sending loop over the rest of the list and the removing loop. *)
Lemma run_alone_from msg connection_type m l : ∀ k i net ds,
  m !! connection_type = Some l →
  (length l - i)%nat = k →
  run_alone (S k) (mkTask msg connection_type i ds) (m, net)
  = Some (<[connection_type :=
              remove_disconnected (send_all (drop i l) msg net ds).2 l]> m,
          (send_all (drop i l) msg net ds).1).
Proof.
  induction k as [|k IH]; intros i net ds Hl Hk.
  - cbn [run_alone]. rewrite (step_known _ _ _ _ _ _ l Hl).
    rewrite (lookup_ge_None_2 l i) by lia. rewrite drop_ge by lia. done.
  - cbn [run_alone]. rewrite (step_known _ _ _ _ _ _ l Hl).
    destruct (l !! i) as [c|] eqn:Hc.
    2:{ apply lookup_ge_None_1 in Hc. lia. }
    rewrite (drop_S l c i Hc). cbn [send_all].
    destruct (send_text c msg net) as [net'|]; apply IH; try done; lia.
Qed.

(** A broadcast that nothing interrupts: [start] and the turns of the loop,
    one after the other, give what [broadcast_alone] gives. *)
Lemma run_alone_broadcast msg connection_type m net l :
  m !! connection_type = Some l →
  start msg connection_type m = inr (mkTask msg connection_type 0 [])
  ∧ (run_alone (S (length l)) (mkTask msg connection_type 0 []) (m, net)
     = match broadcast_alone msg connection_type m net with
       | inr r => Some r
       | inl _ => None
       end).
Proof.
  intros Hl. split; [unfold start; by rewrite Hl|].
  rewrite (run_alone_from msg connection_type m l (length l) 0 net [] Hl) by lia.
  unfold broadcast_alone. rewrite Hl, drop_0.
  by destruct (send_all l msg net []).
Qed.

(** More turns than needed change nothing: the result of a broadcast that
    nothing interrupts does not depend on the bound. *)
Lemma run_alone_det n : ∀ n' b s r r',
  run_alone n b s = Some r → run_alone n' b s = Some r' → r = r'.
Proof.
  induction n as [|n IH]; intros n' b s r r' Hr Hr'; [done|].
  destruct n' as [|n']; [done|]. cbn [run_alone] in Hr, Hr'.
  destruct (step b s) as [[b'|] s'].
  - by apply (IH n' b' s').
  - congruence.
Qed.

(** A broadcast that no other coroutine interrupts, on a known connection
    type, returns normally, whatever the sockets do; afterwards the
    connections of that type are those that were open, in their order, and
    the other type is as it was. *)
Theorem broadcast_prunes_closed msg connection_type m net l :
  m !! connection_type = Some l →
  ∃ b net',
    start msg connection_type m = inr b
    ∧ run_alone (S (length l)) b (m, net)
      = Some (<[connection_type := filter (λ c, c ∉ closed net) l]> m, net')
    ∧ closed net' = closed net
    ∧ (∀ other, other ≠ connection_type →
         (<[connection_type := filter (λ c, c ∉ closed net) l]> m) !! other = m !! other).
Proof.
  intros Hl.
  destruct (broadcast_run msg connection_type m net l Hl) as (net' & Hrun & Hcl & _).
  destruct (run_alone_broadcast msg connection_type m net l Hl) as [Hstart Halone].
  rewrite Hrun in Halone.
  eexists _, net'. split; [exact Hstart|]. split; [exact Halone|]. split; [done|].
  intros other Hne. by apply lookup_insert_ne.
Qed.

Lemma broadcast_prunes_closed_witness :
  ∃ b net',
    start (voting_started_admin "s" 3) "admin" example_manager = inr b
    ∧ run_alone (S (length [1; 2; 3]%nat)) b (example_manager, example_sockets)
      = Some (<["admin" := filter (λ c, c ∉ closed example_sockets) [1; 2; 3]%nat]>
                example_manager, net')
    ∧ closed net' = closed example_sockets
    ∧ (∀ other, other ≠ "admin" →
         (<["admin" := filter (λ c, c ∉ closed example_sockets) [1; 2; 3]%nat]>
            example_manager) !! other
         = example_manager !! other).
Proof.
  apply (broadcast_prunes_closed (voting_started_admin "s" 3) "admin"
           example_manager example_sockets [1; 2; 3]%nat).
  vm_compute. reflexivity.
Defined.

(** What the sockets have received after a broadcast that nothing
    interrupts. *)
Lemma run_alone_received msg connection_type m net l b n m' net' :
  m !! connection_type = Some l →
  start msg connection_type m = inr b →
  run_alone n b (m, net) = Some (m', net') →
  m' = <[connection_type := filter (λ c, c ∉ closed net) l]> m
  ∧ closed net' = closed net
  ∧ ∀ c, received net' c
         = (received net c
            ++ replicate (if decide (c ∈ closed net) then 0 else occurrences c l) msg)%list.
Proof.
  intros Hl Hstart Hrun.
  destruct (broadcast_run msg connection_type m net l Hl) as (net1 & Hb & Hcl & Hrec).
  destruct (run_alone_broadcast msg connection_type m net l Hl) as [Hstart' Halone].
  rewrite Hstart' in Hstart. injection Hstart as <-. rewrite Hb in Halone.
  pose proof (run_alone_det _ _ _ _ _ _ Hrun Halone) as [= -> ->]. done.
Qed.

(** When the sockets connected under a type are pairwise distinct, a
    broadcast that no other coroutine interrupts delivers the message once,
    after what was received before, to every open socket connected under that
    type; a closed socket and a socket not connected under that type receive
    nothing. *)
Theorem broadcast_delivers_once msg connection_type m net l b n m' net' :
  m !! connection_type = Some l →
  NoDup l →
  start msg connection_type m = inr b →
  run_alone n b (m, net) = Some (m', net') →
  ∀ c, received net' c
       = (received net c
          ++ (if decide (c ∈ l ∧ c ∉ closed net) then [msg] else []))%list.
Proof.
  intros Hl Hnd Hstart Hrun c.
  destruct (run_alone_received msg connection_type m net l b n m' net' Hl Hstart Hrun)
    as (_ & _ & Hrec).
  rewrite Hrec, (occurrences_NoDup c l Hnd).
  destruct (decide (c ∈ closed net)) as [Hc|Hc].
  { by rewrite decide_False by (by intros [_ ?]). }
  destruct (decide (c ∈ l)) as [Hin|Hnotin].
  - by rewrite decide_True.
  - by rewrite decide_False by (by intros [? _]).
Qed.

Lemma broadcast_delivers_once_witness :
  received example_broadcast.2 1%nat
  = (received example_sockets 1%nat
     ++ (if decide (1%nat ∈ [1; 2; 3]%nat ∧ 1%nat ∉ closed example_sockets)
         then [voting_started_admin "s" 3] else []))%list.
Proof.
  apply (broadcast_delivers_once (voting_started_admin "s" 3) "admin"
           example_manager example_sockets [1; 2; 3]%nat
           (mkTask (voting_started_admin "s" 3) "admin" 0 []) 4 example_broadcast.1).
  - vm_compute. reflexivity.
  - apply (bool_decide_unpack _). vm_compute. exact I.
  - vm_compute. reflexivity.
  - vm_compute. reflexivity.
Defined.

(** When the sockets connected under a type are pairwise distinct, two
    broadcasts to that type, one after the other and neither interrupted,
    reach every open socket connected under it in the order of the calls, and
    the second one finds nothing left to remove. *)
Theorem broadcast_twice_in_order msg1 msg2 connection_type m net l
    b1 n1 m1 net1 b2 n2 m2 net2 :
  m !! connection_type = Some l →
  NoDup l →
  start msg1 connection_type m = inr b1 →
  run_alone n1 b1 (m, net) = Some (m1, net1) →
  start msg2 connection_type m1 = inr b2 →
  run_alone n2 b2 (m1, net1) = Some (m2, net2) →
  m2 = m1
  ∧ ∀ c, c ∈ l → c ∉ closed net →
         received net2 c = (received net c ++ [msg1; msg2])%list.
Proof.
  intros Hl Hnd Hs1 Hr1 Hs2 Hr2.
  destruct (run_alone_received msg1 connection_type m net l b1 n1 m1 net1 Hl Hs1 Hr1)
    as (-> & Hcl1 & Hrec1).
  set (open := filter (λ c, c ∉ closed net) l) in *.
  assert (Hl1 : (<[connection_type := open]> m) !! connection_type = Some open)
    by apply lookup_insert_eq.
  assert (Hnd1 : NoDup open) by (by apply NoDup_filter).
  destruct (run_alone_received msg2 connection_type _ net1 open b2 n2 m2 net2 Hl1 Hs2 Hr2)
    as (-> & _ & Hrec2).
  split.
  - rewrite Hcl1. subst open. rewrite list_filter_filter.
    unfold t. rewrite insert_insert_eq. f_equal.
    apply list_filter_iff. tauto.
  - intros c Hin Hopen.
    rewrite Hrec2, Hrec1, Hcl1, !decide_False by done.
    rewrite (occurrences_NoDup c l Hnd), (occurrences_NoDup c open Hnd1).
    rewrite !decide_True; [by rewrite <- (assoc (++))| |done].
    apply list_elem_of_filter. done.
Qed.

(** [disconnect] undoes [connect]: a socket that was not connected under the
    type, once connected and disconnected, leaves the manager as it was. *)
Theorem disconnect_after_connect websocket connection_type (m : t) l :
  m !! connection_type = Some l →
  websocket ∉ l →
  ∃ m1, connect websocket connection_type m = inr m1
        ∧ disconnect websocket connection_type m1 = inr m.
Proof.
  intros Hl Hnotin. unfold connect. rewrite Hl. eexists. split; [done|].
  unfold disconnect, t. rewrite lookup_insert_eq.
  rewrite decide_True by (apply elem_of_app; right; left).
  assert (Hrem : remove websocket (l ++ [websocket]) = l).
  { clear Hl. induction l as [|y l IH]; cbn.
    - by rewrite decide_True.
    - apply not_elem_of_cons in Hnotin as [Hne Hnotin].
      rewrite decide_False by done. by rewrite IH. }
  rewrite Hrem, insert_insert_eq. f_equal. by apply insert_id.
Qed.

Lemma filter_all {A} (P : A → Prop) `{∀ x, Decision (P x)} (l : list A) :
  (∀ x, x ∈ l → P x) → filter P l = l.
Proof.
  induction l as [|x l IH]; intros HP; [done|].
  rewrite filter_cons, decide_True by (apply HP; left).
  f_equal. apply IH. intros y Hy. apply HP. by right.
Qed.

(** [disconnect] of a socket connected once removes it and keeps the others
    in their order; of a socket that is not connected it changes nothing.
    The other type is not touched. *)
Theorem disconnect_removes websocket connection_type (m : t) l :
  m !! connection_type = Some l →
  NoDup l →
  ∃ m', disconnect websocket connection_type m = inr m'
        ∧ m' !! connection_type = Some (filter (λ c, c ≠ websocket) l)
        ∧ (websocket ∉ l → m' = m)
        ∧ (∀ other, other ≠ connection_type → m' !! other = m !! other).
Proof.
  intros Hl Hnd. unfold disconnect. rewrite Hl.
  assert (Hrem : remove websocket l = filter (λ c, c ≠ websocket) l).
  { clear Hl. induction Hnd as [|y l Hy Hnd IH]; [done|].
    cbn [remove]. rewrite filter_cons. destruct (decide (y = websocket)) as [->|Hne].
    - rewrite decide_False by (by intros Hn). symmetry.
      apply filter_all. intros x Hx ->. done.
    - rewrite decide_True by done. by rewrite IH. }
  destruct (decide (websocket ∈ l)) as [Hin|Hnotin].
  - eexists. split; [done|]. unfold t. rewrite lookup_insert_eq, Hrem.
    split; [done|]. split; [done|]. intros other Hne. by apply lookup_insert_ne.
  - exists m. split; [done|]. split; [|done].
    rewrite Hl. f_equal. symmetry. apply filter_all. intros x Hx ->. done.
Qed.

Lemma disconnect_removes_witness :
  ∃ m', disconnect 2%nat "admin" example_manager = inr m'
        ∧ m' !! "admin" = Some (filter (λ c, c ≠ 2%nat) [1; 2; 3]%nat)
        ∧ (2%nat ∉ [1; 2; 3]%nat → m' = example_manager)
        ∧ (∀ other, other ≠ "admin" → m' !! other = example_manager !! other).
Proof.
  apply (disconnect_removes 2%nat "admin" example_manager [1; 2; 3]%nat).
  - vm_compute. reflexivity.
  - apply (bool_decide_unpack _). vm_compute. exact I.
Defined.

Lemma disconnect_after_connect_witness :
  ∃ m1, connect 7%nat "admin" example_manager = inr m1
        ∧ disconnect 7%nat "admin" m1 = inr example_manager.
Proof.
  apply (disconnect_after_connect 7%nat "admin" example_manager [1; 2; 3]%nat).
  - vm_compute. reflexivity.
  - apply (bool_decide_unpack _). vm_compute. exact I.
Defined.

Lemma broadcast_twice_in_order_witness :
  example_broadcast.1 = example_broadcast.1
  ∧ ∀ c, c ∈ [1; 2; 3]%nat → c ∉ closed example_sockets →
         received
           (match broadcast_alone (voting_ended "s" VotesCount.zero 0) "admin"
                    example_broadcast.1 example_broadcast.2 with
            | inr r => r.2 | inl _ => example_sockets end) c
         = (received example_sockets c
            ++ [voting_started_admin "s" 3; voting_ended "s" VotesCount.zero 0])%list.
Proof.
  apply (broadcast_twice_in_order (voting_started_admin "s" 3)
           (voting_ended "s" VotesCount.zero 0) "admin"
           example_manager example_sockets [1; 2; 3]%nat
           (mkTask (voting_started_admin "s" 3) "admin" 0 []) 4
           example_broadcast.1 example_broadcast.2
           (mkTask (voting_ended "s" VotesCount.zero 0) "admin" 0 []) 3
           example_broadcast.1).
  - vm_compute. reflexivity.
  - apply (bool_decide_unpack _). vm_compute. exact I.
  - vm_compute. reflexivity.
  - vm_compute. reflexivity.
  - vm_compute. reflexivity.
  - vm_compute. reflexivity.
Defined.

(** In every state of the manager reached from its initial state, both
    connection types are known. *)
Lemma reachable_types s :
  reachable s → is_Some (s.1 !! "admin") ∧ is_Some (s.1 !! "projector").
Proof.
  induction 1 as [net|o s s' Hreach IH Happly].
  { split; vm_compute; eauto. }
  assert (Hkeep : ∀ ct l (k : string), is_Some (s.1 !! k) → is_Some (s.1 !! ct) →
            is_Some ((<[ct := l]> s.1) !! k)).
  { intros ct l k Hk Hct. destruct (decide (ct = k)) as [<-|Hne].
    - unfold t. rewrite lookup_insert_eq. eauto.
    - unfold t. by rewrite lookup_insert_ne. }
  destruct IH as [Ha Hp]. destruct o as [ws ct|ws ct|msg ct|b|ws]; cbn [apply] in Happly.
  - unfold connect in Happly. destruct (s.1 !! ct) as [l|] eqn:Hl; [|done].
    injection Happly as <-. cbn. split; apply Hkeep; rewrite ?Hl; eauto.
  - unfold disconnect in Happly. destruct (s.1 !! ct) as [l|] eqn:Hl; [|done].
    case_decide; injection Happly as <-; cbn; [|done].
    split; apply Hkeep; rewrite ?Hl; eauto.
  - unfold broadcast_alone in Happly. destruct (s.1 !! ct) as [l|] eqn:Hl; [|done].
    destruct (send_all l msg s.2 []) as [net' ds]. injection Happly as <-. cbn.
    split; apply Hkeep; rewrite ?Hl; eauto.
  - injection Happly as <-. unfold step.
    destruct (default [] (s.1 !! task_type b) !! task_index b) as [c|].
    + by destruct (send_text c (task_msg b) s.2).
    + cbn [fst snd]. split.
      * destruct (decide (task_type b = "admin")) as [->|Hne].
        -- unfold t. rewrite lookup_insert_eq. eauto.
        -- unfold t. by rewrite lookup_insert_ne.
      * destruct (decide (task_type b = "projector")) as [->|Hne].
        -- unfold t. rewrite lookup_insert_eq. eauto.
        -- unfold t. by rewrite lookup_insert_ne.
  - injection Happly as <-. done.
Qed.

(** In every state of the manager reached from its initial state by
    connections, disconnections, sockets closing and broadcasts, whole or
    turn by turn in any interleaving, a broadcast to the admin consoles or to
    the projectors does not raise when it is entered, and its turns, which
    never raise, bring it to its end when nothing interrupts it: a failing
    socket never makes the publisher fail. *)
Theorem broadcast_never_raises s msg connection_type :
  reachable s →
  connection_type = "admin" ∨ connection_type = "projector" →
  ∃ b n s', start msg connection_type s.1 = inr b ∧ run_alone n b s = Some s'.
Proof.
  intros Hreach Hct. destruct (reachable_types s Hreach) as [Ha Hp].
  assert (Hl : is_Some (s.1 !! connection_type)) by (by destruct Hct as [->| ->]).
  destruct Hl as [l Hl]. destruct s as [m net]. cbn [fst snd] in *.
  destruct (run_alone_broadcast msg connection_type m net l Hl) as [Hstart Hrun].
  destruct (broadcast_run msg connection_type m net l Hl) as (net' & Hb & _).
  rewrite Hb in Hrun. eauto.
Qed.

Lemma broadcast_never_raises_witness :
  ∃ b n s',
    start (voting_started_admin "s" 3) "projector" example_broadcast.1 = inr b
    ∧ run_alone n b example_broadcast = Some s'.
Proof.
  apply (broadcast_never_raises example_broadcast (voting_started_admin "s" 3) "projector").
  - apply (reachable_apply (Broadcast (voting_started_admin "s" 3) "admin")
             (example_manager, example_sockets)).
    + apply (reachable_apply (Connect 3 "admin")
               (<["admin" := [1; 2]%nat]> init, example_sockets)).
      * apply (reachable_apply (Connect 2 "admin")
                 (<["admin" := [1]%nat]> init, example_sockets)).
        -- apply (reachable_apply (Connect 1 "admin") (init, example_sockets)).
           ++ constructor.
           ++ vm_compute. reflexivity.
        -- vm_compute. reflexivity.
      * vm_compute. reflexivity.
    + vm_compute. reflexivity.
  - by right.
Defined.

Lemma NoDup_remove x l : NoDup l → NoDup (remove x l).
Proof.
  induction 1 as [|y l Hy Hnd IH]; [constructor|].
  cbn [remove]. case_decide; [done|]. constructor; [|done].
  intros Hin. apply Hy. clear -Hin. induction l as [|z l IH]; [done|].
  cbn [remove] in Hin. case_decide; [by right|].
  apply elem_of_cons in Hin as [->|Hin]; [left|right; by apply IH].
Qed.

Lemma NoDup_remove_disconnected ds : ∀ l, NoDup l → NoDup (remove_disconnected ds l).
Proof.
  induction ds as [|d ds IH]; intros l Hnd; [done|].
  cbn [remove_disconnected]. apply IH. case_decide; [by apply NoDup_remove|done].
Qed.

Lemma NoDup_default (m : t) connection_type :
  (∀ l, m !! connection_type = Some l → NoDup l) →
  NoDup (default [] (m !! connection_type)).
Proof.
  intros H. destruct (m !! connection_type) as [l|] eqn:Hl; [by apply H|].
  apply NoDup_nil_2.
Qed.

(** When every socket is connected as the endpoints do it, a new socket for
    each connection, no socket is ever listed twice under a connection type:
    in every state of the manager reached by connections, disconnections,
    sockets closing and broadcasts, whole or turn by turn in any
    interleaving, the lists have no duplicates. *)
Theorem connections_distinct s connection_type l :
  served s →
  s.1 !! connection_type = Some l →
  NoDup l.
Proof.
  intros Hserved. revert connection_type l.
  induction Hserved as [net|o s s' Hserved IH Hby Happly]; intros ct l Hl.
  { cbn [fst] in Hl. unfold init in Hl.
    apply lookup_insert_Some in Hl as [[_ <-]|[_ Hl]]; [constructor|].
    apply lookup_insert_Some in Hl as [[_ <-]|[_ Hl]]; [constructor|done]. }
  destruct o as [ws ct0|ws ct0|msg ct0|b|ws]; cbn [apply by_endpoint] in Happly, Hby.
  - unfold connect in Happly. destruct (s.1 !! ct0) as [l0|] eqn:Hl0; [|done].
    injection Happly as <-. cbn [fst] in Hl.
    destruct (decide (ct0 = ct)) as [->|Hne].
    + unfold t in Hl. rewrite lookup_insert_eq in Hl. injection Hl as <-.
      apply NoDup_app. split; [by apply (IH ct)|]. split; [|apply NoDup_singleton].
      intros x Hx Hx'. apply list_elem_of_singleton in Hx' as ->.
      by apply (Hby ct l0 Hl0).
    + unfold t in Hl. rewrite lookup_insert_ne in Hl by done. by apply (IH ct).
  - unfold disconnect in Happly. destruct (s.1 !! ct0) as [l0|] eqn:Hl0; [|done].
    case_decide; injection Happly as <-; cbn [fst] in Hl; [|by apply (IH ct)].
    destruct (decide (ct0 = ct)) as [->|Hne].
    + unfold t in Hl. rewrite lookup_insert_eq in Hl. injection Hl as <-.
      apply NoDup_remove. by apply (IH ct).
    + unfold t in Hl. rewrite lookup_insert_ne in Hl by done. by apply (IH ct).
  - destruct (s.1 !! ct0) as [l0|] eqn:Hl0.
    2:{ unfold broadcast_alone in Happly. by rewrite Hl0 in Happly. }
    destruct (broadcast_run msg ct0 s.1 s.2 l0 Hl0) as (net' & Hrun & _).
    rewrite Happly in Hrun. injection Hrun as ->. cbn [fst] in Hl.
    destruct (decide (ct0 = ct)) as [->|Hne].
    + unfold t in Hl. rewrite lookup_insert_eq in Hl. injection Hl as <-.
      apply NoDup_filter. by apply (IH ct).
    + unfold t in Hl. rewrite lookup_insert_ne in Hl by done. by apply (IH ct).
  - injection Happly as <-. unfold step in Hl.
    destruct (default [] (s.1 !! task_type b) !! task_index b) as [c|].
    { destruct (send_text c (task_msg b) s.2); by apply (IH ct). }
    cbn [fst snd] in Hl. destruct (decide (task_type b = ct)) as [Heq|Hne].
    + unfold t in Hl. rewrite Heq, lookup_insert_eq in Hl. injection Hl as <-.
      apply NoDup_remove_disconnected.
      apply NoDup_default, IH.
    + unfold t in Hl. rewrite lookup_insert_ne in Hl by done. by apply (IH ct).
  - injection Happly as <-. by apply (IH ct).
Qed.

Lemma connections_distinct_witness :
  NoDup [1; 3]%nat.
Proof.
  apply (connections_distinct example_broadcast "admin" [1; 3]%nat).
  - apply (served_apply (Broadcast (voting_started_admin "s" 3) "admin")
             (example_manager, example_sockets)).
    + apply (served_apply (Connect 3 "admin")
               (<["admin" := [1; 2]%nat]> init, example_sockets)).
      * apply (served_apply (Connect 2 "admin")
                 (<["admin" := [1]%nat]> init, example_sockets)).
        -- apply (served_apply (Connect 1 "admin") (init, example_sockets)).
           ++ constructor.
           ++ apply (bool_decide_unpack _). vm_compute. exact I.
           ++ vm_compute. reflexivity.
        -- apply (bool_decide_unpack _). vm_compute. exact I.
        -- vm_compute. reflexivity.
      * apply (bool_decide_unpack _). vm_compute. exact I.
      * vm_compute. reflexivity.
    + exact I.
    + vm_compute. reflexivity.
  - vm_compute. reflexivity.
Defined.

(** The loop of a broadcast walks the live list by index.  When the socket
    it has just sent to is disconnected while that send is awaited, the list
    shifts and the next socket is skipped: with pairwise distinct sockets
    [a], [b] and [rest] connected under a type, [a] and [b] open, a broadcast
    that sends to [a], then sees [a] disconnected, and runs to its end with
    nothing else in between, delivers nothing to [b], which is still
    connected, and serves the open sockets of [rest]. *)
Theorem broadcast_skips_after_disconnect msg connection_type m net a b rest :
  m !! connection_type = Some (a :: b :: rest) →
  NoDup (a :: b :: rest) →
  a ∉ closed net →
  b ∉ closed net →
  ∃ task0 task1 s1 s2 s3,
    start msg connection_type m = inr task0
    ∧ step task0 (m, net) = (Some task1, s1)
    ∧ apply (Disconnect a connection_type) s1 = inr s2
    ∧ run_alone (S (length rest)) task1 s2 = Some s3
    ∧ received s1.2 a = (received net a ++ [msg])%list
    ∧ s3.1 !! connection_type = Some (b :: filter (λ c, c ∉ closed net) rest)
    ∧ received s3.2 b = received net b
    ∧ ∀ c, c ∈ rest → c ∉ closed net → received s3.2 c = (received net c ++ [msg])%list.
Proof.
  intros Hl Hnd Ha Hb.
  apply NoDup_cons in Hnd as [Hab Hnd]. apply NoDup_cons in Hnd as [Hbr Hnd].
  apply not_elem_of_cons in Hab as [Hab Har].
  assert (Hsend : ∃ net1, send_text a msg net = Some net1).
  { unfold send_text. rewrite decide_False by done. eauto. }
  destruct Hsend as [net1 Hsend].
  destruct (received_send_text a msg net net1 a Hsend) as (Hcl1 & _ & Hreca).
  rewrite decide_True in Hreca by done.
  assert (Hrec1 : ∀ c, c ≠ a → received net1 c = received net c).
  { intros c Hc. destruct (received_send_text a msg net net1 c Hsend) as (_ & _ & ->).
    rewrite decide_False by done. by rewrite app_nil_r. }
  set (m2 := <[connection_type := b :: rest]> m).
  assert (Hl2 : m2 !! connection_type = Some (b :: rest)) by apply lookup_insert_eq.
  destruct (send_all_spec rest msg net1 []) as (net3 & Hall & Hcl3 & Hrec3).
  eexists (mkTask msg connection_type 0 []), (mkTask msg connection_type 1 []),
    (m, net1), (m2, net1), _.
  split; [unfold start; by rewrite Hl|].
  split; [rewrite (step_known _ _ _ _ _ _ _ Hl); cbn [lookup list_lookup]; by rewrite Hsend|].
  split.
  { cbn [apply fst snd]. unfold disconnect. rewrite Hl.
    rewrite decide_True by left. cbn [remove]. by rewrite decide_True. }
  split.
  { rewrite (run_alone_from msg connection_type m2 (b :: rest) (length rest) 1 net1 []
               Hl2) by (cbn [length]; lia).
    cbn [drop]. rewrite drop_0. reflexivity. }
  rewrite Hall. cbn [fst snd app].
  split; [done|]. split.
  { unfold m2, t. rewrite lookup_insert_eq. f_equal.
    rewrite remove_disconnected_cons.
    - f_equal. rewrite Hcl1. apply (remove_disconnected_filter (λ c, c ∈ closed net)).
    - intros Hin. apply list_elem_of_filter in Hin as [Hin _]. by rewrite Hcl1 in Hin. }
  split.
  { rewrite Hrec3, Hcl1, decide_False by done.
    rewrite (occurrences_NoDup b rest Hnd), decide_False by done.
    cbn [replicate]. rewrite app_nil_r. apply Hrec1. congruence. }
  intros c Hc Hopen.
  rewrite Hrec3, Hcl1, decide_False by done.
  rewrite (occurrences_NoDup c rest Hnd), decide_True by done.
  cbn [replicate]. rewrite Hrec1; [done|]. intros ->. done.
Qed.

Lemma broadcast_skips_after_disconnect_witness :
  ∃ task0 task1 s1 s2 s3,
    start (voting_started_admin "s" 3) "admin" example_manager = inr task0
    ∧ step task0 (example_manager, open_sockets) = (Some task1, s1)
    ∧ apply (Disconnect 1 "admin") s1 = inr s2
    ∧ run_alone (S (length [3%nat])) task1 s2 = Some s3
    ∧ received s1.2 1%nat
      = (received open_sockets 1%nat ++ [voting_started_admin "s" 3])%list
    ∧ s3.1 !! "admin"
      = Some (2%nat :: filter (λ c, c ∉ closed open_sockets) [3%nat])
    ∧ received s3.2 2%nat = received open_sockets 2%nat
    ∧ ∀ c, c ∈ [3%nat] → c ∉ closed open_sockets →
           received s3.2 c
           = (received open_sockets c ++ [voting_started_admin "s" 3])%list.
Proof.
  apply (broadcast_skips_after_disconnect (voting_started_admin "s" 3) "admin"
           example_manager open_sockets 1%nat 2%nat [3%nat]).
  - vm_compute. reflexivity.
  - apply (bool_decide_unpack _). vm_compute. exact I.
  - apply (bool_decide_unpack _). vm_compute. exact I.
  - apply (bool_decide_unpack _). vm_compute. exact I.
Defined.

End ConnectionManagerFacts.


(** * More on the engine *)

(** ** The hash of a token *)

Lemma hex_digit_is_hex (x : N) : is_hex_digit (SHA256.hex_digit (x mod 16)).
Proof.
  assert (Hlt : (x mod 16 < 16)%N) by (apply N.mod_lt; lia).
  set (d := (x mod 16)%N) in *.
  assert (Hd : d ∈ [0; 1; 2; 3; 4; 5; 6; 7; 8; 9; 10; 11; 12; 13; 14; 15]%N).
  { rewrite !elem_of_cons. lia. }
  unfold is_hex_digit. revert Hd. generalize d. clear.
  apply Forall_forall. repeat constructor; apply (bool_decide_unpack _); vm_compute; exact I.
Qed.

(** [hash_token] returns 64 characters, all of them lowercase hexadecimal
    digits, whatever the token. *)
Theorem hash_token_hex token :
  String.length (hash_token token) = 64%nat
  ∧ Forall is_hex_digit (list_ascii_of_string (hash_token token)).
Proof.
  split; [apply hash_token_length|].
  unfold hash_token, SHA256.hexdigest.
  destruct (SHA256.digest (SHA256.bytes_of_string token)) as [a b c d e f g h'].
  unfold SHA256.hex_regs, SHA256.hex_word.
  cbn [SHA256.ra SHA256.rb SHA256.rc SHA256.rd SHA256.re SHA256.rf SHA256.rg SHA256.rh
       list_ascii_of_string].
  repeat (apply Forall_cons; split; [apply hex_digit_is_hex|]).
  apply Forall_nil_2.
Qed.

(** ** Opening a window, in detail *)

Section StartVoting.
Context (env : Env).

(** The loop of [start_voting], for every environment, when the duration in
    seconds converts to the float [d]: the rows it returns, what it draws
    from the clock and the generator, and the data stored for the tokens. *)
Lemma issue_tokens_rows session_id voting ms d : ∀ acc w,
  Float.of_int (VotingSession.duration_minutes voting * 60) = Some d →
  ∃ w', issue_tokens env session_id voting ms acc w
        = (Return (acc ++ issued_rows env (n_token w) ms)%list, w')
    ∧ n_time w' = (n_time w + 2 * length ms)%nat
    ∧ n_token w' = (n_token w + length ms)%nat
    ∧ n_uuid w' = n_uuid w ∧ n_now w' = n_now w
    ∧ broadcasts w' = broadcasts w ∧ tasks w' = tasks w
    ∧ sessions (storage w') = sessions (storage w)
    ∧ votes (storage w') = votes (storage w)
    ∧ members (storage w') = members (storage w)
    ∧ active_voting (storage w') = active_voting (storage w)
    ∧ (∀ t, t ∉ drawn_from env (n_token w) (length ms) →
         tokens (storage w') !! t = tokens (storage w) !! t)
    ∧ (∀ t, t ∈ drawn_from env (n_token w) (length ms) →
         ∃ td, tokens (storage w') !! t = Some td
               ∧ TokenData.session_id td = session_id ∧ TokenData.used td = false)
    ∧ (NoDup (drawn_from env (n_token w) (length ms)) →
       ∀ i member, ms !! i = Some member →
         tokens (storage w') !! env_token_urlsafe env (n_token w + i)
         = Some (TokenData.mk session_id (Member.name member) false
                   (Float.add (Float.add (env_time env (n_time w + 2 * i)) d)
                      (Float.of_Z 300))
                   (env_time env (n_time w + 2 * i + 1)) None)).
Proof.
  induction ms as [|m ms IH]; intros acc w Hd.
  { exists w. cbn. rewrite app_nil_r. repeat split; try done; try lia.
    intros t Ht. by apply elem_of_nil in Ht. }
  cbn [issue_tokens length]. unfold bind at 1. rewrite (issue_token_spec _ _ _ _ _ d Hd).
  set (tok := env_token_urlsafe env (n_token w)).
  set (td := TokenData.mk _ _ _ _ _ _).
  set (w1 := mkWorld _ _ _ _ _ _ _).
  destruct (IH (acc ++ [IssuedToken.mk (Member.name m) (Member.contact m) tok
                          ("/vote?token=" +:+ tok)])%list w1 Hd)
    as (w' & Hrun & Ht & Hk & Hu & Hn & Hb & Hta & Hs & Hv & Hm & Ha & Hold & Hin & Hnew).
  change (n_token w1) with (S (n_token w)) in *.
  change (n_time w1) with (S (S (n_time w))) in *.
  exists w'. rewrite Hrun. split.
  { f_equal. f_equal. rewrite <- (assoc (++)). f_equal. unfold issued_rows.
    cbn [imap app]. rewrite Nat.add_0_r. fold tok. f_equal.
    apply imap_ext. intros i x _. cbn. by rewrite Nat.add_succ_r. }
  split; [lia|]. split; [lia|]. do 8 (split; [done|]).
  rewrite drawn_from_S. fold tok. split; [|split].
  - intros t Ht'. apply not_elem_of_cons in Ht' as [Hne Ht'].
    rewrite Hold by done. subst w1. unfold set_tokens. cbn.
    by rewrite lookup_insert_ne.
  - intros t Ht'.
    destruct (decide (t ∈ drawn_from env (S (n_token w)) (length ms))) as [Hr|Hr];
      [by apply Hin|].
    apply elem_of_cons in Ht' as [->|Ht']; [|done].
    rewrite Hold by done. subst w1. unfold set_tokens. cbn.
    rewrite lookup_insert_eq. by exists td.
  - intros Hnd i member Hi. apply NoDup_cons in Hnd as [Hnotin Hnd].
    destruct i as [|i].
    + injection Hi as <-.
      replace (n_time w + 2 * 0 + 1)%nat with (S (n_time w)) by lia.
      replace (n_time w + 2 * 0)%nat with (n_time w) by lia.
      rewrite Nat.add_0_r. fold tok.
      rewrite Hold by done. subst w1. unfold set_tokens. cbn.
      by rewrite lookup_insert_eq.
    + cbn in Hi. specialize (Hnew Hnd i member Hi).
      replace (n_token w + S i)%nat with (S (n_token w) + i)%nat by lia.
      replace (n_time w + 2 * S i + 1)%nat with (S (S (n_time w)) + 2 * i + 1)%nat by lia.
      replace (n_time w + 2 * S i)%nat with (S (S (n_time w)) + 2 * i)%nat by lia.
      exact Hnew.
Qed.

(** [start_voting] on an existing session, for every environment, when the
    duration in seconds converts to the float [d]. *)
Lemma start_voting_world session_id voting w sd ms d :
  sessions (storage w) !! session_id = Some sd →
  members (storage w) !! session_id = Some ms →
  Float.of_int (VotingSession.duration_minutes voting * 60) = Some d →
  let end_time := Float.add (env_time env (n_time w + 2 * length ms)) d in
  ∃ w', start_voting env session_id voting w
        = (Return (StartVotingResponse "success" (issued_rows env (n_token w) ms) end_time),
           w')
    ∧ n_time w' = (n_time w + 2 * length ms + 2)%nat
    ∧ broadcasts w'
      = (broadcasts w
         ++ [(voting_started_projector session_id (VotingSession.presenter_name voting)
                (VotingSession.topic_title voting) (VotingSession.topic_description voting)
                end_time (VotingSession.duration_minutes voting), "projector");
             (voting_started_admin session_id (length ms), "admin")])%list
    ∧ tasks w' = (tasks w ++ [(session_id, VotingSession.duration_minutes voting * 60)])%list
    ∧ active_voting (storage w')
      = <[session_id := VotingInfo.mk (VotingSession.presenter_name voting)
                (VotingSession.topic_title voting) (VotingSession.topic_description voting)
                (env_time env (n_time w + 2 * length ms + 1)) end_time
                (VotingSession.duration_minutes voting) "active" None]>
          (active_voting (storage w))
    ∧ sessions (storage w')
      = <[session_id := SessionData.set_status "voting" sd]> (sessions (storage w))
    ∧ votes (storage w') = votes (storage w)
    ∧ members (storage w') = members (storage w)
    ∧ (∀ t, t ∉ drawn_tokens env w (length ms) →
         tokens (storage w') !! t = tokens (storage w) !! t)
    ∧ (∀ t, t ∈ drawn_tokens env w (length ms) →
         ∃ td, tokens (storage w') !! t = Some td
               ∧ TokenData.session_id td = session_id ∧ TokenData.used td = false)
    ∧ (NoDup (drawn_tokens env w (length ms)) →
       ∀ i member, ms !! i = Some member →
         tokens (storage w') !! env_token_urlsafe env (n_token w + i)
         = Some (TokenData.mk session_id (Member.name member) false
                   (Float.add (Float.add (env_time env (n_time w + 2 * i)) d)
                      (Float.of_Z 300))
                   (env_time env (n_time w + 2 * i + 1)) None)).
Proof.
  intros Hsd Hms Hd end_time. unfold start_voting. mstep.
  rewrite decide_False by (by rewrite Hsd). rewrite (bind_subscript _ _ ms) by done.
  destruct (issue_tokens_rows session_id voting ms d [] w Hd)
    as (w1 & Hrun & Ht & Hk & Hu & Hn & Hb & Hta & Hs1 & Hv1 & Hm1 & Ha1 & Hold & Hin & Hnew).
  unfold bind at 1. rewrite Hrun. cbn [app].
  mstep. rewrite (bind_float_add_int _ _ d) by done.
  repeat mstep. rewrite (bind_subscript _ _ sd) by (by rewrite Hs1).
  repeat mstep. unfold create_task, bind, ret.
  eexists. split.
  { rewrite Ht. reflexivity. }
  unfold set_sessions, set_active_voting.
  cbn [storage n_time broadcasts tasks sessions tokens votes members active_voting].
  rewrite Hb, Hta, Hs1, Ha1, (Nat.add_1_r (n_time w + 2 * length ms)).
  unfold issued_rows. rewrite length_imap, <- (assoc (++)).
  split; [lia|]. do 7 (split; [done|]). done.
Qed.

(** [start_voting] on an existing session when the duration in seconds is
    too large for a float: one reading of the clock is consumed, and one token
    when the roster is not empty; nothing else changes. *)
Lemma start_voting_overflow session_id voting w sd ms :
  sessions (storage w) !! session_id = Some sd →
  members (storage w) !! session_id = Some ms →
  Float.of_int (VotingSession.duration_minutes voting * 60) = None →
  start_voting env session_id voting w
  = (Raise Overflow,
     mkWorld (storage w) (S (n_time w))
       (match ms with [] => n_token w | _ :: _ => S (n_token w) end)
       (n_uuid w) (n_now w) (broadcasts w) (tasks w)).
Proof.
  intros Hsd Hms Hd. pose proof (start_voting_cases env session_id voting w) as Hc.
  by rewrite Hsd, Hms, Hd in Hc.
Qed.

Lemma issued_rows_columns k ms :
  IssuedToken.member <$> issued_rows env k ms = Member.name <$> ms
  ∧ IssuedToken.contact <$> issued_rows env k ms = Member.contact <$> ms
  ∧ IssuedToken.token <$> issued_rows env k ms = drawn_from env k (length ms)
  ∧ Forall (λ row, IssuedToken.voting_url row = "/vote?token=" +:+ IssuedToken.token row)
      (issued_rows env k ms).
Proof.
  unfold issued_rows. rewrite !fmap_imap. split; [|split; [|split]].
  - rewrite <- imap_const. by apply imap_ext.
  - rewrite <- imap_const. by apply imap_ext.
  - unfold drawn_from. rewrite <- imap_seq_0. by apply imap_ext.
  - apply Forall_forall. intros row Hrow.
    apply elem_of_lookup_imap_1 in Hrow as (i & m & -> & _). done.
Qed.

(** For an existing session, when [duration_minutes * 60] converts to a
    float, [start_voting] returns one row per member of the roster, in its
    order, with the name and the contact of the member, the token generated
    for the member and the voting URL made of that token; it announces the
    window to the projector, then the number of tokens to the admin consoles,
    and creates one timer for the duration of the window.  When
    [duration_minutes * 60] is too large for a float, it raises
    [OverflowError] instead, and has stored nothing, announced nothing and
    created no timer. *)
Theorem start_voting_response session_id voting w sd ms :
  sessions (storage w) !! session_id = Some sd →
  members (storage w) !! session_id = Some ms →
  match Float.of_int (VotingSession.duration_minutes voting * 60) with
  | Some d =>
      ∃ toks end_time w',
        start_voting env session_id voting w
        = (Return (StartVotingResponse "success" toks end_time), w')
        ∧ IssuedToken.member <$> toks = Member.name <$> ms
        ∧ IssuedToken.contact <$> toks = Member.contact <$> ms
        ∧ IssuedToken.token <$> toks = drawn_tokens env w (length ms)
        ∧ Forall (λ row, IssuedToken.voting_url row
                         = "/vote?token=" +:+ IssuedToken.token row) toks
        ∧ broadcasts w'
          = (broadcasts w
             ++ [(voting_started_projector session_id (VotingSession.presenter_name voting)
                    (VotingSession.topic_title voting)
                    (VotingSession.topic_description voting)
                    end_time (VotingSession.duration_minutes voting), "projector");
                 (voting_started_admin session_id (length ms), "admin")])%list
        ∧ tasks w'
          = (tasks w ++ [(session_id, VotingSession.duration_minutes voting * 60)])%list
        ∧ (VotingInfo.end_time <$> active_voting (storage w') !! session_id)
          = Some end_time
  | None =>
      ∃ w', start_voting env session_id voting w = (Raise Overflow, w')
        ∧ storage w' = storage w
        ∧ broadcasts w' = broadcasts w
        ∧ tasks w' = tasks w
  end.
Proof.
  intros Hsd Hms.
  destruct (Float.of_int (VotingSession.duration_minutes voting * 60)) as [d|] eqn:Hd.
  - destruct (start_voting_world session_id voting w sd ms d Hsd Hms Hd)
      as (w' & Hrun & _ & Hb & Ht & Ha & _).
    destruct (issued_rows_columns (n_token w) ms) as (H1 & H2 & H3 & H4).
    eexists _, _, w'. split; [exact Hrun|].
    do 6 (split; [done|]). by rewrite Ha, lookup_insert_eq.
  - eexists. split; [by apply (start_voting_overflow session_id voting w sd ms)|done].
Qed.

(** With distinct tokens from the generator and a duration in seconds that
    converts to the float [d], the row returned for each member of the roster
    carries the token stored for that member: an unused token of the session
    with the name of the member.  Its expiry time is the reading of the clock
    taken for that member, plus [d], plus 300, in float arithmetic; the end
    of the window is the reading taken after the loop, plus [d]. *)
Theorem issued_tokens_expiry session_id voting w sd ms d :
  sessions (storage w) !! session_id = Some sd →
  members (storage w) !! session_id = Some ms →
  Float.of_int (VotingSession.duration_minutes voting * 60) = Some d →
  NoDup (drawn_tokens env w (length ms)) →
  ∃ toks end_time w',
    start_voting env session_id voting w
    = (Return (StartVotingResponse "success" toks end_time), w')
    ∧ end_time = Float.add (env_time env (n_time w + 2 * length ms)) d
    ∧ (VotingInfo.end_time <$> active_voting (storage w') !! session_id) = Some end_time
    ∧ ∀ i member, ms !! i = Some member →
        ∃ row td,
          toks !! i = Some row
          ∧ tokens (storage w') !! IssuedToken.token row = Some td
          ∧ TokenData.session_id td = session_id
          ∧ TokenData.member_name td = Member.name member
          ∧ TokenData.used td = false
          ∧ TokenData.expires_at td
            = Float.add (Float.add (env_time env (n_time w + 2 * i)) d) (Float.of_Z 300)
          ∧ TokenData.created_at td = env_time env (n_time w + 2 * i + 1).
Proof.
  intros Hsd Hms Hd Hnd.
  destruct (start_voting_world session_id voting w sd ms d Hsd Hms Hd)
    as (w' & Hrun & _ & _ & _ & Ha & _ & _ & _ & _ & _ & Hnew).
  eexists _, _, w'. split; [exact Hrun|]. split; [done|].
  split; [by rewrite Ha, lookup_insert_eq|].
  intros i member Hi.
  eexists _, _. split.
  { unfold issued_rows. rewrite list_lookup_imap, Hi. reflexivity. }
  cbn [IssuedToken.token]. split; [by apply Hnew|]. done.
Qed.

End StartVoting.

Lemma start_voting_response_witness :
  match Float.of_int (VotingSession.duration_minutes example_voting * 60) with
  | Some d =>
      ∃ toks end_time w',
        start_voting (example_env t0) example_sid example_voting closed_world
        = (Return (StartVotingResponse "success" toks end_time), w')
        ∧ IssuedToken.member <$> toks = Member.name <$> [alice; bob; carol]
        ∧ IssuedToken.contact <$> toks = Member.contact <$> [alice; bob; carol]
        ∧ IssuedToken.token <$> toks
          = drawn_tokens (example_env t0) closed_world (length [alice; bob; carol])
        ∧ Forall (λ row, IssuedToken.voting_url row
                         = "/vote?token=" +:+ IssuedToken.token row) toks
        ∧ broadcasts w'
          = (broadcasts closed_world
             ++ [(voting_started_projector example_sid
                    (VotingSession.presenter_name example_voting)
                    (VotingSession.topic_title example_voting)
                    (VotingSession.topic_description example_voting)
                    end_time (VotingSession.duration_minutes example_voting), "projector");
                 (voting_started_admin example_sid (length [alice; bob; carol]),
                  "admin")])%list
        ∧ tasks w'
          = (tasks closed_world
             ++ [(example_sid, VotingSession.duration_minutes example_voting * 60)])%list
        ∧ (VotingInfo.end_time <$> active_voting (storage w') !! example_sid)
          = Some end_time
  | None =>
      ∃ w', start_voting (example_env t0) example_sid example_voting closed_world
            = (Raise Overflow, w')
        ∧ storage w' = storage closed_world
        ∧ broadcasts w' = broadcasts closed_world
        ∧ tasks w' = tasks closed_world
  end.
Proof.
  apply (start_voting_response (example_env t0) example_sid example_voting closed_world
           (SessionData.mk example_sid "Board" "Quarterly meeting" "2024-01-01T00:00:00"
              "completed")).
  - vm_compute. reflexivity.
  - vm_compute. reflexivity.
Defined.

Lemma issued_tokens_expiry_witness :
  ∃ toks end_time w',
    start_voting (example_env t0) example_sid example_voting closed_world
    = (Return (StartVotingResponse "success" toks end_time), w')
    ∧ end_time
      = Float.add (env_time (example_env t0)
                     (n_time closed_world + 2 * length [alice; bob; carol]))
          (Float.of_Z 60)
    ∧ (VotingInfo.end_time <$> active_voting (storage w') !! example_sid) = Some end_time
    ∧ ∀ i member, [alice; bob; carol] !! i = Some member →
        ∃ row td,
          toks !! i = Some row
          ∧ tokens (storage w') !! IssuedToken.token row = Some td
          ∧ TokenData.session_id td = example_sid
          ∧ TokenData.member_name td = Member.name member
          ∧ TokenData.used td = false
          ∧ TokenData.expires_at td
            = Float.add (Float.add (env_time (example_env t0) (n_time closed_world + 2 * i))
                           (Float.of_Z 60)) (Float.of_Z 300)
          ∧ TokenData.created_at td
            = env_time (example_env t0) (n_time closed_world + 2 * i + 1).
Proof.
  apply (issued_tokens_expiry (example_env t0) example_sid example_voting closed_world
           (SessionData.mk example_sid "Board" "Quarterly meeting" "2024-01-01T00:00:00"
              "completed") [alice; bob; carol] (Float.of_Z 60)).
  - vm_compute. reflexivity.
  - vm_compute. reflexivity.
  - vm_compute. reflexivity.
  - apply (bool_decide_unpack _). vm_compute. exact I.
Defined.


(** ** Opening a window on a session that has one *)

(** C2, amended. [start_voting] never looks at the window.  In a world the
    engine reaches, on a session that already has an active window, it does
    not fail with an error of state.  When [duration_minutes * 60] converts
    to a float it succeeds: it returns one row per member of the roster, with
    the tokens drawn from the generator, stores each of them as an unused
    token of the session, leaves every other token, the rosters and the
    ledgers as they were, and replaces the window by a new active one without
    results; when the tokens drawn are new and distinct, the session has as
    many more tokens as the roster has members.  When [duration_minutes * 60]
    is too large for a float it raises [OverflowError] and leaves the storage
    as it was. *)
Theorem start_voting_reopens_active_window env h w session_id voting :
  reaches env h w →
  window_active (storage w) session_id →
  let ms := roster_of (storage w) session_id in
  match Float.of_int (VotingSession.duration_minutes voting * 60) with
  | Some d =>
      ∃ toks end_time w' vi,
        start_voting env session_id voting w
        = (Return (StartVotingResponse "success" toks end_time), w')
        ∧ length toks = length ms
        ∧ IssuedToken.member <$> toks = Member.name <$> ms
        ∧ IssuedToken.token <$> toks = drawn_tokens env w (length ms)
        ∧ (∀ t, t ∈ drawn_tokens env w (length ms) →
             ∃ td, tokens (storage w') !! t = Some td
                   ∧ TokenData.session_id td = session_id
                   ∧ TokenData.used td = false)
        ∧ (∀ t, t ∉ drawn_tokens env w (length ms) →
             tokens (storage w') !! t = tokens (storage w) !! t)
        ∧ votes (storage w') = votes (storage w)
        ∧ members (storage w') = members (storage w)
        ∧ active_voting (storage w') !! session_id = Some vi
        ∧ VotingInfo.status vi = "active"
        ∧ VotingInfo.results vi = None
        ∧ VotingInfo.end_time vi = end_time
        ∧ (env_ok env (StartVoting session_id voting) w →
           total_tokens (storage w') session_id
           = (total_tokens (storage w) session_id + length ms)%nat)
  | None =>
      ∃ w', start_voting env session_id voting w = (Raise Overflow, w')
        ∧ storage w' = storage w
  end.
Proof.
  intros Hreach Hact ms. pose proof (reaches_inv env h w Hreach) as Hinv.
  assert (Hwin : is_Some (active_voting (storage w) !! session_id)).
  { unfold window_active in Hact.
    destruct (active_voting (storage w) !! session_id); [by eauto|done]. }
  destruct (inv_active _ Hinv session_id Hwin) as [sd Hsd].
  destruct (inv_members _ Hinv session_id) as [[ms' Hms] _]; [by eauto|].
  assert (ms = ms') as -> by (subst ms; unfold roster_of; by rewrite Hms).
  destruct (Float.of_int (VotingSession.duration_minutes voting * 60)) as [d|] eqn:Hd.
  2:{ eexists. split; [by apply (start_voting_overflow env session_id voting w sd ms')|done]. }
  destruct (start_voting_world env session_id voting w sd ms' d Hsd Hms Hd)
    as (w' & Hrun & _ & _ & _ & Ha & _ & Hv & Hm & Hold & Hin & _).
  destruct (issued_rows_columns env (n_token w) ms') as (H1 & _ & H3 & _).
  eexists _, _, w', _. split; [exact Hrun|].
  split; [unfold issued_rows; by rewrite length_imap|].
  do 6 (split; [done|]).
  split; [by rewrite Ha, lookup_insert_eq|]. do 3 (split; [done|]).
  intros Hok. pose proof (start_voting_cases env session_id voting w) as Hc.
  rewrite Hsd, Hms, Hd in Hc.
  destruct (Hc Hok) as (? & ? & ? & w1 & Hrun1 & _ & _ & _ & _ & _ & _ & _ & _ & _ & Hperm).
  rewrite Hrun in Hrun1. injection Hrun1 as _ _ <-.
  unfold total_tokens. rewrite !Hperm.
  rewrite decide_False by (by intros [_ [=]]). rewrite decide_True by done.
  rewrite !length_app. unfold drawn_tokens, drawn_from.
  rewrite length_fmap, length_seq. cbn [length]. lia.
Qed.

Lemma start_voting_reopens_active_window_witness :
  let ms := roster_of (storage opened_world) example_sid in
  match Float.of_int (VotingSession.duration_minutes example_voting * 60) with
  | Some d =>
      ∃ toks end_time w' vi,
        start_voting (example_env t0) example_sid example_voting opened_world
        = (Return (StartVotingResponse "success" toks end_time), w')
        ∧ length toks = length ms
        ∧ IssuedToken.member <$> toks = Member.name <$> ms
        ∧ IssuedToken.token <$> toks = drawn_tokens (example_env t0) opened_world (length ms)
        ∧ (∀ t, t ∈ drawn_tokens (example_env t0) opened_world (length ms) →
             ∃ td, tokens (storage w') !! t = Some td
                   ∧ TokenData.session_id td = example_sid
                   ∧ TokenData.used td = false)
        ∧ (∀ t, t ∉ drawn_tokens (example_env t0) opened_world (length ms) →
             tokens (storage w') !! t = tokens (storage opened_world) !! t)
        ∧ votes (storage w') = votes (storage opened_world)
        ∧ members (storage w') = members (storage opened_world)
        ∧ active_voting (storage w') !! example_sid = Some vi
        ∧ VotingInfo.status vi = "active"
        ∧ VotingInfo.results vi = None
        ∧ VotingInfo.end_time vi = end_time
        ∧ (env_ok (example_env t0) (StartVoting example_sid example_voting) opened_world →
           total_tokens (storage w') example_sid
           = (total_tokens (storage opened_world) example_sid + length ms)%nat)
  | None =>
      ∃ w', start_voting (example_env t0) example_sid example_voting opened_world
            = (Raise Overflow, w')
        ∧ storage w' = storage opened_world
  end.
Proof.
  apply (start_voting_reopens_active_window (example_env t0) _ opened_world example_sid
           example_voting opened_world_reached).
  vm_compute. reflexivity.
Defined.


(** ** The read-only handlers, case by case *)

Lemma get_vote_page_cases token w :
  match tokens (storage w) !! token with
  | None => get_vote_page token w = (Raise NotFound_token, w)
  | Some td =>
      if TokenData.used td then get_vote_page token w = (Return already_voted_page, w)
      else
        match active_voting (storage w) !! TokenData.session_id td with
        | None => get_vote_page token w = (Return not_active_page, w)
        | Some vi =>
            if decide (VotingInfo.status vi = "active") then
              get_vote_page token w
              = (Return (voting_form_page (VotingInfo.topic_title vi)
                           (VotingInfo.presenter_name vi) (VotingInfo.topic_description vi)
                           (VotingInfo.end_time vi) token), w)
            else get_vote_page token w = (Return not_active_page, w)
        end
  end.
Proof.
  unfold get_vote_page. mstep.
  destruct (tokens (storage w) !! token) as [td|] eqn:Htd.
  2:{ by rewrite decide_True. }
  rewrite decide_False by done. rewrite (bind_subscript _ _ td) by done.
  destruct (TokenData.used td); [done|].
  destruct (active_voting (storage w) !! TokenData.session_id td) as [vi|]; [|done].
  destruct (decide (VotingInfo.status vi = "active")) as [Hs|Hs].
  - rewrite decide_False by (by intros Hn). done.
  - by rewrite decide_True.
Qed.

Lemma get_session_status_cases session_id w :
  match sessions (storage w) !! session_id with
  | None => get_session_status session_id w = (Raise NotFound_session, w)
  | Some sd =>
      Forall (λ v, VoteRecord.choice v ∈ choices) (ledger_of (storage w) session_id) →
      get_session_status session_id w
      = (Return (SessionStatus.mk sd (active_voting (storage w) !! session_id)
                   (tally (ledger_of (storage w) session_id))
                   (length (roster_of (storage w) session_id))), w)
  end.
Proof.
  unfold get_session_status. mstep.
  destruct (sessions (storage w) !! session_id) as [sd|] eqn:Hsd.
  2:{ by rewrite decide_True. }
  rewrite decide_False by done. rewrite (bind_subscript _ _ sd) by done.
  intros Hvalid. unfold bind. fold (ledger_of (storage w) session_id).
  by rewrite count_votes_zero_valid.
Qed.

(** ** Unknown sessions *)

(** In a world the engine reaches, a session identifier that names no
    session is rejected everywhere: [start_voting] and [get_session_status]
    raise "session not found", [end_voting] raises "active voting not found",
    the timer task does nothing, and the world is left as it was: no token is
    drawn, nothing is broadcast, no timer is created. *)
Theorem unknown_session_rejected env h w session_id voting :
  reaches env h w →
  sessions (storage w) !! session_id = None →
  start_voting env session_id voting w = (Raise NotFound_session, w)
  ∧ end_voting session_id w = (Raise NotFound_voting, w)
  ∧ auto_end_voting session_id w = (Return tt, w)
  ∧ get_session_status session_id w = (Raise NotFound_session, w).
Proof.
  intros Hreach Hnone. pose proof (reaches_inv env h w Hreach) as Hinv.
  assert (Hwin : active_voting (storage w) !! session_id = None).
  { destruct (active_voting (storage w) !! session_id) eqn:Hvi; [|done].
    destruct (inv_active _ Hinv session_id) as [? ?]; [by eauto|congruence]. }
  split; [|split; [|split]].
  - pose proof (start_voting_cases env session_id voting w) as Hc. by rewrite Hnone in Hc.
  - pose proof (end_voting_cases session_id w) as Hc. cbv zeta in Hc. by rewrite Hwin in Hc.
  - pose proof (auto_end_voting_cases session_id w) as Hc.
    rewrite decide_False in Hc; [done|]. unfold window_active. by rewrite Hwin.
  - pose proof (get_session_status_cases session_id w) as Hc. by rewrite Hnone in Hc.
Qed.

Lemma unknown_session_rejected_witness :
  start_voting (example_env t0) "no-such-session" example_voting voted_world
  = (Raise NotFound_session, voted_world)
  ∧ end_voting "no-such-session" voted_world = (Raise NotFound_voting, voted_world)
  ∧ auto_end_voting "no-such-session" voted_world = (Return tt, voted_world)
  ∧ get_session_status "no-such-session" voted_world
    = (Raise NotFound_session, voted_world).
Proof.
  apply (unknown_session_rejected (example_env t0) _ voted_world "no-such-session"
           example_voting voted_world_reached).
  vm_compute. reflexivity.
Defined.

(** ** The timer *)

(** A closed window stays closed as long as no call opens a window on the
    session. *)
Lemma effect_completed st c o st' sid :
  effect st c o st' →
  window_completed st sid →
  opens sid (c, o) = false →
  window_completed st' sid.
Proof.
  intros Heff Hclosed Hopens. unfold window_completed in *.
  destruct Heff as [| | sid0 ? ? vi ? ? ? st' ? ? ? ? ? ? ? ? Ha | sid0 | sid0 | |];
    try done.
  - rewrite Ha. cbn in Hopens. case_bool_decide as Hne; [done|].
    by rewrite lookup_insert_ne.
  - cbn. destruct (decide (sid0 = sid)) as [<-|Hne].
    + by rewrite lookup_insert_eq.
    + by rewrite lookup_insert_ne.
  - cbn. destruct (decide (sid0 = sid)) as [<-|Hne].
    + by rewrite lookup_insert_eq.
    + by rewrite lookup_insert_ne.
Qed.

Lemma steps_completed env w1 h w2 sid :
  steps env w1 h w2 →
  storage_inv (storage w1) →
  window_completed (storage w1) sid →
  windows_opened sid h = 0%nat →
  window_completed (storage w2) sid.
Proof.
  intros Hsteps Hinv Hclosed.
  induction Hsteps as [|w h w' c Hsteps IH Hok]; [done|].
  rewrite windows_opened_snoc. intros Hzero.
  pose proof (steps_inv env _ _ _ Hsteps Hinv) as Hinv'.
  destruct (opens sid (c, (dispatch env c w').1)) eqn:Hop; [lia|].
  apply (effect_completed _ _ _ _ sid (dispatch_effect env c w' Hinv' Hok)); [|done].
  apply IH; [done|done|lia].
Qed.

(** A manual close and the timer: once [end_voting] has closed the window of
    a session, the timer task of that window, whenever it fires later, finds
    the window no longer active and does nothing at all, as long as no
    [start_voting] has opened a window on the session in between.  (The timer
    knows the session only: once the session is reopened, the window it finds
    is the new one.) *)
Theorem auto_end_voting_after_close env h w session_id h' w2 :
  reaches env h w →
  is_Some (active_voting (storage w) !! session_id) →
  steps env (end_voting session_id w).2 h' w2 →
  windows_opened session_id h' = 0%nat →
  auto_end_voting session_id w2 = (Return tt, w2).
Proof.
  intros Hreach [vi Hvi] Hsteps Hzero.
  pose proof (reaches_inv env h w Hreach) as Hinv.
  destruct (end_voting_with_window w session_id vi Hinv Hvi) as (sd & Hsd & _ & Hst).
  assert (Hinv1 : storage_inv (storage (end_voting session_id w).2)).
  { pose proof (steps_snoc env initial_world h w (EndVoting session_id) Hreach I) as Hs.
    cbn [dispatch] in Hs. rewrite bind_ret_snd in Hs.
    exact (reaches_inv env _ _ Hs). }
  assert (Hclosed : window_completed (storage (end_voting session_id w).2) session_id).
  { unfold window_completed. rewrite Hst. cbn. by rewrite lookup_insert_eq. }
  pose proof (steps_completed env _ h' w2 session_id Hsteps Hinv1 Hclosed Hzero) as Hc2.
  pose proof (auto_end_voting_cases session_id w2) as Hc.
  rewrite decide_False in Hc; [done|].
  unfold window_active, window_completed in *. rewrite Hc2. by intros [=].
Qed.

Lemma auto_end_voting_after_close_witness :
  let env := example_env t0 in
  let w1 := (end_voting example_sid voted_world).2 in
  let later := [SubmitVote carol_token "против"; CreateSession empty_session;
                EndVoting example_sid] in
  let w2 := (run env later w1).2 in
  auto_end_voting example_sid w2 = (Return tt, w2).
Proof.
  intros env w1 later w2.
  apply (auto_end_voting_after_close env _ voted_world example_sid
           (history env later w1) w2 voted_world_reached).
  - vm_compute. eauto.
  - apply steps_run. apply (bool_decide_unpack _). vm_compute. exact I.
  - vm_compute. reflexivity.
Defined.

(** When the timer fires on a window that is still active, it closes it as
    [end_voting] does: the same world results, with the window completed and
    the final results recorded. *)
Theorem auto_end_voting_closes env h w session_id :
  reaches env h w →
  window_active (storage w) session_id →
  auto_end_voting session_id w = (Return tt, (end_voting session_id w).2)
  ∧ window_completed (storage (auto_end_voting session_id w).2) session_id
  ∧ (VotingInfo.results <$> active_voting (storage (auto_end_voting session_id w).2)
                              !! session_id)
    = Some (Some (final_results (storage w) session_id)).
Proof.
  intros Hreach Hact. pose proof (reaches_inv env h w Hreach) as Hinv.
  assert (Hvi : is_Some (active_voting (storage w) !! session_id)).
  { unfold window_active in Hact.
    destruct (active_voting (storage w) !! session_id); [by eauto|done]. }
  destruct Hvi as [vi Hvi].
  destruct (end_voting_with_window w session_id vi Hinv Hvi) as (sd & Hsd & Hr & Hst).
  assert (Heq : auto_end_voting session_id w = (Return tt, (end_voting session_id w).2)).
  { unfold auto_end_voting. rewrite bind_get_storage, Hvi.
    unfold window_active in Hact. rewrite Hvi in Hact. cbn in Hact.
    rewrite decide_True by congruence. unfold bind, ret.
    destruct (end_voting session_id w) as [[r|e] w']; [done|]. by cbn in Hr. }
  rewrite Heq. cbn [snd]. rewrite Hst. split; [done|].
  unfold window_completed. cbn. rewrite lookup_insert_eq. done.
Qed.

Lemma auto_end_voting_closes_witness :
  auto_end_voting example_sid voted_world
  = (Return tt, (end_voting example_sid voted_world).2)
  ∧ window_completed (storage (auto_end_voting example_sid voted_world).2) example_sid
  ∧ (VotingInfo.results <$> active_voting (storage (auto_end_voting example_sid voted_world).2)
                              !! example_sid)
    = Some (Some (final_results (storage voted_world) example_sid)).
Proof.
  apply (auto_end_voting_closes (example_env t0) _ voted_world example_sid
           voted_world_reached).
  vm_compute. reflexivity.
Defined.


(** ** Accepting a vote *)

(** With the invariant of the storage, [submit_vote] returns exactly when
    its five checks pass. *)
Lemma submit_vote_return_iff env w token choice :
  storage_inv (storage w) →
  (submit_vote env token choice w).1 = Return (SubmitVoteResponse "success" "Голос принят")
  ↔ ∃ td, tokens (storage w) !! token = Some td
      ∧ TokenData.used td = false
      ∧ ¬ Float.gt (env_time env (n_time w)) (TokenData.expires_at td)
      ∧ window_active (storage w) (TokenData.session_id td)
      ∧ choice ∈ choices.
Proof.
  intros Hinv.
  pose proof (submit_vote_cases env token choice w) as Hc. cbv zeta in Hc.
  split.
  - intros Hr. destruct (tokens (storage w) !! token) as [td|]; [|by rewrite Hc in Hr].
    destruct (TokenData.used td) eqn:Hused; [by rewrite Hc in Hr|].
    destruct (decide (Float.gt _ _)); [by rewrite Hc in Hr|].
    destruct (decide (window_active _ _)); [|by rewrite Hc in Hr].
    destruct (decide (choice ∈ choices)); [|by rewrite Hc in Hr].
    exists td. split; [done|]. split; [done|]. split; [done|]. by split.
  - intros (td & Htd & Hused & Hexp & Hact & Hch).
    rewrite Htd, Hused in Hc. rewrite decide_False in Hc by done.
    rewrite decide_True in Hc by done. rewrite decide_True in Hc by done.
    destruct Hc as (_ & Hr & _). apply Hr. by apply ledger_valid.
Qed.

(** In a world the engine reaches, [submit_vote] accepts a vote exactly when
    the token is known and unused, the clock is not past its expiry time (a
    vote at the very expiry time is accepted), the window of its session is
    active and the choice is one of the three. *)
Theorem submit_vote_accepts_iff env h w token choice :
  reaches env h w →
  (submit_vote env token choice w).1 = Return (SubmitVoteResponse "success" "Голос принят")
  ↔ ∃ td, tokens (storage w) !! token = Some td
      ∧ TokenData.used td = false
      ∧ ¬ Float.gt (env_time env (n_time w)) (TokenData.expires_at td)
      ∧ window_active (storage w) (TokenData.session_id td)
      ∧ choice ∈ choices.
Proof.
  intros Hreach. apply submit_vote_return_iff. by apply (reaches_inv env h).
Qed.

Lemma submit_vote_accepts_iff_witness :
  (submit_vote (example_env t0) carol_token "против" voted_world).1
  = Return (SubmitVoteResponse "success" "Голос принят")
  ↔ ∃ td, tokens (storage voted_world) !! carol_token = Some td
      ∧ TokenData.used td = false
      ∧ ¬ Float.gt (env_time (example_env t0) (n_time voted_world))
            (TokenData.expires_at td)
      ∧ window_active (storage voted_world) (TokenData.session_id td)
      ∧ "против" ∈ choices.
Proof.
  apply (submit_vote_accepts_iff (example_env t0) _ voted_world carol_token "против"
           voted_world_reached).
Defined.

Section SubmitVote.
Context (env : Env).

(** The world after an accepted vote: three readings of the clock, the
    storage with the vote, and one message for the admin consoles. *)
Lemma submit_vote_world token choice w td :
  tokens (storage w) !! token = Some td →
  TokenData.used td = false →
  ¬ Float.gt (env_time env (n_time w)) (TokenData.expires_at td) →
  window_active (storage w) (TokenData.session_id td) →
  choice ∈ choices →
  Forall (λ v, VoteRecord.choice v ∈ choices)
    (ledger_of (storage w) (TokenData.session_id td)) →
  let sid := TokenData.session_id td in
  let record := VoteRecord.mk sid choice (env_time env (S (n_time w))) (hash_token token) in
  submit_vote env token choice w
  = (Return (SubmitVoteResponse "success" "Голос принят"),
     mkWorld (vote_storage (storage w) token td choice (env_time env (S (n_time w)))
                (env_time env (S (S (n_time w)))))
       (S (S (S (n_time w)))) (n_token w) (n_uuid w) (n_now w)
       (broadcasts w
        ++ [(vote_received sid (tally (ledger_of (storage w) sid ++ [record]))
               (length (roster_of (storage w) sid)), "admin")])%list
       (tasks w)).
Proof.
  intros Htd Hused Hexp Hact Hch Hvalid sid record.
  assert (Hvalid' : Forall (λ v, VoteRecord.choice v ∈ choices)
                      (ledger_of (storage w) sid ++ [record])).
  { apply Forall_app. split; [done|]. by apply Forall_singleton. }
  unfold submit_vote. mstep. rewrite decide_False by (by rewrite Htd).
  rewrite (bind_subscript _ _ td) by done. rewrite Hused. mstep.
  rewrite decide_False by done.
  unfold window_active in Hact. fold sid in Hact |- *.
  destruct (active_voting (storage w) !! sid) as [vi|] eqn:Hvi; [|done].
  rewrite decide_False.
  2:{ intros [?|Hn]; [done|]. by apply Hn. }
  fold choices. rewrite decide_False by (by intros Hn).
  mstep. unfold vote_storage, ledger_of in *. fold sid.
  destruct (votes (storage w) !! sid) as [ledger|] eqn:Hl; cbn [default] in *.
  - rewrite decide_False by done. repeat (mstep || msubscript).
    unfold bind at 1. rewrite count_votes_zero_valid by done.
    repeat mstep. unfold ret, roster_of, set_tokens, set_votes.
    cbn [sessions tokens votes members active_voting].
    by rewrite insert_insert_eq.
  - rewrite decide_True by done. repeat (mstep || msubscript).
    unfold bind at 1. rewrite count_votes_zero_valid by done.
    repeat mstep. unfold ret, roster_of, set_tokens, set_votes.
    cbn [sessions tokens votes members active_voting].
    by rewrite !insert_insert_eq.
Qed.

End SubmitVote.

(** An accepted vote is announced once, to the admin consoles only, with the
    counts of the ledger that now includes the vote and the size of the
    roster; no timer is created.  A rejected vote is announced to nobody. *)
Theorem submit_vote_broadcast env h w token choice :
  reaches env h w →
  let r := submit_vote env token choice w in
  tasks r.2 = tasks w
  ∧ match r.1 with
    | Return _ =>
        ∃ td record,
          tokens (storage w) !! token = Some td
          ∧ ledger_of (storage r.2) (TokenData.session_id td)
            = (ledger_of (storage w) (TokenData.session_id td) ++ [record])%list
          ∧ broadcasts r.2
            = (broadcasts w
               ++ [(vote_received (TokenData.session_id td)
                      (tally (ledger_of (storage r.2) (TokenData.session_id td)))
                      (length (roster_of (storage w) (TokenData.session_id td))),
                    "admin")])%list
    | Raise _ => broadcasts r.2 = broadcasts w
    end.
Proof.
  intros Hreach. cbv zeta. pose proof (reaches_inv env h w Hreach) as Hinv.
  destruct (submit_vote env token choice w) as [[resp|e] w'] eqn:Hrun; cbn [fst snd].
  - destruct (submit_vote_success env token choice w resp w' Hrun)
      as (td & Htd & Hused & Hact & Hch & _).
    assert (Hexp : ¬ Float.gt (env_time env (n_time w)) (TokenData.expires_at td)).
    { pose proof (submit_vote_cases env token choice w) as Hc. cbv zeta in Hc.
      rewrite Hrun, Htd, Hused in Hc. by destruct (decide (Float.gt _ _)). }
    rewrite (submit_vote_world env token choice w td Htd Hused Hexp Hact Hch
               (ledger_valid _ _ Hinv)) in Hrun.
    injection Hrun as _ <-. cbn [tasks broadcasts storage].
    split; [done|]. eexists td, _. split; [done|].
    assert (Hl : ∀ ts va, ledger_of (vote_storage (storage w) token td choice ts va)
                     (TokenData.session_id td)
                   = (ledger_of (storage w) (TokenData.session_id td)
                      ++ [VoteRecord.mk (TokenData.session_id td) choice ts
                            (hash_token token)])%list).
    { intros ts va. unfold ledger_of at 1. cbn. by rewrite lookup_insert_eq. }
    rewrite Hl. done.
  - pose proof (submit_vote_cases env token choice w) as Hc. cbv zeta in Hc.
    rewrite Hrun in Hc.
    destruct (tokens (storage w) !! token) as [td|]; [|by injection Hc as _ ->].
    destruct (TokenData.used td) eqn:Hused; [by injection Hc as _ ->|].
    destruct (decide (Float.gt _ _)); [by injection Hc as _ ->|].
    destruct (decide (window_active _ _)); [|by injection Hc as _ ->].
    destruct (decide (choice ∈ choices)); [|by injection Hc as _ ->].
    destruct Hc as (_ & Hok & _). cbn [fst] in Hok.
    by specialize (Hok (ledger_valid _ _ Hinv)).
Qed.

Lemma submit_vote_broadcast_witness :
  let r := submit_vote (example_env t0) carol_token "против" voted_world in
  tasks r.2 = tasks voted_world
  ∧ match r.1 with
    | Return _ =>
        ∃ td record,
          tokens (storage voted_world) !! carol_token = Some td
          ∧ ledger_of (storage r.2) (TokenData.session_id td)
            = (ledger_of (storage voted_world) (TokenData.session_id td) ++ [record])%list
          ∧ broadcasts r.2
            = (broadcasts voted_world
               ++ [(vote_received (TokenData.session_id td)
                      (tally (ledger_of (storage r.2) (TokenData.session_id td)))
                      (length (roster_of (storage voted_world) (TokenData.session_id td))),
                    "admin")])%list
    | Raise _ => broadcasts r.2 = broadcasts voted_world
    end.
Proof.
  apply (submit_vote_broadcast (example_env t0) _ voted_world carol_token "против"
           voted_world_reached).
Defined.

(** ** The vote page and the vote *)

(** In a world the engine reaches, a vote for one of the three choices is
    accepted exactly when the vote page shows the voting form for the token
    and the clock is not past the expiry time of the token.  The page itself
    does not look at the expiry time. *)
Theorem vote_page_agrees_with_submit_vote env h w token choice :
  reaches env h w →
  choice ∈ choices →
  (submit_vote env token choice w).1 = Return (SubmitVoteResponse "success" "Голос принят")
  ↔ (∃ title presenter description end_time,
       vote_page token w
       = (Return (voting_form_page title presenter description end_time token), w))
    ∧ (∃ td, tokens (storage w) !! token = Some td
             ∧ ¬ Float.gt (env_time env (n_time w)) (TokenData.expires_at td)).
Proof.
  intros Hreach Hch. rewrite (submit_vote_return_iff env w token choice (reaches_inv env h w Hreach)).
  unfold vote_page. pose proof (get_vote_page_cases token w) as Hc.
  split.
  - intros (td & Htd & Hused & Hexp & Hact & _). rewrite Htd, Hused in Hc.
    unfold window_active in Hact.
    destruct (active_voting (storage w) !! TokenData.session_id td) as [vi|]; [|done].
    cbn in Hact. rewrite decide_True in Hc by congruence.
    split; [by eauto|]. by exists td.
  - intros [(title & presenter & description & end_time & Hpage) (td & Htd & Hexp)].
    rewrite Htd in Hc. exists td. split; [done|].
    destruct (TokenData.used td); [by rewrite Hc in Hpage|]. split; [done|].
    split; [done|]. split; [|done]. unfold window_active.
    destruct (active_voting (storage w) !! TokenData.session_id td) as [vi|];
      [|by rewrite Hc in Hpage].
    destruct (decide (VotingInfo.status vi = "active")) as [Hs|Hs];
      [|by rewrite Hc in Hpage].
    cbn. by rewrite Hs.
Qed.

Lemma vote_page_agrees_with_submit_vote_witness :
  (submit_vote (example_env t0) carol_token "против" voted_world).1
  = Return (SubmitVoteResponse "success" "Голос принят")
  ↔ (∃ title presenter description end_time,
       vote_page carol_token voted_world
       = (Return (voting_form_page title presenter description end_time carol_token),
          voted_world))
    ∧ (∃ td, tokens (storage voted_world) !! carol_token = Some td
             ∧ ¬ Float.gt (env_time (example_env t0) (n_time voted_world))
                   (TokenData.expires_at td)).
Proof.
  apply (vote_page_agrees_with_submit_vote (example_env t0) _ voted_world carol_token
           "против" voted_world_reached).
  apply (bool_decide_unpack _). vm_compute. exact I.
Defined.

Section Later.
Context (env : Env).

(** The world after an accepted vote is reached by the engine. *)
Lemma submit_vote_reaches h w token choice r w1 :
  reaches env h w →
  submit_vote env token choice w = (Return r, w1) →
  reaches env (h ++ [(SubmitVote token choice, Return (Some r))]) w1.
Proof.
  intros Hreach Hrun.
  pose proof (steps_snoc env initial_world h w (SubmitVote token choice) Hreach I) as Hs.
  cbn [dispatch] in Hs. rewrite bind_ret_fst, bind_ret_snd, Hrun in Hs. exact Hs.
Qed.

(** A token whose vote was accepted is marked as used in every later world. *)
Lemma redeemed_stays_used h w token choice r w1 h' w2 :
  reaches env h w →
  submit_vote env token choice w = (Return r, w1) →
  steps env w1 h' w2 →
  ∃ td, tokens (storage w2) !! token = Some td ∧ TokenData.used td = true.
Proof.
  intros Hreach Hrun Hsteps.
  pose proof (reaches_inv env _ _ (submit_vote_reaches h w token choice r w1 Hreach Hrun))
    as Hinv1.
  destruct (submit_vote_success env token choice w r w1 Hrun) as (td0 & _ & _ & _ & _ & Hst).
  assert (Htd1 : ∃ td1, tokens (storage w1) !! token = Some td1
                        ∧ TokenData.used td1 = true).
  { rewrite Hst. cbn. rewrite lookup_insert_eq. eauto. }
  destruct Htd1 as (td1 & Htd1 & Hused1).
  destruct (steps_used env w1 h' w2 token td1 Hsteps Hinv1 Htd1 Hused1)
    as (td & Htd & Hused & _).
  by exists td.
Qed.

End Later.

(** Once a vote was accepted for a token, the vote page shows the "already
    voted" page for it in every world the engine reaches later, whatever
    happens to the window. *)
Theorem vote_page_after_vote env h w token choice r w1 h' w2 :
  reaches env h w →
  submit_vote env token choice w = (Return r, w1) →
  steps env w1 h' w2 →
  vote_page token w2 = (Return already_voted_page, w2).
Proof.
  intros Hreach Hrun Hsteps.
  destruct (redeemed_stays_used env h w token choice r w1 h' w2 Hreach Hrun Hsteps)
    as (td & Htd & Hused).
  unfold vote_page. pose proof (get_vote_page_cases token w2) as Hc.
  by rewrite Htd, Hused in Hc.
Qed.

Lemma vote_page_after_vote_witness :
  let env := example_env t0 in
  let w1 := (submit_vote env alice_token "за" opened_world).2 in
  let later := [SubmitVote bob_token "за"; EndVoting example_sid;
                StartVoting example_sid example_voting] in
  let w2 := (run env later w1).2 in
  vote_page alice_token w2 = (Return already_voted_page, w2).
Proof.
  intros env w1 later w2.
  apply (vote_page_after_vote env _ opened_world alice_token "за"
           (SubmitVoteResponse "success" "Голос принят") w1
           (history env later w1) w2 opened_world_reached).
  - vm_compute. reflexivity.
  - apply steps_run. apply (bool_decide_unpack _). vm_compute. exact I.
Defined.

(** ** Windows opened again *)

(** A closed window is not final, and tokens outlive their window: when
    [start_voting] is called again on a session whose window was closed, with
    a duration in seconds that converts to a float and new tokens from the
    generator, the window is active again, and a vote for one of the three
    choices with a token issued for the earlier window and not used is
    accepted by [submit_vote] in the new window, as long as the clock is not
    past the expiry time of the token. *)
Theorem unused_token_accepted_after_reopening env h w token td voting d choice :
  reaches env h w →
  tokens (storage w) !! token = Some td →
  TokenData.used td = false →
  window_completed (storage w) (TokenData.session_id td) →
  Float.of_int (VotingSession.duration_minutes voting * 60) = Some d →
  env_ok env (StartVoting (TokenData.session_id td) voting) w →
  choice ∈ choices →
  let w' := (start_voting env (TokenData.session_id td) voting w).2 in
  ¬ Float.gt (env_time env (n_time w')) (TokenData.expires_at td) →
  window_active (storage w') (TokenData.session_id td)
  ∧ (submit_vote env token choice w').1
    = Return (SubmitVoteResponse "success" "Голос принят").
Proof.
  intros Hreach Htd Hused Hclosed Hd Hok Hch w' Hexp.
  pose proof (reaches_inv env h w Hreach) as Hinv.
  set (sid := TokenData.session_id td) in *.
  pose proof (steps_snoc env initial_world h w (StartVoting sid voting) Hreach Hok) as Hs.
  cbn [dispatch] in Hs. rewrite bind_ret_snd in Hs. fold w' in Hs.
  assert (Hwin : is_Some (active_voting (storage w) !! sid)).
  { unfold window_completed in Hclosed.
    destruct (active_voting (storage w) !! sid); [by eauto|done]. }
  destruct (inv_active _ Hinv sid Hwin) as [sd Hsd].
  destruct (inv_members _ Hinv sid) as [[ms Hms] _]; [by eauto|].
  pose proof (start_voting_cases env sid voting w) as Hc. rewrite Hsd, Hms, Hd in Hc.
  destruct (Hc Hok) as (toks & end_time & vi & w1 & Hrun & _ & _ & _ & _ & Ha
                        & Hvi & _ & Hold & _).
  assert (Hw' : w' = w1) by (subst w'; by rewrite Hrun). rewrite Hw' in *.
  assert (Hact : window_active (storage w1) sid).
  { unfold window_active. rewrite Ha, lookup_insert_eq. cbn. by rewrite Hvi. }
  split; [done|].
  apply (submit_vote_return_iff env w1 token choice (reaches_inv env _ w1 Hs)).
  exists td. split; [|done].
  rewrite Hold; [done|]. intros Hin.
  destruct Hok as [_ Hfresh]. unfold roster_of in Hfresh. rewrite Hms in Hfresh.
  destruct (proj1 (Forall_forall _ _) Hfresh token Hin) as [_ Hnone]. congruence.
Qed.

Lemma unused_token_accepted_after_reopening_witness :
  let w' := (start_voting (example_env t0) example_sid example_voting closed_world).2 in
  window_active (storage w') example_sid
  ∧ (submit_vote (example_env t0) carol_token "против" w').1
    = Return (SubmitVoteResponse "success" "Голос принят").
Proof.
  apply (unused_token_accepted_after_reopening (example_env t0) _ closed_world carol_token
           (TokenData.mk example_sid "carol" false (Float.of_Z (t0 + 4 + 60 + 300))
              (Float.of_Z (t0 + 5)) None)
           example_voting (Float.of_Z 60) "против" closed_world_reached).
  - vm_compute. reflexivity.
  - reflexivity.
  - vm_compute. reflexivity.
  - vm_compute. reflexivity.
  - apply (bool_decide_unpack _). vm_compute. exact I.
  - apply (bool_decide_unpack _). vm_compute. exact I.
  - vm_compute. discriminate.
Defined.

(** ** The status of a session *)

(** In a world the engine reaches, [get_session_status] on an existing
    session returns without changing the world; the live counts it reports
    are those of the ledger, they add up to the number of used tokens of the
    session, and never exceed the size of the roster times the number of
    windows opened on the session. *)
Theorem session_status_live_tally env h w session_id sd :
  reaches env h w →
  sessions (storage w) !! session_id = Some sd →
  ∃ st,
    get_session_status session_id w = (Return st, w)
    ∧ SessionStatus.session st = sd
    ∧ SessionStatus.voting st = active_voting (storage w) !! session_id
    ∧ SessionStatus.current_votes st = tally (ledger_of (storage w) session_id)
    ∧ SessionStatus.total_members st = length (roster_of (storage w) session_id)
    ∧ VotesCount.total (SessionStatus.current_votes st)
      = length (session_tokens session_id true (tokens (storage w)))
    ∧ (VotesCount.total (SessionStatus.current_votes st)
       ≤ windows_opened session_id h * SessionStatus.total_members st)%nat.
Proof.
  intros Hreach Hsd. pose proof (reaches_inv env h w Hreach) as Hinv.
  pose proof (get_session_status_cases session_id w) as Hc. rewrite Hsd in Hc.
  eexists. split; [apply Hc; by apply ledger_valid|].
  cbn [SessionStatus.session SessionStatus.voting SessionStatus.current_votes
       SessionStatus.total_members].
  do 4 (split; [done|]).
  pose proof (total_tally _ (ledger_valid _ session_id Hinv)) as Ht.
  pose proof (Permutation_length (inv_hashes _ Hinv session_id)) as Hl.
  rewrite !length_fmap in Hl.
  destruct (reaches_count env h w session_id Hreach) as (_ & _ & Hcount).
  unfold total_tokens in Hcount. lia.
Qed.

Lemma session_status_live_tally_witness :
  ∃ st,
    get_session_status example_sid voted_world = (Return st, voted_world)
    ∧ SessionStatus.session st
      = SessionData.mk example_sid (Session.title example_session)
          (Session.description example_session) "2024-01-01T00:00:00" "voting"
    ∧ SessionStatus.voting st = active_voting (storage voted_world) !! example_sid
    ∧ SessionStatus.current_votes st = tally (ledger_of (storage voted_world) example_sid)
    ∧ SessionStatus.total_members st = length (roster_of (storage voted_world) example_sid)
    ∧ VotesCount.total (SessionStatus.current_votes st)
      = length (session_tokens example_sid true (tokens (storage voted_world)))
    ∧ (VotesCount.total (SessionStatus.current_votes st)
       ≤ windows_opened example_sid (history (example_env t0) voting_calls initial_world)
         * SessionStatus.total_members st)%nat.
Proof.
  apply (session_status_live_tally (example_env t0) _ voted_world example_sid _
           voted_world_reached).
  vm_compute. reflexivity.
Defined.

(** After a window was closed, the status of the session shows the recorded
    results next to the live counts: they agree on "за" and "против", and the
    recorded abstentions are the live ones plus the unused tokens of the
    session. *)
Theorem session_status_after_close env h w session_id :
  reaches env h w →
  window_completed (storage w) session_id →
  ∃ st vi results,
    get_session_status session_id w = (Return st, w)
    ∧ SessionStatus.voting st = Some vi
    ∧ VotingInfo.results vi = Some results
    ∧ VotesCount.za results = VotesCount.za (SessionStatus.current_votes st)
    ∧ VotesCount.protiv results = VotesCount.protiv (SessionStatus.current_votes st)
    ∧ VotesCount.vozderzhalsya results
      = (VotesCount.vozderzhalsya (SessionStatus.current_votes st)
         + length (session_tokens session_id false (tokens (storage w))))%nat.
Proof.
  intros Hreach Hclosed. pose proof (reaches_inv env h w Hreach) as Hinv.
  unfold window_completed in Hclosed.
  destruct (active_voting (storage w) !! session_id) as [vi|] eqn:Hvi; [|done].
  cbn in Hclosed. injection Hclosed as Hstatus.
  destruct (inv_results _ Hinv session_id vi Hvi) as [Hact|[_ Hres]]; [congruence|].
  destruct (inv_active _ Hinv session_id) as [sd Hsd]; [by eauto|].
  pose proof (get_session_status_cases session_id w) as Hc. rewrite Hsd in Hc.
  eexists _, vi, _. split; [apply Hc; by apply ledger_valid|].
  cbn [SessionStatus.voting SessionStatus.current_votes]. rewrite Hvi.
  split; [done|]. split; [exact Hres|]. done.
Qed.

Lemma session_status_after_close_witness :
  ∃ st vi results,
    get_session_status example_sid closed_world = (Return st, closed_world)
    ∧ SessionStatus.voting st = Some vi
    ∧ VotingInfo.results vi = Some results
    ∧ VotesCount.za results = VotesCount.za (SessionStatus.current_votes st)
    ∧ VotesCount.protiv results = VotesCount.protiv (SessionStatus.current_votes st)
    ∧ VotesCount.vozderzhalsya results
      = (VotesCount.vozderzhalsya (SessionStatus.current_votes st)
         + length (session_tokens example_sid false (tokens (storage closed_world))))%nat.
Proof.
  apply (session_status_after_close (example_env t0) _ closed_world example_sid
           closed_world_reached).
  vm_compute. reflexivity.
Defined.

(** ** Closing a window *)

(** The world after [end_voting] on a session that has a window: the storage
    with the window closed, and the results announced to the projectors, then
    to the admin consoles. *)
Lemma end_voting_world session_id w vi sd :
  active_voting (storage w) !! session_id = Some vi →
  sessions (storage w) !! session_id = Some sd →
  Forall (λ v, VoteRecord.choice v ∈ choices) (ledger_of (storage w) session_id) →
  let results := final_results (storage w) session_id in
  let result_message := voting_ended session_id results (VotesCount.total results) in
  end_voting session_id w
  = (Return (EndVotingResponse "success" results),
     mkWorld (closed_storage (storage w) session_id sd vi results)
       (n_time w) (n_token w) (n_uuid w) (n_now w)
       (broadcasts w ++ [(result_message, "projector"); (result_message, "admin")])%list
       (tasks w)).
Proof.
  intros Hvi Hsd Hvalid results result_message.
  unfold end_voting. mstep. rewrite decide_False by (by rewrite Hvi).
  fold (ledger_of (storage w) session_id).
  unfold bind at 1. rewrite count_votes_zero_valid by done.
  cbn [tally VotesCount.za VotesCount.protiv VotesCount.vozderzhalsya].
  rewrite count_unused_tokens_length. fold (final_results (storage w) session_id).
  fold results. fold result_message.
  repeat (mstep || msubscript). unfold ret, closed_storage, set_sessions, set_active_voting.
  cbn [sessions tokens votes members active_voting].
  rewrite insert_insert_eq, <- (assoc (++)). done.
Qed.

(** In a world the engine reaches, [end_voting] on a session that has a
    window, active or closed, returns results whose counts add up to the size
    of the roster times the number of windows opened on the session so far,
    and announces them with that total to the projectors and then to the
    admin consoles; it reads no clock and draws no token. *)
Theorem end_voting_total_counts_windows env h w session_id :
  reaches env h w →
  is_Some (active_voting (storage w) !! session_id) →
  ∃ results w',
    end_voting session_id w = (Return (EndVotingResponse "success" results), w')
    ∧ VotesCount.total results
      = (windows_opened session_id h * length (roster_of (storage w) session_id))%nat
    ∧ broadcasts w'
      = (broadcasts w
         ++ [(voting_ended session_id results (VotesCount.total results), "projector");
             (voting_ended session_id results (VotesCount.total results), "admin")])%list
    ∧ window_completed (storage w') session_id
    ∧ n_time w' = n_time w ∧ n_token w' = n_token w ∧ tasks w' = tasks w.
Proof.
  intros Hreach [vi Hvi]. pose proof (reaches_inv env h w Hreach) as Hinv.
  destruct (inv_active _ Hinv session_id) as [sd Hsd]; [by eauto|].
  eexists _, _. split.
  { apply (end_voting_world session_id w vi sd Hvi Hsd). by apply ledger_valid. }
  split; [by apply (total_final_results_reached env)|].
  split; [done|]. split; [|done].
  unfold window_completed. cbn. by rewrite lookup_insert_eq.
Qed.

Lemma end_voting_total_counts_windows_witness :
  let env := example_env t0 in
  let calls := (closing_calls ++ [StartVoting example_sid example_voting])%list in
  let w := (run env calls initial_world).2 in
  ∃ results w',
    end_voting example_sid w = (Return (EndVotingResponse "success" results), w')
    ∧ VotesCount.total results
      = (windows_opened example_sid (history env calls initial_world)
         * length (roster_of (storage w) example_sid))%nat
    ∧ broadcasts w'
      = (broadcasts w
         ++ [(voting_ended example_sid results (VotesCount.total results), "projector");
             (voting_ended example_sid results (VotesCount.total results), "admin")])%list
    ∧ window_completed (storage w') example_sid
    ∧ n_time w' = n_time w ∧ n_token w' = n_token w ∧ tasks w' = tasks w.
Proof.
  intros env calls w.
  apply (end_voting_total_counts_windows env (history env calls initial_world) w
           example_sid).
  - apply steps_run. apply (bool_decide_unpack _). vm_compute. exact I.
  - apply (bool_decide_unpack _). vm_compute. exact I.
Defined.

(** ** What a run never undoes *)

Lemma count_choice_app ch l1 l2 :
  count_choice ch (l1 ++ l2) = (count_choice ch l1 + count_choice ch l2)%nat.
Proof. unfold count_choice. by rewrite filter_app, length_app. Qed.

(** A call leaves the record of a token as it is, or redeems it. *)
Lemma effect_token st c o st' t td :
  effect st c o st' →
  tokens st !! t = Some td →
  ∃ td', tokens st' !! t = Some td'
    ∧ (td' = td ∨ (TokenData.used td = false ∧ ∃ voted_at, td' = redeemed td voted_at)).
Proof.
  intros Heff Htd.
  destruct Heff as [| | ? ? ? ? drawn ? ? st' ? ? ? ? Hfresh ? ? ? ? ? Hold | | | |
                    token ? td0 ? voted_at Htd0 Hused0]; eauto.
  - rewrite Hold; [by eauto|]. intros Hin.
    destruct (proj1 (Forall_forall _ _) Hfresh t Hin) as [_ Hnone]. congruence.
  - cbn [vote_storage tokens]. destruct (decide (token = t)) as [->|Hne].
    + rewrite lookup_insert_eq. assert (td0 = td) as -> by congruence.
      eexists. split; [done|]. right. split; [done|]. by exists voted_at.
    + rewrite lookup_insert_ne by done. eauto.
Qed.

Section Stability.
Context (env : Env).

Lemma steps_token w1 h w2 t td :
  steps env w1 h w2 → storage_inv (storage w1) →
  tokens (storage w1) !! t = Some td →
  ∃ td', tokens (storage w2) !! t = Some td'
    ∧ (td' = td ∨ (TokenData.used td = false ∧ ∃ voted_at, td' = redeemed td voted_at)).
Proof.
  intros Hsteps Hinv Htd.
  induction Hsteps as [|w h w' c Hsteps IH Hok]; [by eauto|].
  destruct (IH Hinv Htd) as (td1 & Htd1 & Hor1).
  pose proof (steps_inv env _ _ _ Hsteps Hinv) as Hinv'.
  destruct (effect_token _ _ _ _ t td1 (dispatch_effect env c w' Hinv' Hok) Htd1)
    as (td2 & Htd2 & Hor2).
  exists td2. split; [done|].
  destruct Hor2 as [->|[Hused1 [va ->]]]; [done|].
  destruct Hor1 as [->|[_ [va1 ->]]]; [|done].
  right. split; [done|]. by exists va.
Qed.

Lemma steps_ledger w1 h w2 sid :
  steps env w1 h w2 → storage_inv (storage w1) →
  ∃ new, ledger_of (storage w2) sid = (ledger_of (storage w1) sid ++ new)%list.
Proof.
  intros Hsteps Hinv.
  induction Hsteps as [|w h w' c Hsteps IH Hok].
  { exists []. by rewrite app_nil_r. }
  destruct (IH Hinv) as [new1 Hnew1].
  pose proof (steps_inv env _ _ _ Hsteps Hinv) as Hinv'.
  destruct (effect_ledger _ _ _ _ sid Hinv' (dispatch_effect env c w' Hinv' Hok))
    as [new2 Hnew2].
  exists (new1 ++ new2)%list. by rewrite Hnew2, Hnew1, (assoc (++)).
Qed.

End Stability.

(** Along every run of the engine a token of the store is never deleted and
    never changed, except that it is redeemed at most once: later, its record
    is the same, or it was unused and is now used with a vote time, with the
    same session, member, expiry time and creation time. *)
Theorem token_record_stable env h w1 h' w2 token td :
  reaches env h w1 →
  steps env w1 h' w2 →
  tokens (storage w1) !! token = Some td →
  ∃ td', tokens (storage w2) !! token = Some td'
    ∧ (td' = td
       ∨ (TokenData.used td = false ∧ ∃ voted_at, td' = redeemed td voted_at)).
Proof.
  intros Hreach Hsteps Htd.
  exact (steps_token env w1 h' w2 token td Hsteps (reaches_inv env h w1 Hreach) Htd).
Qed.

Lemma token_record_stable_witness :
  let env := example_env t0 in
  let later := [SubmitVote alice_token "за"; EndVoting example_sid;
                StartVoting example_sid example_voting] in
  let w2 := (run env later opened_world).2 in
  let td := TokenData.mk example_sid "alice" false (Float.of_Z (t0 + 60 + 300)) (Float.of_Z (t0 + 1)) None in
  ∃ td', tokens (storage w2) !! alice_token = Some td'
    ∧ (td' = td
       ∨ (TokenData.used td = false ∧ ∃ voted_at, td' = redeemed td voted_at)).
Proof.
  intros env later w2 td.
  apply (token_record_stable env _ opened_world (history env later opened_world) w2
           alice_token td opened_world_reached).
  - apply steps_run. apply (bool_decide_unpack _). vm_compute. exact I.
  - vm_compute. reflexivity.
Defined.

(** Along every run of the engine the ledger of a session is append-only:
    later, it is the earlier ledger followed by new records, so no count of
    it ever decreases. *)
Theorem ledger_append_only env h w1 h' w2 session_id :
  reaches env h w1 →
  steps env w1 h' w2 →
  ∃ new,
    ledger_of (storage w2) session_id = (ledger_of (storage w1) session_id ++ new)%list
    ∧ ∀ choice, (count_choice choice (ledger_of (storage w1) session_id)
                 ≤ count_choice choice (ledger_of (storage w2) session_id))%nat.
Proof.
  intros Hreach Hsteps.
  destruct (steps_ledger env w1 h' w2 session_id Hsteps (reaches_inv env h w1 Hreach))
    as [new Hnew].
  exists new. split; [done|]. intros choice. rewrite Hnew, count_choice_app. lia.
Qed.

Lemma ledger_append_only_witness :
  let env := example_env t0 in
  let later := [SubmitVote carol_token "против"; EndVoting example_sid;
                StartVoting example_sid example_voting] in
  let w2 := (run env later voted_world).2 in
  ∃ new,
    ledger_of (storage w2) example_sid = (ledger_of (storage voted_world) example_sid ++ new)%list
    ∧ ∀ choice, (count_choice choice (ledger_of (storage voted_world) example_sid)
                 ≤ count_choice choice (ledger_of (storage w2) example_sid))%nat.
Proof.
  intros env later w2.
  apply (ledger_append_only env _ voted_world (history env later voted_world) w2
           example_sid voted_world_reached).
  apply steps_run. apply (bool_decide_unpack _). vm_compute. exact I.
Defined.

(** ** Sessions do not interfere *)

(** A call changes nothing of a session other than the one it works on. *)
Lemma effect_isolated st c o st' sid :
  effect st c o st' →
  match c with
  | CreateSession _ => o ≠ Return (Some (CreateSessionResponse sid "success"))
  | StartVoting sid0 _ | EndVoting sid0 | AutoEndVoting sid0 => sid0 ≠ sid
  | SubmitVote token _ => TokenData.session_id <$> tokens st !! token ≠ Some sid
  end →
  sessions st' !! sid = sessions st !! sid
  ∧ members st' !! sid = members st !! sid
  ∧ votes st' !! sid = votes st !! sid
  ∧ active_voting st' !! sid = active_voting st !! sid
  ∧ ∀ t td, TokenData.session_id td = sid →
      tokens st' !! t = Some td ↔ tokens st !! t = Some td.
Proof.
  intros Heff Hne.
  destruct Heff as [|session sid0 ? ? Hfresh
                    | sid0 ? sd vi drawn ? ? st' ? ? ? ? Hfr Hs Hv Hm Ha ? Hold Hnew
                    | sid0 | sid0 | |
                    token choice td0 ts va Htd0 Hused0].
  - done.
  - assert (sid0 ≠ sid) by (intros ->; by apply Hne).
    cbn. by rewrite !lookup_insert_ne.
  - rewrite Hs, Hv, Hm, Ha, !lookup_insert_ne by done. do 4 (split; [done|]).
    intros t td Hsid. destruct (decide (t ∈ drawn)) as [Hin|Hnin].
    + destruct (Hnew t Hin) as (td2 & Htd2 & Hsid2 & _).
      destruct (proj1 (Forall_forall _ _) Hfr t Hin) as [_ Hnone].
      rewrite Htd2, Hnone. split; intros [=]. congruence.
    + by rewrite Hold.
  - cbn. by rewrite !lookup_insert_ne.
  - cbn. by rewrite !lookup_insert_ne.
  - done.
  - rewrite Htd0 in Hne. cbn in Hne.
    assert (TokenData.session_id td0 ≠ sid) by congruence.
    cbn. rewrite lookup_insert_ne by done. do 4 (split; [done|]).
    intros t td Hsid. destruct (decide (token = t)) as [->|Hnt].
    + rewrite lookup_insert_eq, Htd0. split; intros [= <-]; done.
    + by rewrite lookup_insert_ne.
Qed.

(** In a world the engine reaches, a call changes nothing of the sessions
    other than the one it works on: their data, roster, ledger, window and
    tokens are after the call what they were before. *)
Theorem call_touches_one_session env h w c session_id :
  reaches env h w →
  env_ok env c w →
  target_session env c w ≠ Some session_id →
  let w' := (dispatch env c w).2 in
  sessions (storage w') !! session_id = sessions (storage w) !! session_id
  ∧ members (storage w') !! session_id = members (storage w) !! session_id
  ∧ votes (storage w') !! session_id = votes (storage w) !! session_id
  ∧ active_voting (storage w') !! session_id = active_voting (storage w) !! session_id
  ∧ ∀ t td, TokenData.session_id td = session_id →
      tokens (storage w') !! t = Some td ↔ tokens (storage w) !! t = Some td.
Proof.
  intros Hreach Hok Hne w'.
  pose proof (dispatch_effect env c w (reaches_inv env h w Hreach) Hok) as Heff.
  apply (effect_isolated _ _ _ _ session_id Heff).
  destruct c as [session|sid voting|sid|sid|token choice]; cbn [target_session] in Hne;
    try congruence.
  cbn [dispatch]. rewrite bind_ret_fst.
  destruct (create_session_spec env session w) as (-> & _). cbn. congruence.
Qed.

Lemma call_touches_one_session_witness :
  let env := example_env t0 in
  let w := (run env [CreateSession example_session; CreateSession empty_session;
                     StartVoting example_sid example_voting] initial_world).2 in
  let c := SubmitVote alice_token "за" in
  let session_id := example_uuid 1 in
  let w' := (dispatch env c w).2 in
  sessions (storage w') !! session_id = sessions (storage w) !! session_id
  ∧ members (storage w') !! session_id = members (storage w) !! session_id
  ∧ votes (storage w') !! session_id = votes (storage w) !! session_id
  ∧ active_voting (storage w') !! session_id = active_voting (storage w) !! session_id
  ∧ ∀ t td, TokenData.session_id td = session_id →
      tokens (storage w') !! t = Some td ↔ tokens (storage w) !! t = Some td.
Proof.
  intros env w c session_id.
  apply (call_touches_one_session env
           (history env [CreateSession example_session; CreateSession empty_session;
                         StartVoting example_sid example_voting] initial_world)
           w c session_id).
  - apply steps_run. apply (bool_decide_unpack _). vm_compute. exact I.
  - exact I.
  - vm_compute. discriminate.
Defined.
